(** * Request validation, sanitisation and rate limiting of the downloader gateway

    A shallow embedding of [lib/validation.ts], [constants/platforms.ts],
    [lib/rate-limiter.ts], [middleware/security.ts], the number settings of
    [config/env.ts], the handler of [pages/api/download.ts] and the checks
    that [components/DownloaderApp.tsx] makes around its call of the
    endpoint, followed by the properties of the specification that concern
    them and by further properties of the code.

    Conventions of the embedding.
    - A JavaScript string is a [string]; each character stands for the UTF-16
      code unit of the same number, so the strings covered are those over
      U+0000..U+00FF.  [trim], [toLowerCase] and the case folding of regular
      expressions are the ECMAScript ones restricted to that range.
    - A JavaScript number that holds a counter or an epoch-millisecond
      timestamp is a [Z].
    - A thrown exception is the [Throw] case of [completion].
    - [Date.now()], [Math.random()], the request, the environment and the
      extraction service that [fetch] reaches are inputs of the functions
      that use them; the limiters and the disk are passed in and handed
      back.
    - The [URL] class is supplied by the platform.  The functions that use it
      take the constructor as a parameter [new_URL]; [node_URL] further down
      is an executable reading of the WHATWG parser; the properties stated
      with it are about the inputs on which it answers a URL. *)

From Stdlib Require Import ZArith Ascii String List Bool Lia DecimalString DecimalNat.
From stdpp Require Import gmap strings list.

Local Open Scope string_scope.

(** ** JavaScript strings *)

Module JsString.

Definition code (c : ascii) : nat := nat_of_ascii c.

(** WhiteSpace and LineTerminator code points below U+0100:
    TAB, LF, VT, FF, CR, SP and NBSP. *)
Definition isWhiteSpace (c : ascii) : bool :=
  let n := code c in
  (Nat.leb 9 n && Nat.leb n 13) || Nat.eqb n 32 || Nat.eqb n 160.

Fixpoint trimStart (s : string) : string :=
  match s with
  | EmptyString => EmptyString
  | String c s' => if isWhiteSpace c then trimStart s' else s
  end.

Fixpoint trimEnd (s : string) : string :=
  match s with
  | EmptyString => EmptyString
  | String c s' =>
      match trimEnd s' with
      | EmptyString => if isWhiteSpace c then EmptyString else String c EmptyString
      | t => String c t
      end
  end.

(** [String.prototype.trim] *)
Definition trim (s : string) : string := trimEnd (trimStart s).

Definition isUpper (c : ascii) : bool :=
  let n := code c in
  (Nat.leb 65 n && Nat.leb n 90)
  || (Nat.leb 192 n && Nat.leb n 222 && negb (Nat.eqb n 215)).

Definition isLower (c : ascii) : bool :=
  let n := code c in
  (Nat.leb 97 n && Nat.leb n 122)
  || (Nat.leb 224 n && Nat.leb n 254 && negb (Nat.eqb n 247)).

Definition lowerChar (c : ascii) : ascii :=
  if isUpper c then ascii_of_nat (code c + 32) else c.

Definition upperChar (c : ascii) : ascii :=
  if isLower c then ascii_of_nat (code c - 32) else c.

(** [String.prototype.toLowerCase] *)
Fixpoint toLowerCase (s : string) : string :=
  match s with
  | EmptyString => EmptyString
  | String c s' => String (lowerChar c) (toLowerCase s')
  end.

(** [s.startsWith(p)] *)
Fixpoint startsWith (s p : string) : bool :=
  match p, s with
  | EmptyString, _ => true
  | String a p', String b s' => if Ascii.eqb a b then startsWith s' p' else false
  | String _ _, EmptyString => false
  end.

(** [s.includes(t)] *)
Fixpoint includes (s t : string) : bool :=
  if startsWith s t then true
  else match s with
       | EmptyString => false
       | String _ s' => includes s' t
       end.

(** [xs.includes(x)] on an array of strings *)
Definition arrayIncludes (xs : list string) (x : string) : bool :=
  existsb (String.eqb x) xs.

(** The text between the start of [s] and the start of its suffix [rest]. *)
Definition consumed (s rest : string) : string :=
  String.substring 0 (String.length s - String.length rest) s.

End JsString.

Import JsString.

(** ** Exceptions *)

Inductive ErrorClass := ErrorClass_Error | ErrorClass_TypeError | ErrorClass_SyntaxError.

Record JsError := mkJsError { errorClass : ErrorClass; message : string }.

Inductive completion (A : Type) :=
| Return (a : A)
| Throw (e : JsError).
Arguments Return {A} a.
Arguments Throw {A} e.

(** [new Error(msg)] *)
Definition newError (msg : string) : JsError := mkJsError ErrorClass_Error msg.

(** [e instanceof Error]: [TypeError] and [SyntaxError] inherit from [Error]. *)
Definition instanceofError (e : JsError) : bool := true.

(** ** Regular expressions

    The fragment of the ECMAScript pattern language that the source uses:
    pattern characters, [.], a class followed by [+] (greedy), sequence,
    alternation and capturing groups, with the [i] flag. *)

Module RegExp.

Inductive regex :=
| Empty
| Chr (c : ascii)
| Dot
| PlusClass (negated : bool) (ranges : list (ascii * ascii))
| Seq (r1 r2 : regex)
| Alt (r1 r2 : regex)
| Group (r : regex).

Record t := mk { source : regex; ignoreCase : bool }.

Fixpoint lit (s : string) : regex :=
  match s with
  | EmptyString => Empty
  | String c s' => Seq (Chr c) (lit s')
  end.

(** Canonicalize of the specification, without the [u] flag. *)
Definition canonicalize (i : bool) (c : ascii) : ascii :=
  if i then upperChar c else c.

Definition charMatches (i : bool) (a c : ascii) : bool :=
  Ascii.eqb (canonicalize i a) (canonicalize i c).

Definition inRanges (ranges : list (ascii * ascii)) (c : ascii) : bool :=
  existsb (fun '(lo, hi) => Nat.leb (code lo) (code c) && Nat.leb (code c) (code hi))
          ranges.

Definition classMatches (i negated : bool) (ranges : list (ascii * ascii))
           (c : ascii) : bool :=
  let hit :=
    inRanges ranges c
    || (i && (inRanges ranges (upperChar c) || inRanges ranges (lowerChar c))) in
  if negated then negb hit else hit.

(** LineTerminator below U+0100: LF and CR. *)
Definition isLineTerminator (c : ascii) : bool :=
  Nat.eqb (code c) 10 || Nat.eqb (code c) 13.

Definition cont := string -> list string -> option (list string).

(** Greedy repetition of a class: take one more character if possible,
    and give it back when the rest of the pattern fails. *)
Fixpoint starClass (mem : ascii -> bool) (s : string) (caps : list string)
         (k : cont) : option (list string) :=
  match s with
  | EmptyString => k s caps
  | String c s' =>
      if mem c then
        match starClass mem s' caps k with
        | Some r => Some r
        | None => k s caps
        end
      else k s caps
  end.

(** Backtracking matcher anchored at the start of [s]; [k] is the rest of
    the pattern, [caps] the captures so far, in the order the groups
    close. *)
Fixpoint rmatch (i : bool) (r : regex) (s : string) (caps : list string)
         (k : cont) : option (list string) :=
  match r with
  | Empty => k s caps
  | Chr c =>
      match s with
      | String a s' => if charMatches i a c then k s' caps else None
      | EmptyString => None
      end
  | Dot =>
      match s with
      | String a s' => if isLineTerminator a then None else k s' caps
      | EmptyString => None
      end
  | PlusClass negated ranges =>
      match s with
      | String a s' =>
          if classMatches i negated ranges a
          then starClass (classMatches i negated ranges) s' caps k
          else None
      | EmptyString => None
      end
  | Seq r1 r2 => rmatch i r1 s caps (fun s' caps' => rmatch i r2 s' caps' k)
  | Alt r1 r2 =>
      match rmatch i r1 s caps k with
      | Some res => Some res
      | None => rmatch i r2 s caps k
      end
  | Group r1 =>
      rmatch i r1 s caps (fun s' caps' => k s' (caps' ++ [consumed s s'])%list)
  end.

Definition matchHere (re : t) (s : string) : option (list string) :=
  rmatch (ignoreCase re) (source re) s [] (fun _ caps => Some caps).

(** [s.match(re)] for a pattern without the [g] flag: the captures of the
    leftmost match. *)
Fixpoint exec (re : t) (s : string) : option (list string) :=
  match matchHere re s with
  | Some caps => Some caps
  | None =>
      match s with
      | EmptyString => None
      | String _ s' => exec re s'
      end
  end.

(** [re.test(s)] *)
Definition test (re : t) (s : string) : bool :=
  match exec re s with Some _ => true | None => false end.

End RegExp.

(** ** Platform registry ([constants/platforms.ts]) *)

Inductive SupportedPlatform := instagram | twitter | tiktok.

Definition platformName (p : SupportedPlatform) : string :=
  match p with
  | instagram => "instagram"
  | twitter => "twitter"
  | tiktok => "tiktok"
  end.

Definition SUPPORTED_PLATFORMS_TWITTER : SupportedPlatform := twitter.

Record PatternConfig := { domain : RegExp.t; patterns : list RegExp.t }.

Module Patterns.
Import RegExp.

Definition idChars : list (ascii * ascii) :=
  [("A", "Z"); ("a", "z"); ("0", "9"); ("_", "_"); ("-", "-")]%char.
Definition digits : list (ascii * ascii) := [("0", "9")]%char.
Definition slash : list (ascii * ascii) := [("/", "/")]%char.

(** [/lit/i] *)
Definition ci (s : string) : t := mk (lit s) true.

(** [/prefix(class+)/i] *)
Definition captureAfter (prefix : string) (ranges : list (ascii * ascii)) : t :=
  mk (Seq (lit prefix) (Group (PlusClass false ranges))) true.
End Patterns.

(** Entries in the order [Object.entries(URL_PATTERNS)] yields them. *)
Definition URL_PATTERNS : list (SupportedPlatform * PatternConfig) :=
  [ (instagram,
     {| domain := Patterns.ci "instagram.com";
        patterns := [ Patterns.captureAfter "/reel/" Patterns.idChars;
                      Patterns.captureAfter "/p/" Patterns.idChars;
                      Patterns.captureAfter "/tv/" Patterns.idChars ] |});
    (twitter,
     {| domain := RegExp.mk (RegExp.Alt (RegExp.lit "x.com") (RegExp.lit "twitter.com")) true;
        patterns := [ Patterns.captureAfter "/status/" Patterns.digits ] |});
    (tiktok,
     {| domain := Patterns.ci "tiktok.com";
        patterns :=
          [ Patterns.captureAfter "/video/" Patterns.digits;
            RegExp.mk
              (RegExp.Seq (RegExp.lit "/@")
                 (RegExp.Seq (RegExp.PlusClass true Patterns.slash)
                    (RegExp.Seq (RegExp.lit "/video/")
                       (RegExp.Group (RegExp.PlusClass false Patterns.digits)))))
              true ] |}) ].

(** [URL_PATTERNS[platform]?.patterns || []] *)
Definition patternsOf (p : SupportedPlatform) : list RegExp.t :=
  match find (fun '(q, _) => String.eqb (platformName q) (platformName p)) URL_PATTERNS with
  | Some (_, config) => patterns config
  | None => []
  end.

(** ** The platform's URL objects

    The properties of a [URL] instance that the source reads.  [host] carries
    the port when there is one; [searchParams] lists the name-value pairs of
    the query in order, as [urlObj.searchParams.entries()] yields them. *)

Record URL := mkURL {
  protocol : string;
  host : string;
  pathname : string;
  searchParams : list (string * string);
  hash : string
}.

(** The message of the [TypeError] that [new URL(s)] throws on Node. *)
Definition invalidURL : JsError := mkJsError ErrorClass_TypeError "Invalid URL".

(** *** [URLSearchParams.prototype.toString]

    The application/x-www-form-urlencoded serialiser: UTF-8 encode, keep
    [*-._] and the ASCII alphanumerics, turn a space into [+] and
    percent-encode every other byte. *)

Module FormUrlencoded.

Definition hexDigit (n : nat) : ascii :=
  if Nat.ltb n 10 then ascii_of_nat (48 + n) else ascii_of_nat (55 + n).

Definition percentByte (n : nat) : string :=
  String "%" (String (hexDigit (n / 16)) (String (hexDigit (n mod 16)) EmptyString)).

Definition isUnreserved (n : nat) : bool :=
  Nat.eqb n 42 || Nat.eqb n 45 || Nat.eqb n 46 || Nat.eqb n 95
  || (Nat.leb 48 n && Nat.leb n 57)
  || (Nat.leb 65 n && Nat.leb n 90)
  || (Nat.leb 97 n && Nat.leb n 122).

(** UTF-8 bytes of a code point below U+0100. *)
Definition utf8 (c : ascii) : list nat :=
  let n := code c in
  if Nat.ltb n 128 then [n] else [192 + n / 64; 128 + n mod 64].

Definition encodeByte (n : nat) : string :=
  if Nat.eqb n 32 then "+"
  else if isUnreserved n then String (ascii_of_nat n) EmptyString
  else percentByte n.

Fixpoint encode (s : string) : string :=
  match s with
  | EmptyString => EmptyString
  | String c s' =>
      fold_right (fun b acc => encodeByte b +:+ acc) (encode s') (utf8 c)
  end.

Definition pair (kv : string * string) : string :=
  encode (fst kv) +:+ "=" +:+ encode (snd kv).

Fixpoint serialize (ps : list (string * string)) : string :=
  match ps with
  | [] => EmptyString
  | [kv] => pair kv
  | kv :: rest => pair kv +:+ "&" +:+ serialize rest
  end.

End FormUrlencoded.

(** ** Validation ([lib/validation.ts]) *)

Record ValidationSchema := mkValidation {
  isValid : bool;
  errors : list string;
  platform : option SupportedPlatform;
  contentId : option string
}.

Definition dangerousProtocols : list string :=
  ["javascript:"; "data:"; "vbscript:"; "file:"; "ftp:"].

Definition xssPatterns : list RegExp.t :=
  [ Patterns.ci "<script";
    Patterns.ci "<iframe";
    Patterns.ci "<embed";
    Patterns.ci "<object";
    Patterns.ci "onload=";
    Patterns.ci "onerror=";
    Patterns.ci "onclick=";
    Patterns.ci "onmouseover=";
    Patterns.ci "javascript:";
    RegExp.mk (RegExp.Seq RegExp.Dot (RegExp.lit "fromCharCode")) true;
    RegExp.mk (RegExp.Seq RegExp.Dot (RegExp.lit "innerHTML")) true;
    RegExp.mk (RegExp.Seq RegExp.Dot (RegExp.lit "outerHTML")) true;
    Patterns.ci "eval(";
    Patterns.ci "expression(" ].

Definition dangerousParams : list string :=
  [ "callback"; "jsonp"; "redirect"; "return"; "next"; "url"; "dest";
    "destination"; "redirect_uri"; "redirect_url"; "return_to"; "load";
    "src"; "eval"; "exec"; "cmd"; "command" ].

Definition ERR_REQUIRED : string := "URL is required".
Definition ERR_FORMAT : string := "Invalid URL format".
Definition ERR_PROTOCOL : string := "URL must use HTTP or HTTPS protocol".
Definition ERR_UNSUPPORTED : string :=
  "Unsupported platform. Please use Instagram, X (Twitter), or TikTok URL".
Definition ERR_NO_ID (p : SupportedPlatform) : string :=
  "Could not extract content ID from " +:+ platformName p +:+ " URL".

(** The [for ... of Object.entries(URL_PATTERNS)] loop of [detectPlatform]. *)
Fixpoint firstDomainMatch (entries : list (SupportedPlatform * PatternConfig))
         (normalizedUrl : string) : option SupportedPlatform :=
  match entries with
  | [] => None
  | (p, config) :: rest =>
      if RegExp.test (domain config) normalizedUrl then Some p
      else firstDomainMatch rest normalizedUrl
  end.

Definition detectPlatform (url : string) : option SupportedPlatform :=
  let normalizedUrl := trim (toLowerCase url) in
  match firstDomainMatch URL_PATTERNS normalizedUrl with
  | Some p => Some p
  | None =>
      if includes normalizedUrl "x.com" then Some SUPPORTED_PLATFORMS_TWITTER
      else None
  end.

(** The [for (const pattern of patterns)] loop of [extractContentId]:
    [match?.[1]] is truthy when group 1 took part in the match and is not
    the empty string. *)
Fixpoint firstCapture (pats : list RegExp.t) (path : string) : option string :=
  match pats with
  | [] => None
  | pattern :: rest =>
      match RegExp.exec pattern path with
      | Some (String c id :: _) => Some (String c id)
      | _ => firstCapture rest path
      end
  end.

(** The loop of [sanitize] that copies the parameters to keep. *)
Definition safeParamsOf (params : list (string * string)) : list (string * string) :=
  fold_left
    (fun safeParams '(key, value) =>
       if arrayIncludes dangerousParams (toLowerCase key) then safeParams
       else (safeParams ++ [(key, value)])%list)
    params [].

Section Validation.

(** [new URL(s)]: the parsed URL, or [None] when the constructor throws. *)
Variable new_URL : string -> option URL.

Definition extractContentId (url : string) (p : SupportedPlatform) : option string :=
  match new_URL url with
  | None => None
  | Some urlObj => firstCapture (patternsOf p) (pathname urlObj)
  end.

Definition validate (url : string) : ValidationSchema :=
  let errors : list string := [] in
  if String.eqb url "" then
    mkValidation false (errors ++ [ERR_REQUIRED])%list None None
  else
    let trimmedUrl := trim url in
    match new_URL trimmedUrl with
    | None => mkValidation false (errors ++ [ERR_FORMAT])%list None None
    | Some urlObj =>
        let errors :=
          if arrayIncludes ["http:"; "https:"] (protocol urlObj) then errors
          else (errors ++ [ERR_PROTOCOL])%list in
        match detectPlatform trimmedUrl with
        | None => mkValidation false (errors ++ [ERR_UNSUPPORTED])%list None None
        | Some p =>
            match extractContentId trimmedUrl p with
            | None => mkValidation false (errors ++ [ERR_NO_ID p])%list (Some p) None
            | Some id =>
                mkValidation (Nat.eqb (List.length errors) 0) errors (Some p) (Some id)
            end
        end
    end.

(** The body of the [try] block of [sanitize]. *)
Definition sanitize_try (url : string) : completion string :=
  let trimmedUrl := trim url in
  let lowerUrl := toLowerCase trimmedUrl in
  if existsb (fun protocol => startsWith lowerUrl protocol) dangerousProtocols then
    Throw (newError "Dangerous protocol detected")
  else if existsb (fun pattern => RegExp.test pattern trimmedUrl) xssPatterns then
    Throw (newError "XSS pattern detected")
  else
    match new_URL trimmedUrl with
    | None => Throw invalidURL
    | Some urlObj =>
        let safeParams := safeParamsOf (searchParams urlObj) in
        let safeUrl := protocol urlObj +:+ "//" +:+ host urlObj +:+ pathname urlObj in
        let queryString := FormUrlencoded.serialize safeParams in
        Return (if String.eqb queryString "" then safeUrl
                else safeUrl +:+ "?" +:+ queryString)
    end.

(** The [catch (e)] clause of [sanitize]. *)
Definition sanitize_catch (e : JsError) : completion string :=
  if (instanceofError e && includes (message e) "Dangerous")
     || includes (message e) "XSS"
  then Throw e
  else Throw (newError ERR_FORMAT).

Definition sanitize (url : string) : completion string :=
  match sanitize_try url with
  | Return safe => Return safe
  | Throw e => sanitize_catch e
  end.

End Validation.

(** ** An executable reading of the WHATWG URL parser

    [node_URL] follows the basic URL parser of the URL Standard for an input
    without a base URL: scheme, authority, path with dot segments, query and
    fragment, each with its percent-encode set, and the
    application/x-www-form-urlencoded parser behind [searchParams].

    Not modelled, and answered [None]: [file:] URLs, hosts written as IPv4
    or IPv6 addresses, hosts that need percent-decoding or IDNA processing,
    and query parameters that decode to a code point above U+00FF.  What
    is proved of [node_URL] is proved of the inputs on which it answers a
    URL, which have none of these. *)

Module WhatwgURL.

Definition between (lo hi n : nat) : bool := Nat.leb lo n && Nat.leb n hi.

Definition isAsciiAlpha (c : ascii) : bool :=
  between 65 90 (code c) || between 97 122 (code c).
Definition isAsciiDigit (c : ascii) : bool := between 48 57 (code c).
Definition isAsciiHexDigit (c : ascii) : bool :=
  isAsciiDigit c || between 65 70 (code c) || between 97 102 (code c).
Definition asciiLower (c : ascii) : ascii :=
  if between 65 90 (code c) then ascii_of_nat (code c + 32) else c.
Definition hexValue (c : ascii) : nat :=
  if isAsciiDigit c then code c - 48
  else if between 65 70 (code c) then code c - 55
  else code c - 87.

Definition isC0ControlOrSpace (c : ascii) : bool := Nat.leb (code c) 32.
Definition isTabOrNewline (c : ascii) : bool :=
  Nat.eqb (code c) 9 || Nat.eqb (code c) 10 || Nat.eqb (code c) 13.

Fixpoint mapS (f : ascii -> ascii) (s : string) : string :=
  match s with
  | EmptyString => EmptyString
  | String c s' => String (f c) (mapS f s')
  end.

Fixpoint filterS (keep : ascii -> bool) (s : string) : string :=
  match s with
  | EmptyString => EmptyString
  | String c s' => if keep c then String c (filterS keep s') else filterS keep s'
  end.

Fixpoint forallS (p : ascii -> bool) (s : string) : bool :=
  match s with
  | EmptyString => true
  | String c s' => p c && forallS p s'
  end.

Fixpoint dropWhileS (p : ascii -> bool) (s : string) : string :=
  match s with
  | EmptyString => EmptyString
  | String c s' => if p c then dropWhileS p s' else s
  end.

Fixpoint dropWhileEndS (p : ascii -> bool) (s : string) : string :=
  match s with
  | EmptyString => EmptyString
  | String c s' =>
      match dropWhileEndS p s' with
      | EmptyString => if p c then EmptyString else String c EmptyString
      | t => String c t
      end
  end.

(** The prefix before the first delimiter, and the rest from the
    delimiter on. *)
Fixpoint breakS (isDelim : ascii -> bool) (s : string) : string * string :=
  match s with
  | EmptyString => (EmptyString, EmptyString)
  | String c s' =>
      if isDelim c then (EmptyString, s)
      else let '(a, b) := breakS isDelim s' in (String c a, b)
  end.

(** Strictly split on a delimiter; the result is never empty. *)
Fixpoint splitOn (isDelim : ascii -> bool) (s : string) : list string :=
  match s with
  | EmptyString => [EmptyString]
  | String c s' =>
      if isDelim c then EmptyString :: splitOn isDelim s'
      else match splitOn isDelim s' with
           | x :: xs => String c x :: xs
           | [] => [String c EmptyString]
           end
  end.

Definition isChar (d : ascii) (c : ascii) : bool := Ascii.eqb c d.

(** *** Percent-encode sets *)

Definition c0ControlSet (n : nat) : bool := Nat.leb n 31 || Nat.ltb 126 n.
Definition fragmentSet (n : nat) : bool :=
  c0ControlSet n || existsb (Nat.eqb n) [32; 34; 60; 62; 96].
Definition querySet (n : nat) : bool :=
  c0ControlSet n || existsb (Nat.eqb n) [32; 34; 35; 60; 62].
Definition specialQuerySet (n : nat) : bool := querySet n || Nat.eqb n 39.
(** The path set is that of the parser of Node, which leaves [^] as it
    is. *)
Definition pathSet (n : nat) : bool :=
  querySet n || existsb (Nat.eqb n) [63; 96; 123; 125].

Definition percentEncodeChar (inSet : nat -> bool) (c : ascii) : string :=
  if inSet (code c)
  then fold_right (fun b acc => FormUrlencoded.percentByte b +:+ acc)
                  EmptyString (FormUrlencoded.utf8 c)
  else String c EmptyString.

Fixpoint percentEncode (inSet : nat -> bool) (s : string) : string :=
  match s with
  | EmptyString => EmptyString
  | String c s' => percentEncodeChar inSet c +:+ percentEncode inSet s'
  end.

(** *** Scheme *)

Definition isSchemeChar (c : ascii) : bool :=
  isAsciiAlpha c || isAsciiDigit c || isChar "+" c || isChar "-" c || isChar "." c.

Fixpoint schemeRest (s : string) : option (string * string) :=
  match s with
  | EmptyString => None
  | String c s' =>
      if isChar ":" c then Some (EmptyString, s')
      else if isSchemeChar c then
        match schemeRest s' with
        | Some (scheme, rest) => Some (String (asciiLower c) scheme, rest)
        | None => None
        end
      else None
  end.

Definition parseScheme (s : string) : option (string * string) :=
  match s with
  | String c _ => if isAsciiAlpha c then schemeRest s else None
  | EmptyString => None
  end.

Definition defaultPort (scheme : string) : option nat :=
  if String.eqb scheme "ftp" then Some 21
  else if String.eqb scheme "http" then Some 80
  else if String.eqb scheme "https" then Some 443
  else if String.eqb scheme "ws" then Some 80
  else if String.eqb scheme "wss" then Some 443
  else None.

Definition isSpecial (scheme : string) : bool :=
  String.eqb scheme "file"
  || match defaultPort scheme with Some _ => true | None => false end.

(** *** Host and port *)

Definition forbiddenHostCodePoint (c : ascii) : bool :=
  existsb (Nat.eqb (code c))
          [0; 9; 10; 13; 32; 35; 47; 58; 60; 62; 63; 64; 91; 92; 93; 94; 124].

Definition forbiddenDomainCodePoint (c : ascii) : bool :=
  forbiddenHostCodePoint c || Nat.leb (code c) 31 || isChar "%" c
  || Nat.eqb (code c) 127.

Definition startsWithXn (label : string) : bool :=
  startsWith (mapS asciiLower label) "xn--".

Definition endsInNumber (h : string) : bool :=
  let parts := rev (splitOn (isChar ".") h) in
  let parts := match parts with
               | EmptyString :: (_ :: _) as rest => match rest with _ :: r => r | [] => [] end
               | _ => parts
               end in
  match parts with
  | last :: _ =>
      negb (String.eqb last "")
      && (forallS isAsciiDigit last
          || ((startsWith last "0x" || startsWith last "0X")
              && forallS isAsciiHexDigit (String.substring 2 (String.length last) last)))
  | [] => false
  end.

Inductive hostResult :=
| HostOk (h : string)
| HostFailure
| HostNotModelled.

(** The host parser for a special scheme (a domain). *)
Definition parseDomain (h : string) : hostResult :=
  if String.eqb h "" then HostFailure
  else if startsWith h "[" then HostNotModelled
  else if negb (forallS (fun c => Nat.ltb (code c) 128 && negb (isChar "%" c)) h)
  then HostNotModelled
  else if existsb startsWithXn (splitOn (isChar ".") h) then HostNotModelled
  else
    let d := mapS asciiLower h in
    if negb (forallS (fun c => negb (forbiddenDomainCodePoint c)) d) then HostFailure
    else if endsInNumber d then HostNotModelled
    else HostOk d.

(** The opaque-host parser for the other schemes. *)
Definition parseOpaqueHost (h : string) : hostResult :=
  if startsWith h "[" then HostNotModelled
  else if negb (forallS (fun c => negb (forbiddenHostCodePoint c)) h) then HostFailure
  else HostOk (percentEncode c0ControlSet h).

Fixpoint decimalValue (acc : nat) (s : string) : nat :=
  match s with
  | EmptyString => acc
  | String c s' => decimalValue (10 * acc + (code c - 48)) s'
  end.

Definition natToString (n : nat) : string :=
  DecimalString.NilZero.string_of_uint (Nat.to_uint n).

(** [Some None]: no port to show; [Some (Some p)]: port [p]; [None]: failure. *)
Definition parsePort (scheme : string) (p : string) : option (option nat) :=
  if negb (forallS isAsciiDigit p) then None
  else if String.eqb p "" then Some None
  else
    let n := decimalValue 0 (dropWhileS (isChar "0") p) in
    if Nat.ltb 5 (String.length (dropWhileS (isChar "0") p)) || Nat.leb (256 * 256) n then None
    else if match defaultPort scheme with Some d => Nat.eqb d n | None => false end
    then Some None
    else Some (Some n).

(** The text after the last [@] of the authority. *)
Definition afterCredentials (authority : string) : string :=
  match rev (splitOn (isChar "@") authority) with
  | hostport :: _ => hostport
  | [] => authority
  end.

Definition parseAuthority (special : bool) (scheme authority : string)
  : option string :=
  let hostport := afterCredentials authority in
  let '(h, portPart) := breakS (isChar ":") hostport in
  let port := match portPart with
              | String _ p => parsePort scheme p
              | EmptyString => Some None
              end in
  let hostMissing :=
    String.eqb h ""
    && (negb (String.eqb portPart "") || negb (String.eqb hostport authority)) in
  if hostMissing then None
  else
    match (if special then parseDomain h else parseOpaqueHost h), port with
    | HostOk h', Some None => Some h'
    | HostOk h', Some (Some n) => Some (h' +:+ ":" +:+ natToString n)
    | _, _ => None
    end.

(** *** Path *)

Definition isSingleDot (seg : string) : bool :=
  existsb (String.eqb (mapS asciiLower seg)) ["."; "%2e"].

Definition isDoubleDot (seg : string) : bool :=
  existsb (String.eqb (mapS asciiLower seg)) [".."; ".%2e"; "%2e."; "%2e%2e"].

Fixpoint pathSegments (segs : list string) (path : list string) : list string :=
  match segs with
  | [] => path
  | seg :: rest =>
      let isLast := match rest with [] => true | _ :: _ => false end in
      let path' :=
        if isDoubleDot seg then
          let shortened := removelast path in
          if isLast then (shortened ++ [EmptyString])%list else shortened
        else if isSingleDot seg then
          if isLast then (path ++ [EmptyString])%list else path
        else (path ++ [percentEncode pathSet seg])%list in
      pathSegments rest path'
  end.

Definition serializePath (path : list string) : string :=
  fold_right (fun seg acc => "/" +:+ seg +:+ acc) EmptyString path.

(** The path of a hierarchical URL; [pathText] starts with a slash, or is
    empty. *)
Definition parsePath (special : bool) (pathText : string) : string :=
  let isSlash c := isChar "/" c || (special && isChar "\" c) in
  match pathText with
  | EmptyString => if special then "/" else EmptyString
  | String _ afterSlash =>
      serializePath (pathSegments (splitOn isSlash afterSlash) [])
  end.

(** *** Query and fragment *)

Fixpoint percentDecode (s : string) : list nat :=
  match s with
  | EmptyString => []
  | String c s' =>
      match s' with
      | String h (String l rest) =>
          if isChar "%" c && isAsciiHexDigit h && isAsciiHexDigit l
          then (16 * hexValue h + hexValue l) :: percentDecode rest
          else code c :: percentDecode s'
      | _ => code c :: percentDecode s'
      end
  end.

(** UTF-8 decoding, defined on the byte sequences of code points up to
    U+00FF. *)
Fixpoint utf8Decode (bs : list nat) : option string :=
  match bs with
  | [] => Some EmptyString
  | b :: rest =>
      if Nat.ltb b 128 then option_map (String (ascii_of_nat b)) (utf8Decode rest)
      else if between 194 195 b then
        match rest with
        | c :: rest' =>
            if between 128 191 c
            then option_map (String (ascii_of_nat ((b - 192) * 64 + (c - 128))))
                            (utf8Decode rest')
            else None
        | [] => None
        end
      else None
  end.

Definition formDecode (s : string) : option string :=
  utf8Decode (percentDecode (mapS (fun c => if isChar "+" c then " "%char else c) s)).

Fixpoint formPairs (seqs : list string) : option (list (string * string)) :=
  match seqs with
  | [] => Some []
  | EmptyString :: rest => formPairs rest
  | seq :: rest =>
      let '(name, value) := breakS (isChar "=") seq in
      let value := match value with String _ v => v | EmptyString => EmptyString end in
      match formDecode name, formDecode value, formPairs rest with
      | Some n, Some v, Some ps => Some ((n, v) :: ps)
      | _, _, _ => None
      end
  end.

(** The application/x-www-form-urlencoded parser. *)
Definition parseQuery (query : string) : option (list (string * string)) :=
  formPairs (splitOn (isChar "&") query).

(** [rest] starts with [?] or [#], or is empty. *)
Definition parseQueryAndFragment (special : bool) (rest : string)
  : option (list (string * string) * string) :=
  let '(q, f) := breakS (isChar "#") rest in
  let query := match q with
               | String _ q' =>
                   percentEncode (if special then specialQuerySet else querySet) q'
               | EmptyString => EmptyString
               end in
  let fragment := match f with
                  | String _ f' => percentEncode fragmentSet f'
                  | EmptyString => EmptyString
                  end in
  match parseQuery query with
  | Some params =>
      Some (params, if String.eqb fragment "" then EmptyString else "#" +:+ fragment)
  | None => None
  end.

(** *** The parser *)

Definition hierarchical (special : bool) (scheme afterSlashes : string)
  : option URL :=
  let isEnd c := isChar "/" c || isChar "?" c || isChar "#" c || (special && isChar "\" c) in
  let '(authority, rest) := breakS isEnd afterSlashes in
  let '(pathText, tail) := breakS (fun c => isChar "?" c || isChar "#" c) rest in
  match parseAuthority special scheme authority, parseQueryAndFragment special tail with
  | Some h, Some (params, frag) =>
      Some (mkURL (scheme +:+ ":") h (parsePath special pathText) params frag)
  | _, _ => None
  end.

Definition noAuthority (scheme rest : string) (opaque : bool) : option URL :=
  let '(pathText, tail) := breakS (fun c => isChar "?" c || isChar "#" c) rest in
  match parseQueryAndFragment false tail with
  | Some (params, frag) =>
      Some (mkURL (scheme +:+ ":") EmptyString
                  (if opaque then percentEncode c0ControlSet pathText
                   else parsePath false pathText)
                  params frag)
  | None => None
  end.

Definition parse (input : string) : option URL :=
  let s := filterS (fun c => negb (isTabOrNewline c))
             (dropWhileEndS isC0ControlOrSpace (dropWhileS isC0ControlOrSpace input)) in
  match parseScheme s with
  | None => None
  | Some (scheme, rest) =>
      if String.eqb scheme "file" then None
      else if isSpecial scheme then
        hierarchical true scheme
          (dropWhileS (fun c => isChar "/" c || isChar "\" c) rest)
      else if startsWith rest "//" then
        hierarchical false scheme (String.substring 2 (String.length rest) rest)
      else if startsWith rest "/" then noAuthority scheme rest false
      else noAuthority scheme rest true
  end.

End WhatwgURL.

Definition node_URL : string -> option URL := WhatwgURL.parse.

(** ** JSON text of the persisted store

    [JSON.parse] and [JSON.stringify] on the values that occur in the store
    file: numbers are integers written in decimal, as [JSON.stringify]
    prints counters and timestamps; fractions, exponents and [\u] escapes
    are not modelled and are answered like a syntax error. *)

Module JSON.

#[warning="-register-all"]
Inductive value :=
| Null
| Bool (b : bool)
| Number (z : Z)
| Str (s : string)
| Array (items : list value)
| Object (members : list (string * value)).

Definition syntaxError : JsError :=
  mkJsError ErrorClass_SyntaxError "Unexpected token in JSON".

Definition isWs (c : ascii) : bool :=
  existsb (Nat.eqb (code c)) [32; 9; 10; 13].

Fixpoint skipWs (s : string) : string :=
  match s with
  | String c s' => if isWs c then skipWs s' else s
  | EmptyString => EmptyString
  end.

Definition isDigit (c : ascii) : bool := Nat.leb 48 (code c) && Nat.leb (code c) 57.

Fixpoint digitsOf (s : string) : string * string :=
  match s with
  | String c s' =>
      if isDigit c then let '(d, r) := digitsOf s' in (String c d, r)
      else (EmptyString, s)
  | EmptyString => (EmptyString, EmptyString)
  end.

Fixpoint decimal (acc : Z) (s : string) : Z :=
  match s with
  | EmptyString => acc
  | String c s' => decimal (10 * acc + Z.of_nat (code c - 48)) s'
  end.

Definition startsFraction (s : string) : bool :=
  match s with
  | String c _ => existsb (Ascii.eqb c) ["."; "e"; "E"]%char
  | EmptyString => false
  end.

(** An optional minus sign, then [0] or digits that do not start with [0]. *)
Definition number (s : string) : option (Z * string) :=
  let '(neg, s1) := match s with
                    | String "-" r => (true, r)
                    | _ => (false, s)
                    end in
  let '(ds, rest) := digitsOf s1 in
  match ds with
  | EmptyString => None
  | String "0" (String _ _) => None
  | _ =>
      if startsFraction rest then None
      else Some (if neg then (- decimal 0 ds)%Z else decimal 0 ds, rest)
  end.

(** The quotation mark, U+0022. *)
Definition dquote : ascii := ascii_of_nat 34.

Definition unescape (c : ascii) : option ascii :=
  if Ascii.eqb c dquote then Some dquote
  else if Ascii.eqb c "\" then Some "\"%char
  else if Ascii.eqb c "/" then Some "/"%char
  else if Ascii.eqb c "b" then Some (ascii_of_nat 8)
  else if Ascii.eqb c "f" then Some (ascii_of_nat 12)
  else if Ascii.eqb c "n" then Some (ascii_of_nat 10)
  else if Ascii.eqb c "r" then Some (ascii_of_nat 13)
  else if Ascii.eqb c "t" then Some (ascii_of_nat 9)
  else None.

(** The characters of a string literal after its opening quote. *)
Fixpoint stringBody (s : string) : option (string * string) :=
  match s with
  | EmptyString => None
  | String c s' =>
      if Ascii.eqb c dquote then Some (EmptyString, s')
      else if Ascii.eqb c "\" then
        match s' with
        | String e s'' =>
            match unescape e, stringBody s'' with
            | Some a, Some (body, rest) => Some (String a body, rest)
            | _, _ => None
            end
        | EmptyString => None
        end
      else if Nat.ltb (code c) 32 then None
      else match stringBody s' with
           | Some (body, rest) => Some (String c body, rest)
           | None => None
           end
  end.

Fixpoint parseValue (fuel : nat) (s : string) : option (value * string) :=
  match fuel with
  | O => None
  | S fuel' =>
      match skipWs s with
      | EmptyString => None
      | String c r as s1 =>
          if Ascii.eqb c "{" then
            match skipWs r with
            | String "}" r' => Some (Object [], r')
            | _ => parseMembers fuel' r []
            end
          else if Ascii.eqb c "[" then
            match skipWs r with
            | String "]" r' => Some (Array [], r')
            | _ => parseItems fuel' r []
            end
          else if Ascii.eqb c dquote then
            match stringBody r with
            | Some (str, r') => Some (Str str, r')
            | None => None
            end
          else if startsWith s1 "null" then Some (Null, String.substring 4 (String.length s1) s1)
          else if startsWith s1 "true" then Some (Bool true, String.substring 4 (String.length s1) s1)
          else if startsWith s1 "false" then Some (Bool false, String.substring 5 (String.length s1) s1)
          else match number s1 with
               | Some (z, r') => Some (Number z, r')
               | None => None
               end
      end
  end
with parseItems (fuel : nat) (s : string) (acc : list value) : option (value * string) :=
  match fuel with
  | O => None
  | S fuel' =>
      match parseValue fuel' s with
      | Some (v, r) =>
          match skipWs r with
          | String "," r' => parseItems fuel' r' (acc ++ [v])%list
          | String "]" r' => Some (Array (acc ++ [v])%list, r')
          | _ => None
          end
      | None => None
      end
  end
with parseMembers (fuel : nat) (s : string) (acc : list (string * value))
     : option (value * string) :=
  match fuel with
  | O => None
  | S fuel' =>
      match skipWs s with
      | String q r =>
          match (if Ascii.eqb q dquote then stringBody r else None) with
          | Some (key, r1) =>
              match skipWs r1 with
              | String ":" r2 =>
                  match parseValue fuel' r2 with
                  | Some (v, r3) =>
                      match skipWs r3 with
                      | String "," r4 => parseMembers fuel' r4 (acc ++ [(key, v)])%list
                      | String "}" r4 => Some (Object (acc ++ [(key, v)])%list, r4)
                      | _ => None
                      end
                  | None => None
                  end
              | _ => None
              end
          | None => None
          end
      | EmptyString => None
      end
  end.

(** [JSON.parse(text)] *)
Definition parse (text : string) : completion value :=
  match parseValue (2 * String.length text + 2) text with
  | Some (v, rest) =>
      match skipWs rest with
      | EmptyString => Return v
      | _ => Throw syntaxError
      end
  | None => Throw syntaxError
  end.

Definition ofZ (z : Z) : string :=
  DecimalString.NilZero.string_of_int (Z.to_int z).

(** A hexadecimal digit of a [\u] escape, in lower case. *)
Definition hexLower (n : nat) : ascii :=
  if Nat.ltb n 10 then ascii_of_nat (48 + n) else ascii_of_nat (87 + n).

Definition quoteChar (c : ascii) : string :=
  if Ascii.eqb c dquote then String "\" (String dquote EmptyString)
  else if Ascii.eqb c "\" then "\\"
  else if Nat.eqb (code c) 8 then "\b"
  else if Nat.eqb (code c) 12 then "\f"
  else if Nat.eqb (code c) 10 then "\n"
  else if Nat.eqb (code c) 13 then "\r"
  else if Nat.eqb (code c) 9 then "\t"
  else if Nat.ltb (code c) 32
  then "\u00" +:+ String (hexLower (code c / 16))
                    (String (hexLower (code c mod 16)) EmptyString)
  else String c EmptyString.

Fixpoint quoteBody (s : string) : string :=
  match s with
  | EmptyString => EmptyString
  | String c s' => quoteChar c +:+ quoteBody s'
  end.

Definition quote (s : string) : string :=
  String dquote (quoteBody s +:+ String dquote EmptyString).

Fixpoint stringify (v : value) : string :=
  match v with
  | Null => "null"
  | Bool true => "true"
  | Bool false => "false"
  | Number z => ofZ z
  | Str s => quote s
  | Array items =>
      "[" +:+ (fix go (l : list value) : string :=
                 match l with
                 | [] => EmptyString
                 | [x] => stringify x
                 | x :: rest => stringify x +:+ "," +:+ go rest
                 end) items +:+ "]"
  | Object members =>
      "{" +:+ (fix go (l : list (string * value)) : string :=
                 match l with
                 | [] => EmptyString
                 | [(k, x)] => quote k +:+ ":" +:+ stringify x
                 | (k, x) :: rest => quote k +:+ ":" +:+ stringify x +:+ "," +:+ go rest
                 end) members +:+ "}"
  end.

End JSON.

(** ** The persistent rate limiter ([lib/rate-limiter.ts]) *)

Record RateLimitData := mkData { count : Z; resetTime : Z }.

(** The object that [check] returns; [resetTime] is absent when the call is
    allowed. *)
Module Result.
Record t := mk { allowed : bool; resetTime : option Z }.
End Result.

(** *** The file system

    The files by path, and whether writing succeeds.  Directories are not
    kept: [mkdir] with [recursive] creates what is missing. *)

Record Disk := mkDisk { files : gmap string string; writable : bool }.

Definition existsSync (disk : Disk) (path : string) : bool :=
  match files disk !! path with Some _ => true | None => false end.

(** [writeFile(path, text)]; [None] when the promise is rejected. *)
Definition writeFile (disk : Disk) (path text : string) : option Disk :=
  if writable disk then Some (mkDisk (<[path := text]> (files disk)) true)
  else None.

(** A promise, with the value it is going to be fulfilled with. *)
Inductive Promise (A : Type) := Pending (eventually : A).
Arguments Pending {A} eventually.

(** [readFile] of [node:fs/promises] returns a promise of the text. *)
Definition readFile (disk : Disk) (path : string) : Promise (option string) :=
  Pending (files disk !! path).

(** [p.toString()] on a promise is [Object.prototype.toString]. *)
Definition Promise_toString {A : Type} (p : Promise A) : string :=
  "[object Promise]".

(** *** The limiter

    [store] holds the own properties of the object used as a map from
    client identifier to entry; a lookup by name also finds what the object
    inherits, see [member]. *)

Record RateLimiter := mkRateLimiter {
  dbPath : string;
  window : Z;
  max : Z;
  store : gmap string RateLimitData;
  lastSave : Z
}.

Definition saveDebounce : Z := 5000.

Definition setStore (rl : RateLimiter) (s : gmap string RateLimitData) : RateLimiter :=
  mkRateLimiter (dbPath rl) (window rl) (max rl) s (lastSave rl).

Definition setLastSave (rl : RateLimiter) (t : Z) : RateLimiter :=
  mkRateLimiter (dbPath rl) (window rl) (max rl) (store rl) t.

(** The limiter and the disk it writes to. *)
Definition World : Type := RateLimiter * Disk.

Definition dataToJson (d : RateLimitData) : JSON.value :=
  JSON.Object [("count", JSON.Number (count d)); ("resetTime", JSON.Number (resetTime d))].

(** The store as the value that [JSON.stringify] walks.  The members come
    in the order in which the map enumerates its keys; [JSON.stringify]
    lists the keys that are array indices in ascending order and then the
    others in the order of their creation, so that its text holds the same
    members, possibly in another order.  The text is never read back, see
    [load]. *)
Definition storeToJson (s : gmap string RateLimitData) : JSON.value :=
  JSON.Object (List.map (fun kv => (fst kv, dataToJson (snd kv))) (map_to_list s)).

Definition memberNumber (name : string) (members : list (string * JSON.value))
  : option Z :=
  match find (fun kv => String.eqb (fst kv) name) (rev members) with
  | Some (_, JSON.Number z) => Some z
  | _ => None
  end.

Definition dataOfJson (v : JSON.value) : option RateLimitData :=
  match v with
  | JSON.Object members =>
      match memberNumber "count" members, memberNumber "resetTime" members with
      | Some c, Some r => Some (mkData c r)
      | _, _ => None
      end
  | _ => None
  end.

(** The entries of a parsed store file: the members of the top-level object
    that have a numeric [count] and [resetTime]. *)
Definition storeOfJson (v : JSON.value) : gmap string RateLimitData :=
  match v with
  | JSON.Object members =>
      fold_left (fun s kv =>
                   match dataOfJson (snd kv) with
                   | Some d => <[fst kv := d]> s
                   | None => s
                   end)
                members ∅
  | _ => ∅
  end.

(** [load()] *)
Definition load (disk : Disk) (rl : RateLimiter) : RateLimiter :=
  if existsSync disk (dbPath rl) then
    let data := readFile disk (dbPath rl) in
    match JSON.parse (Promise_toString data) with
    | Return v => setStore rl (storeOfJson v)
    | Throw _ => setStore rl ∅
    end
  else rl.

(** [save()], with the write carried out at once and a failed write
    swallowed.  The text written is that of the store at the time of the
    call, as it is in the code when the directory of the file is there;
    where the code first has to create the directory, it serialises the
    store once that is done. *)
Definition save (now : Z) (w : World) : World :=
  let '(rl, disk) := w in
  if (now - lastSave rl <? saveDebounce)%Z then w
  else
    let rl' := setLastSave rl now in
    match writeFile disk (dbPath rl) (JSON.stringify (storeToJson (store rl))) with
    | Some disk' => (rl', disk')
    | None => (rl', disk)
    end.

(** [new RateLimiter(dbPath, window, max)]; the two timers it starts fire
    [save] and [cleanup] later. *)
Definition new_RateLimiter (disk : Disk) (dbPath : string) (window max : Z)
  : RateLimiter :=
  load disk (mkRateLimiter dbPath window max ∅ 0).

(** [cleanup()] *)
Definition cleanup (now : Z) (w : World) : World :=
  let '(rl, disk) := w in
  let modified :=
    existsb (fun kv => (now >=? resetTime (snd kv))%Z) (map_to_list (store rl)) in
  let rl' := setStore rl (filter (fun kv => ¬ (resetTime (snd kv) <= now)%Z) (store rl)) in
  if modified then save now (rl', disk) else (rl', disk).

(** The names under which a plain object finds a member of
    [Object.prototype]; each of these members is an object or a function,
    hence truthy, and has neither a [count] nor a [resetTime] that is a
    number. *)
Definition inheritedKeys : list string :=
  [ "constructor"; "__defineGetter__"; "__defineSetter__"; "hasOwnProperty";
    "__lookupGetter__"; "__lookupSetter__"; "isPrototypeOf";
    "propertyIsEnumerable"; "toString"; "valueOf"; "__proto__"; "toLocaleString" ].

Definition isInherited (key : string) : bool := arrayIncludes inheritedKeys key.

(** [this.store[clientId]]: the entry that the store owns under that name,
    else the member that it inherits, else [undefined]. *)
Inductive Member :=
| Own (entry : RateLimitData)
| Inherited
| Undefined.

Definition member (s : gmap string RateLimitData) (clientId : string) : Member :=
  match s !! clientId with
  | Some entry => Own entry
  | None => if isInherited clientId then Inherited else Undefined
  end.

(** [check(clientId)], with [now] the value of [Date.now()].  On an
    inherited member both comparisons are with [undefined] and fail, and
    [entry.count++] writes to that member, not to the store. *)
Definition check (clientId : string) (now : Z) (w : World) : Result.t * World :=
  let '(rl, disk) := w in
  let rl :=
    match member (store rl) clientId with
    | Own existing =>
        if (now >=? resetTime existing)%Z then setStore rl (delete clientId (store rl))
        else rl
    | Inherited | Undefined => rl
    end in
  match member (store rl) clientId with
  | Undefined =>
      let rl := setStore rl (<[clientId := mkData 1 (now + window rl)]> (store rl)) in
      (Result.mk true None, save now (rl, disk))
  | Own entry =>
      if (count entry >=? max rl)%Z then
        (Result.mk false (Some (resetTime entry)), (rl, disk))
      else
        let rl := setStore rl (<[clientId := mkData (count entry + 1) (resetTime entry)]>
                                 (store rl)) in
        (Result.mk true None, save now (rl, disk))
  | Inherited => (Result.mk true None, save now (rl, disk))
  end.

(** [reset(clientId)] *)
Definition reset (clientId : string) (now : Z) (w : World) : World :=
  let '(rl, disk) := w in
  save now (setStore rl (delete clientId (store rl)), disk).

(** [getStatus(clientId)], for an identifier that names no inherited
    member; for such a name the code answers an object whose [count] and
    [resetTime] are not numbers. *)
Definition getStatus (clientId : string) (rl : RateLimiter) : option RateLimitData :=
  match store rl !! clientId with
  | None => None
  | Some entry => Some (mkData (count entry) (resetTime entry))
  end.

(** [close()] *)
Definition close (now : Z) (w : World) : World := save now w.

(** Successive [check] calls of one client at the given times, with the
    results in call order. *)
Fixpoint checks (clientId : string) (times : list Z) (w : World)
  : list Result.t * World :=
  match times with
  | [] => ([], w)
  | now :: rest =>
      let '(r, w1) := check clientId now w in
      let '(rs, w2) := checks clientId rest w1 in
      (r :: rs, w2)
  end.

(** ** The in-memory fallback limiter ([middleware/security.ts]) *)

Record EnvConfig := mkConfig { rateLimitMax : Z; rateLimitWindow : Z }.

(** [checkRateLimitFallback(clientId)] over the module's [requestCounts]
    map. *)
Definition checkRateLimitFallback (config : EnvConfig) (clientId : string) (now : Z)
           (requestCounts : gmap string RateLimitData)
  : Result.t * gmap string RateLimitData :=
  let fresh :=
    (Result.mk true None,
     <[clientId := mkData 1 (now + rateLimitWindow config)]> requestCounts) in
  match requestCounts !! clientId with
  | None => fresh
  | Some clientData =>
      if (now >? resetTime clientData)%Z then fresh
      else if (count clientData >=? rateLimitMax config)%Z then
        (Result.mk false (Some (resetTime clientData)), requestCounts)
      else
        (Result.mk true None,
         <[clientId := mkData (count clientData + 1) (resetTime clientData)]> requestCounts)
  end.

(** [cleanupRateLimit()] *)
Definition cleanupRateLimit (now : Z) (requestCounts : gmap string RateLimitData)
  : gmap string RateLimitData :=
  filter (fun kv => ¬ (now > resetTime (snd kv))%Z) requestCounts.

Fixpoint fallbackChecks (config : EnvConfig) (clientId : string) (times : list Z)
         (requestCounts : gmap string RateLimitData)
  : list Result.t * gmap string RateLimitData :=
  match times with
  | [] => ([], requestCounts)
  | now :: rest =>
      let '(r, m1) := checkRateLimitFallback config clientId now requestCounts in
      let '(rs, m2) := fallbackChecks config clientId rest m1 in
      (r :: rs, m2)
  end.

(** ** Client identifiers ([middleware/security.ts]) *)

(** 32-bit integers as the bitwise operators see them. *)
Module Int32.

(** ToInt32: the value modulo 2^32, taken between -2^31 and 2^31 - 1. *)
Definition wrap (z : Z) : Z := ((z + 2 ^ 31) mod 2 ^ 32 - 2 ^ 31)%Z.

(** [a << n], for a shift count between 0 and 31. *)
Definition shl (a n : Z) : Z := wrap (Z.shiftl (wrap a) n).

(** [a & b] *)
Definition and (a b : Z) : Z := wrap (Z.land (wrap a) (wrap b)).

End Int32.

(** [n.toString(radix)] for an integer [n]: the digits, lowest first, put
    in front of what has been produced. *)
Definition digitChar (d : Z) : ascii :=
  if (d <? 10)%Z then ascii_of_nat (48 + Z.to_nat d) else ascii_of_nat (87 + Z.to_nat d).

Fixpoint digitsRadix (radix : Z) (fuel : nat) (n : Z) (acc : string) : string :=
  match fuel with
  | O => acc
  | S fuel' =>
      let acc' := String (digitChar (n mod radix)) acc in
      if (n / radix =? 0)%Z then acc' else digitsRadix radix fuel' (n / radix) acc'
  end.

Definition toStringRadix (radix n : Z) : string :=
  (if (n <? 0)%Z then "-" else "")
  +:+ digitsRadix radix (S (Z.to_nat (Z.log2 (Z.abs n)))) (Z.abs n) EmptyString.

(** One turn of the loop of [hashString]. *)
Definition hashStep (hash : Z) (char : ascii) : Z :=
  let hash := (Int32.shl hash 5 - hash + Z.of_nat (code char))%Z in
  Int32.and hash hash.

Fixpoint hashLoop (hash : Z) (str : string) : Z :=
  match str with
  | EmptyString => hash
  | String char rest => hashLoop (hashStep hash char) rest
  end.

(** [hashString(str)] *)
Definition hashString (str : string) : string :=
  toStringRadix 16 (Z.abs (hashLoop 0 str)).

(** The request headers that the middleware and the endpoint read;
    [headers.get] answers [null] for a header that is absent. *)
Record Headers := mkHeaders {
  xForwardedFor : option string;
  xRealIp : option string;
  cfConnectingIp : option string;
  userAgent : option string;
  contentLength : option string
}.

(** A header value that is neither [null] nor the empty string. *)
Definition present (value : option string) : option string :=
  match value with
  | Some (String c s) => Some (String c s)
  | _ => None
  end.

(** [s.split(",")[0]] *)
Definition firstField (s : string) : string :=
  hd EmptyString (WhatwgURL.splitOn (WhatwgURL.isChar ",") s).

(** [getClientId(request)] *)
Definition getClientId (headers : Headers) : string :=
  let forwarded := xForwardedFor headers in
  let realIp := xRealIp headers in
  let cfConnectingIp := cfConnectingIp headers in
  let ip := match present realIp with
            | Some v => v
            | None => match present cfConnectingIp with
                      | Some v => v
                      | None => "unknown"
                      end
            end in
  let ip := match present forwarded with
            | Some f => trim (firstField f)
            | None => ip
            end in
  hashString ip.

(** ** Environment configuration ([config/env.ts]) *)

(** [parseInt(inputString, 10)]: white space is skipped, a sign is read, and
    the longest run of decimal digits that follows gives the value; [None]
    stands for NaN.  The Number that JavaScript returns is this integer
    rounded to a double: the two are equal below 2^53, and they compare
    alike with every integer below 2^53. *)
Fixpoint leadingDigits (s : string) (acc : option Z) : option Z :=
  match s with
  | String c rest =>
      if JSON.isDigit c
      then leadingDigits rest (Some (10 * default 0 acc + Z.of_nat (code c - 48))%Z)
      else acc
  | EmptyString => acc
  end.

Definition parseInt (inputString : string) : option Z :=
  let s := trimStart inputString in
  let '(sign, s) :=
    match s with
    | String c rest =>
        if Ascii.eqb c "-" then ((-1)%Z, rest)
        else if Ascii.eqb c "+" then (1%Z, rest)
        else (1%Z, s)
    | EmptyString => (1%Z, s)
    end in
  option_map (Z.mul sign) (leadingDigits s None).

(** [getNumber(key, defaultValue)] of [parseEnv], over the variables of
    [import.meta.env] that are set. *)
Definition getNumber (env : gmap string string) (key : string) (defaultValue : Z) : Z :=
  match env !! key with
  | None => defaultValue
  | Some value =>
      match parseInt value with
      | None => defaultValue
      | Some parsed => parsed
      end
  end.

(** [parseEnv()], for the two settings that the limiters read. *)
Definition parseEnv (env : gmap string string) : EnvConfig :=
  mkConfig (getNumber env "PUBLIC_RATE_LIMIT_MAX" 10)
           (getNumber env "PUBLIC_RATE_LIMIT_WINDOW" 60000).

(** ** Request validation of the middleware ([middleware/security.ts]) *)

(** [parts.join(sep)] *)
Fixpoint join (sep : string) (parts : list string) : string :=
  match parts with
  | [] => EmptyString
  | [part] => part
  | part :: rest => part +:+ sep +:+ join sep rest
  end.

(** The object that [validateDownloadRequest] returns. *)
Module Verdict.
Record t := mk {
  valid : bool;
  error : option string;
  platform : option SupportedPlatform
}.
End Verdict.

Definition suspiciousPatterns : list RegExp.t :=
  [Patterns.ci "bot"; Patterns.ci "crawler"; Patterns.ci "spider"; Patterns.ci "scraper"].

Section Middleware.

Variable new_URL : string -> option URL.

(** [import.meta.env.DEV] *)
Variable DEV : bool.

(** [validateDownloadRequest(url, userAgent)], with the user agents that
    [console.warn] reports. *)
Definition validateDownloadRequest (url : string) (userAgent : option string)
  : Verdict.t * list string :=
  let validation := validate new_URL url in
  if negb (isValid validation) then
    (Verdict.mk false (Some (join ", " (errors validation))) None, [])
  else
    let warned :=
      match present userAgent with
      | Some userAgent =>
          if existsb (fun pattern => RegExp.test pattern userAgent) suspiciousPatterns
          then (if DEV then [userAgent] else [])
          else []
      | None => []
      end in
    (Verdict.mk true None (platform validation), warned).

End Middleware.

(** ** The checks of the page before it calls the endpoint
       ([components/DownloaderApp.tsx])

    The first lines of [handleDownload], with the message that [setError]
    receives when nothing is sent. *)
Definition handleDownload_guard (url : string) : option string :=
  if String.eqb (trim url) "" then Some "Please enter a valid URL"
  else
    match detectPlatform url with
    | None =>
        Some "Unsupported platform. Please enter Instagram, X (Twitter), or TikTok URL"
    | Some _ => None
    end.

(** ** The download endpoint ([pages/api/download.ts]) *)

Definition MAX_BODY_SIZE : Z := 10 * 1024.

(** The reply of the extraction service, with the shape that the interface
    [RustExtractResponse] declares; [formats] that are missing behave like
    an empty array, [formats?.length] being falsy for both. *)
Module RustFormat.
Record t := mk {
  quality : string;
  url : string;
  ext : string;
  filesize : option Z
}.
End RustFormat.

Module RustExtractResponse.
Record t := mk {
  success : bool;
  platform : string;
  title : string;
  thumbnail : option string;
  formats : list RustFormat.t;
  error : option string
}.
End RustExtractResponse.

Module DownloadResult.
Record t := mk {
  id : string;
  type : string;
  url : string;
  thumbnail : option string;
  downloadUrl : string;
  title : string;
  size : string;
  platform : string;
  quality : string;
  isMock : bool
}.
End DownloadResult.

(** [(num / den).toFixed(1)] for [0 <= num] and a power of two [den] with
    [num] below 2^53, so that the quotient is exact: the nearest multiple of
    one tenth, the larger one on a tie. *)
Definition toFixed1 (num den : Z) : string :=
  let n := ((2 * 10 * num + den) / (2 * den))%Z in
  toStringRadix 10 (n / 10) +:+ "." +:+ String (digitChar (n mod 10)) EmptyString.

(** [formatFileSize(bytes)], for a whole number of bytes. *)
Definition formatFileSize (bytes : Z) : string :=
  if (bytes <? 1024)%Z then toStringRadix 10 bytes +:+ " B"
  else if (bytes <? 1024 * 1024)%Z then toFixed1 bytes 1024 +:+ " KB"
  else toFixed1 bytes (1024 * 1024) +:+ " MB".

(** [parseQuality(quality)] *)
Definition parseQuality (quality : string) : string :=
  let q := toLowerCase quality in
  if includes q "1080" || includes q "720" || String.eqb q "best" || String.eqb q "hd"
  then "hd"
  else if includes q "audio" then "audio"
  else "sd".

(** [encodeURIComponent]: UTF-8 encode, keep the ASCII alphanumerics and
    [-_.!~*'()], percent-encode every other byte. *)
Definition isUriUnreserved (n : nat) : bool :=
  (Nat.leb 48 n && Nat.leb n 57)
  || (Nat.leb 65 n && Nat.leb n 90)
  || (Nat.leb 97 n && Nat.leb n 122)
  || existsb (Nat.eqb n) [45; 95; 46; 33; 126; 42; 39; 40; 41].

Definition encodeUriByte (n : nat) : string :=
  if isUriUnreserved n then String (ascii_of_nat n) EmptyString
  else FormUrlencoded.percentByte n.

Fixpoint encodeURIComponent (s : string) : string :=
  match s with
  | EmptyString => EmptyString
  | String c s' =>
      fold_right (fun b acc => encodeUriByte b +:+ acc) (encodeURIComponent s')
                 (FormUrlencoded.utf8 c)
  end.

(** [transformRustResponse(rustResponse, originalUrl)]; [now index] is what
    [Date.now()] answers when the format at [index] is transformed. *)
Definition transformRustResponse (RUST_API_URL : string) (now : nat -> Z)
           (rustResponse : RustExtractResponse.t) (originalUrl : string)
  : list DownloadResult.t :=
  let platform := RustExtractResponse.platform rustResponse in
  imap
    (fun index format =>
       let downloadUrl :=
         RUST_API_URL +:+ "/api/download?url=" +:+ encodeURIComponent originalUrl in
       DownloadResult.mk
         (platform +:+ "-" +:+ toStringRadix 10 (now index) +:+ "-"
          +:+ toStringRadix 10 (Z.of_nat index))
         "video"
         originalUrl
         (RustExtractResponse.thumbnail rustResponse)
         downloadUrl
         (RustExtractResponse.title rustResponse)
         (match RustFormat.filesize format with
          | Some bytes => if (bytes =? 0)%Z then "Unknown" else formatFileSize bytes
          | None => "Unknown"
          end)
         platform
         (parseQuality (RustFormat.quality format))
         false)
    (RustExtractResponse.formats rustResponse).

(** The request, as far as the handler reads it: the headers, and what
    [request.json()] settles to. *)
Module Request.
Record t := mk { headers : Headers; json : completion JSON.value }.
End Request.

(** What [fetch] resolves to: the status, and what [json()] settles to. *)
Module Reply.
Record t := mk { status : Z; json : completion RustExtractResponse.t }.

(** [response.ok] *)
Definition ok (response : t) : bool :=
  (200 <=? status response)%Z && (status response <=? 299)%Z.
End Reply.

(** The object that is serialised into the body of a response. *)
Module Body.
Inductive t :=
| Failure (error : string) (received : option string) (platform : option string)
| Success (results : list DownloadResult.t) (platform : string).
End Body.

Module Response.
Record t := mk { status : Z; headers : list (string * string); body : Body.t }.
End Response.

(** [headers[name]] of a response *)
Definition header (name : string) (response : Response.t) : option string :=
  option_map snd (find (fun kv => String.eqb (fst kv) name) (Response.headers response)).

(** The two limiters of the module: [persistent] is the limiter, with its
    disk, that [getRateLimiter()] answers, [None] when the call throws;
    [requestCounts] is the map of the fallback. *)
Record Server := mkServer {
  persistent : option World;
  requestCounts : gmap string RateLimitData
}.

(** [checkRateLimit(clientId)] *)
Definition checkRateLimit (config : EnvConfig) (clientId : string) (now : Z)
           (server : Server) : Result.t * Server :=
  match persistent server with
  | Some w =>
      let '(result, w') := check clientId now w in
      (result, mkServer (Some w') (requestCounts server))
  | None =>
      let '(result, counts) :=
        checkRateLimitFallback config clientId now (requestCounts server) in
      (result, mkServer None counts)
  end.

(** [value.name] for a value that [JSON.parse] produced: a [TypeError] on
    [null], the last member of that name on an object, [undefined]
    elsewhere. *)
Definition getProperty (v : JSON.value) (name : string) : completion (option JSON.value) :=
  match v with
  | JSON.Null =>
      Throw (mkJsError ErrorClass_TypeError "Cannot destructure property of null")
  | JSON.Object members =>
      Return (option_map snd (find (fun kv => String.eqb (fst kv) name) (rev members)))
  | _ => Return None
  end.

(** Truthiness and [typeof] of a property that may be [undefined]. *)
Definition truthy (v : option JSON.value) : bool :=
  match v with
  | None | Some JSON.Null => false
  | Some (JSON.Bool b) => b
  | Some (JSON.Number z) => negb (z =? 0)%Z
  | Some (JSON.Str s) => negb (String.eqb s "")
  | Some (JSON.Array _) | Some (JSON.Object _) => true
  end.

Definition typeof (v : option JSON.value) : string :=
  match v with
  | None => "undefined"
  | Some (JSON.Bool _) => "boolean"
  | Some (JSON.Number _) => "number"
  | Some (JSON.Str _) => "string"
  | Some JSON.Null | Some (JSON.Array _) | Some (JSON.Object _) => "object"
  end.

(** [Math.ceil(a / b)] for integers [a] and [0 < b]. *)
Definition ceilDiv (a b : Z) : Z := (- ((- a) / b))%Z.

Definition jsonHeaders : list (string * string) :=
  [("Content-Type", "application/json")].

Definition failure (status : Z) (error : string) : Response.t :=
  Response.mk status jsonHeaders (Body.Failure error None None).

(** [new Response(body, { status })] with a body throws for a status
    outside 200..599 and for a status that allows no body (204, 205, 304);
    the catch clause of the handler reads the message of the error, which
    names no connection failure. *)
Definition statusTakesBody (status : Z) : bool :=
  (200 <=? status)%Z && (status <=? 599)%Z
  && negb (existsb (Z.eqb status) [204; 205; 304]%Z).

Definition statusError : JsError :=
  mkJsError ErrorClass_TypeError "Invalid response status code".

(** The response to a request that the limiter rejected; [now 1] and
    [now 2] are the first and the second reading of the clock that the
    branch takes. *)
Definition rateLimited (now : nat -> Z) (resetTime : option Z) : Response.t :=
  let resetInMinutes :=
    match resetTime with
    | Some t => if (t =? 0)%Z then ceilDiv (now 1 + 60000 - now 2) 60000
                else ceilDiv (t - now 1) 60000
    | None => ceilDiv (now 1 + 60000 - now 2) 60000
    end in
  Response.mk 429
    [ ("Content-Type", "application/json");
      ("X-RateLimit-Limit", "10");
      ("X-RateLimit-Remaining", "0");
      ("X-RateLimit-Reset",
       match resetTime with Some t => toStringRadix 10 t | None => EmptyString end);
      ("Retry-After", toStringRadix 10 resetInMinutes) ]
    (Body.Failure
       ("Rate limit exceeded. Please try again in " +:+ toStringRadix 10 resetInMinutes
        +:+ " minute" +:+ (if (resetInMinutes >? 1)%Z then "s" else "") +:+ ".")
       None None).

(** The [catch (error)] clause of the handler; [errorId] is the random
    token of the [X-Error-ID] header. *)
Definition unexpected (errorId : string) (error : JsError) : Response.t :=
  let isConnectionError :=
    instanceofError error
    && (includes (message error) "ECONNREFUSED" || includes (message error) "fetch failed") in
  Response.mk (if isConnectionError then 503 else 500)
    [("Content-Type", "application/json"); ("X-Error-ID", errorId)]
    (Body.Failure
       (if isConnectionError
        then "Download service unavailable. Please ensure the backend is running."
        else "An unexpected error occurred. Please try again later.")
       None None).

(** [contentLength && parseInt(contentLength, 10) > MAX_BODY_SIZE] *)
Definition tooLarge (contentLength : option string) : bool :=
  match present contentLength with
  | Some contentLength =>
      match parseInt contentLength with
      | Some n => (n >? MAX_BODY_SIZE)%Z
      | None => false
      end
  | None => false
  end.

Section Endpoint.

Variable new_URL : string -> option URL.
Variable DEV : bool.
Variable RUST_API_URL : string.
Variable config : EnvConfig.

(** [fetch(url, { method: "POST", body })]: the reply, or the error that
    the promise is rejected with. *)
Variable fetch : string -> string -> completion Reply.t.

(** The part of the handler that follows the validation of the URL. *)
Definition forward (now : nat -> Z) (errorId : string) (rateLimitCheck : Result.t)
           (url : string) : Response.t * option (string * string) :=
  let target := RUST_API_URL +:+ "/api/extract" in
  let sent := JSON.stringify (JSON.Object [("url", JSON.Str (trim url))]) in
  match fetch target sent with
  | Throw error => (unexpected errorId error, Some (target, sent))
  | Return rustResponse =>
      match Reply.json rustResponse with
      | Throw error => (unexpected errorId error, Some (target, sent))
      | Return rustData =>
          if negb (RustExtractResponse.success rustData)
             || Nat.eqb (List.length (RustExtractResponse.formats rustData)) 0
          then
            let status :=
              if Reply.ok rustResponse then 500%Z else Reply.status rustResponse in
            (if statusTakesBody status then
               Response.mk status jsonHeaders
                 (Body.Failure
                    (match present (RustExtractResponse.error rustData) with
                     | Some error => error
                     | None => "Failed to extract download links"
                     end)
                    None
                    (Some (RustExtractResponse.platform rustData)))
             else unexpected errorId statusError,
             Some (target, sent))
          else
            let results :=
              transformRustResponse RUST_API_URL (fun index => now (S index))
                                    rustData (trim url) in
            (Response.mk 200
               [ ("Content-Type", "application/json");
                 ("X-RateLimit-Limit", "10");
                 ("X-RateLimit-Reset",
                  match Result.resetTime rateLimitCheck with
                  | Some t => toStringRadix 10 t
                  | None => EmptyString
                  end) ]
               (Body.Success results (RustExtractResponse.platform rustData)),
             Some (target, sent))
      end
  end.

(** [POST({ request })]: the response, the limiters afterwards, and the
    call to the extraction service when one was made.  [now 0] is the time
    at which the limiter is consulted, [now 1] and [now 2] are the readings
    of the clock that follow a rejection, and [now (S index)] is the reading
    when the format at [index] is transformed. *)
Definition POST (now : nat -> Z) (errorId : string) (request : Request.t)
           (server : Server) : Response.t * Server * option (string * string) :=
  let clientId := getClientId (Request.headers request) in
  let contentLength := contentLength (Request.headers request) in
  if tooLarge contentLength then
    (failure 413 "Request body too large. Maximum size is 10KB.", server, None)
  else
    let '(rateLimitCheck, server) := checkRateLimit config clientId (now 0) server in
    if negb (Result.allowed rateLimitCheck) then
      (rateLimited now (Result.resetTime rateLimitCheck), server, None)
    else
      match Request.json request with
      | Throw _ => (failure 400 "Invalid JSON in request body", server, None)
      | Return requestBody =>
          match getProperty requestBody "url" with
          | Throw error => (unexpected errorId error, server, None)
          | Return (Some (JSON.Str (String c s))) =>
              let url := String c s in
              let validation :=
                fst (validateDownloadRequest new_URL DEV url
                       (present (userAgent (Request.headers request)))) in
              if negb (Verdict.valid validation) then
                (failure 400
                   (match present (Verdict.error validation) with
                    | Some error => error
                    | None => "Invalid request"
                    end),
                 server, None)
              else
                let '(response, call) := forward now errorId rateLimitCheck url in
                (response, server, call)
          | Return url =>
              (Response.mk 400 jsonHeaders
                 (Body.Failure
                    (if truthy url then "URL must be a string" else "URL is required")
                    (Some (typeof url)) None),
               server, None)
          end
      end.

End Endpoint.

(** *** The page's reading of the answer ([components/DownloaderApp.tsx])

    What [handleDownload] leaves on the page once the endpoint has answered:
    the message of [setError], or the list of [setResults]. *)
Inductive Shown :=
| ShownError (message : string)
| ShownResults (results : list DownloadResult.t).

Definition handleDownload_shown (response : Response.t) : Shown :=
  let ok := (200 <=? Response.status response)%Z && (Response.status response <=? 299)%Z in
  let data := Response.body response in
  if negb ok then
    ShownError
      (match data with
       | Body.Failure (String c message) _ _ => String c message
       | _ => "Failed to download content"
       end)
  else
    ShownResults
      (match data with
       | Body.Success results _ => results
       | Body.Failure _ _ _ => []
       end).

(** ** Notions used to state the properties *)

(** Every character of [s] satisfies [p]. *)
Fixpoint everyChar (p : ascii -> bool) (s : string) : bool :=
  match s with
  | EmptyString => true
  | String c s' => p c && everyChar p s'
  end.

(** [s] has no upper-case letter, as after [toLowerCase]. *)
Definition lowered (s : string) : bool := everyChar (fun c => negb (isUpper c)) s.

(** [s] without its first [n] characters. *)
Fixpoint drop (n : nat) (s : string) : string :=
  match n, s with
  | S n', String _ s' => drop n' s'
  | _, _ => s
  end.

(** [t] is not empty and neither starts nor ends with white space, so that
    trimming a text cannot cut into an occurrence of [t]. *)
Definition solid (t : string) : bool :=
  match t with
  | EmptyString => false
  | String c _ => negb (isWhiteSpace c) && String.eqb (trimEnd t) t
  end.

(** The 256 characters. *)
Definition allAscii : list ascii := List.map ascii_of_nat (seq 0 256).

Definition isSome {A : Type} (o : option A) : bool :=
  match o with Some _ => true | None => false end.

(** The text that [detectPlatform] searches. *)
Definition normalize (url : string) : string := trim (toLowerCase url).

(** Platform detection as a search for the platform's domain anywhere in a
    text, first hit in registry order. *)
Definition platformOfText (text : string) : option SupportedPlatform :=
  if includes text "instagram.com" then Some instagram
  else if includes text "x.com" || includes text "twitter.com" then Some twitter
  else if includes text "tiktok.com" then Some tiktok
  else None.

Definition platformDomains : list string :=
  ["instagram.com"; "x.com"; "twitter.com"; "tiktok.com"].

(** The protocol error, when the protocol calls for it. *)
Definition protocolErrors (u : URL) : list string :=
  if arrayIncludes ["http:"; "https:"] (protocol u) then [] else [ERR_PROTOCOL].

(** The two checks of [sanitize] that come before the URL is parsed. *)
Definition startsWithDangerousProtocol (url : string) : bool :=
  existsb (fun protocol => startsWith (toLowerCase (trim url)) protocol)
          dangerousProtocols.

Definition hasXssMarker (url : string) : bool :=
  existsb (fun pattern => RegExp.test pattern (trim url)) xssPatterns.

(** The XSS patterns that are plain texts, in lower case. *)
Definition xssLiterals : list string :=
  [ "<script"; "<iframe"; "<embed"; "<object"; "onload="; "onerror=";
    "onclick="; "onmouseover="; "javascript:"; "eval("; "expression(" ].

(** The errors of [sanitize], by the class the specification gives them. *)
Definition dangerousProtocolError : JsError := newError "Dangerous protocol detected".
Definition xssError : JsError := newError "XSS pattern detected".
Definition formatError : JsError := newError ERR_FORMAT.

Definition isSecurityError (e : JsError) : bool :=
  includes (message e) "Dangerous" || includes (message e) "XSS".

(** A parameter survives [sanitize] when its key, in lower case, is not on
    the denylist. *)
Definition keepsParam (kv : string * string) : bool :=
  negb (arrayIncludes dangerousParams (toLowerCase (fst kv))).

(** The query part of the sanitised URL. *)
Definition querySuffix (params : list (string * string)) : string :=
  match params with
  | [] => EmptyString
  | _ :: _ => "?" +:+ FormUrlencoded.serialize params
  end.

(** The URL that [sanitize] rebuilds from a parsed one. *)
Definition rebuilt (u : URL) : string :=
  protocol u +:+ "//" +:+ host u +:+ pathname u
  +:+ querySuffix (List.filter keepsParam (searchParams u)).

(** The answer to call number [j] (from 0) of a run inside one window that
    starts from a stored count [count0]: allowed while the count is below
    the limit, rejected with the reset time afterwards. *)
Definition windowResult (limit count0 resetAt : Z) (j : nat) : Result.t :=
  if (count0 + Z.of_nat j <? limit)%Z then Result.mk true None
  else Result.mk false (Some resetAt).

(** The default store file, a disk without files, and a limiter that has
    just been created on it. *)
Definition sampleDbPath : string := "./data/rate-limits.json".
Definition emptyDisk : Disk := mkDisk ∅ true.
Definition sampleLimiter (window max : Z) : RateLimiter :=
  mkRateLimiter sampleDbPath window max ∅ 0.

(** A limiter with a limit of two that served one client twice and was then
    closed, so that its store file holds the client's count of two. *)
Definition closedWorld : World :=
  close 20000
    (checks "1a2b" [10000; 10001]%Z
       (new_RateLimiter emptyDisk sampleDbPath 60000 2, emptyDisk)).2.

(** The store that [JSON.parse] reads from a file text. *)
Definition parsedStore (text : string) : option (gmap string RateLimitData) :=
  match JSON.parse text with
  | Return v => Some (storeOfJson v)
  | Throw _ => None
  end.

(** A pattern without capturing group. *)
Fixpoint groupFree (r : RegExp.regex) : bool :=
  match r with
  | RegExp.Empty | RegExp.Chr _ | RegExp.Dot | RegExp.PlusClass _ _ => true
  | RegExp.Seq r1 r2 | RegExp.Alt r1 r2 => groupFree r1 && groupFree r2
  | RegExp.Group _ => false
  end.

(** The class of the one capturing group of a pattern that ends in
    [(class+)] and has no other group. *)
Fixpoint finalCapture (r : RegExp.regex) : option (list (ascii * ascii)) :=
  match r with
  | RegExp.Group (RegExp.PlusClass false ranges) => Some ranges
  | RegExp.Seq r1 r2 => if groupFree r1 then finalCapture r2 else None
  | _ => None
  end.

(** The characters of a content ID: letters, digits, [_] and [-] on
    instagram, digits on the other platforms. *)
Definition isDigitChar (c : ascii) : bool := Nat.leb 48 (code c) && Nat.leb (code c) 57.

Definition isIdChar (c : ascii) : bool :=
  isDigitChar c
  || (Nat.leb 65 (code c) && Nat.leb (code c) 90)
  || (Nat.leb 97 (code c) && Nat.leb (code c) 122)
  || Nat.eqb (code c) 95 || Nat.eqb (code c) 45.

Definition idAlphabet (p : SupportedPlatform) : ascii -> bool :=
  match p with
  | instagram => isIdChar
  | twitter | tiktok => isDigitChar
  end.

Definition idRanges (p : SupportedPlatform) : list (ascii * ascii) :=
  match p with
  | instagram => Patterns.idChars
  | twitter | tiktok => Patterns.digits
  end.

(** [s] does not go on with a decimal digit. *)
Definition endsNumeral (s : string) : bool :=
  match s with
  | EmptyString => true
  | String c _ => negb (JSON.isDigit c)
  end.

(** The characters of an encoded URI component: the unreserved ones and the
    percent sign of the escapes. *)
Definition isUriSafe (c : ascii) : bool := isUriUnreserved (code c) || Ascii.eqb c "%".

(** The figure with one decimal for [n] tenths. *)
Definition tenths (n : Z) : string :=
  toStringRadix 10 (n / 10) +:+ "." +:+ String (digitChar (n mod 10)) EmptyString.

(** The text after the last hyphen of [s]. *)
Definition hasHyphen (s : string) : bool := negb (everyChar (fun c => negb (Ascii.eqb c "-")) s).

Fixpoint lastField (s : string) : string :=
  match s with
  | EmptyString => EmptyString
  | String c s' =>
      if hasHyphen s' then lastField s'
      else if Ascii.eqb c "-" then s' else s
  end.

(** A request for a status of X from behind a proxy, an extraction service
    that cannot be reached, a server whose limiter admits one request in a
    minute, and that server after the client's first request. *)
Definition sampleHeaders : Headers :=
  mkHeaders (Some "203.0.113.7, 10.0.0.1") None None (Some "Googlebot/2.1") (Some "64").

Definition sampleRequest : Request.t :=
  Request.mk sampleHeaders
    (Return (JSON.Object [("url", JSON.Str " https://x.com/user/status/9876543210 ")])).

Definition unreachable : string -> string -> completion Reply.t :=
  fun _ _ => Throw (mkJsError ErrorClass_TypeError "fetch failed").

Definition sampleConfig : EnvConfig := mkConfig 1 60000.

Definition freshServer : Server := mkServer (Some (sampleLimiter 60000 1, emptyDisk)) ∅.

Definition busyServer : Server :=
  (checkRateLimit sampleConfig (getClientId sampleHeaders) 1000 freshServer).2.

(** The calls that reach a limiter: [check] and [reset] from outside,
    [cleanup] and [save] from its timers, [close] at shutdown; each comes
    with the time at which it is made. *)
Inductive Call :=
| CallCheck (clientId : string)
| CallReset (clientId : string)
| CallCleanup
| CallSave
| CallClose.

Definition call (c : Call) (now : Z) (w : World) : World :=
  match c with
  | CallCheck clientId => (check clientId now w).2
  | CallReset clientId => reset clientId now w
  | CallCleanup => cleanup now w
  | CallSave => save now w
  | CallClose => close now w
  end.

Fixpoint calls (cs : list (Call * Z)) (w : World) : World :=
  match cs with
  | [] => w
  | (c, now) :: rest => calls rest (call c now w)
  end.

(** Every entry counts at least one request and at most the limit. *)
Definition withinLimit (rl : RateLimiter) : Prop :=
  forall (clientId : string) (e : RateLimitData),
    store rl !! clientId = Some e -> (1 <= count e <= max rl)%Z.

(** A digit of a lower-case hexadecimal numeral. *)
Definition isHexDigit (c : ascii) : bool :=
  isDigitChar c || (Nat.leb 97 (code c) && Nat.leb (code c) 102).

(** The value that [hashString] reduces modulo 2^32: the characters as the
    digits of a numeral in base 31. *)
Fixpoint poly31 (acc : Z) (str : string) : Z :=
  match str with
  | EmptyString => acc
  | String c rest => poly31 (31 * acc + Z.of_nat (code c)) rest
  end.

(** *** Notions for reading a sanitised URL back

    The characters that each part of a URL written by the parser is made
    of, the segments that the path parser leaves alone, and the facts about
    single characters that the lemmas on the decoders check over all 256
    of them. *)

(** The first step of the form decoder: a plus sign stands for a space. *)
Definition plusToSpace (c : ascii) : ascii :=
  if WhatwgURL.isChar "+" c then " "%char else c.

(** What the decoder needs to know of the encoding of a byte. *)
Definition decodes (b : nat) : bool :=
  if Nat.eqb b 32 then true
  else if FormUrlencoded.isUnreserved b then
    negb (WhatwgURL.isChar "%" (ascii_of_nat b))
    && negb (WhatwgURL.isChar "+" (ascii_of_nat b))
    && Nat.eqb (code (ascii_of_nat b)) b
  else
    let h := FormUrlencoded.hexDigit (b / 16) in
    let l := FormUrlencoded.hexDigit (b mod 16) in
    WhatwgURL.isAsciiHexDigit h && WhatwgURL.isAsciiHexDigit l
    && negb (WhatwgURL.isChar "+" h) && negb (WhatwgURL.isChar "+" l)
    && Nat.eqb (16 * WhatwgURL.hexValue h + WhatwgURL.hexValue l) b.

(** The UTF-8 bytes of a text. *)
Fixpoint utf8Bytes (s : string) : list nat :=
  match s with
  | EmptyString => []
  | String c s' => (FormUrlencoded.utf8 c ++ utf8Bytes s')%list
  end.

(** The decoder undoes the UTF-8 encoding of a character. *)
Definition utf8Decodes (c : ascii) : bool :=
  match FormUrlencoded.utf8 c with
  | [b] => Nat.ltb b 128 && Ascii.eqb (ascii_of_nat b) c
  | [b1; b2] =>
      negb (Nat.ltb b1 128) && WhatwgURL.between 194 195 b1
      && WhatwgURL.between 128 191 b2
      && Ascii.eqb (ascii_of_nat ((b1 - 192) * 64 + (b2 - 128))) c
  | _ => false
  end.

(** The characters of an encoded name or value, and those of a query. *)
Definition isFormChar (c : ascii) : bool :=
  FormUrlencoded.isUnreserved (code c) || WhatwgURL.isChar "+" c || WhatwgURL.isChar "%" c.

Definition isQueryChar (c : ascii) : bool :=
  isFormChar c || WhatwgURL.isChar "&" c || WhatwgURL.isChar "=" c.

(** Visible ASCII: neither a space nor a control character. *)
Definition isVisible (c : ascii) : bool := Nat.ltb 32 (code c) && Nat.ltb (code c) 127.

(** The characters of a parsed domain. *)
Definition isDomainChar (c : ascii) : bool :=
  Nat.ltb (code c) 128 && negb (WhatwgURL.forbiddenDomainCodePoint c).

(** The characters of a parsed host, and those of a host with its port. *)
Definition isHostChar (c : ascii) : bool :=
  isVisible c && negb (WhatwgURL.forbiddenHostCodePoint c).

Definition isAuthorityChar (c : ascii) : bool :=
  isHostChar c || WhatwgURL.isChar ":" c.

(** The separators of a path; the backslash is one in a special URL. *)
Definition pathSlash (special : bool) (c : ascii) : bool :=
  WhatwgURL.isChar "/" c || (special && WhatwgURL.isChar "\" c).

(** The characters of a segment of a parsed path. *)
Definition isPathChar (special : bool) (c : ascii) : bool :=
  negb (WhatwgURL.pathSet (code c)) && negb (pathSlash special c).

(** A segment that the path parser keeps as it is. *)
Definition goodSegment (special : bool) (g : string) : bool :=
  everyChar (isPathChar special) g
  && negb (WhatwgURL.isSingleDot g) && negb (WhatwgURL.isDoubleDot g).

(** The texts that end a dot segment, in lower case. *)
Definition dotTails : list string :=
  [ ""; "."; "e"; "2e"; "%2e"; ".."; "e."; "2e."; "%2e."; ".%2e"; "e%2e";
    "2e%2e"; "%2e%2e" ].

(** The escape of a character starts with a percent sign that is not
    followed by [2e]. *)
Definition escapesNoDot (c : ascii) : bool :=
  match WhatwgURL.mapS WhatwgURL.asciiLower
          (WhatwgURL.percentEncodeChar WhatwgURL.pathSet c) with
  | String p (String a (String b _)) =>
      WhatwgURL.isChar "%" p && negb (WhatwgURL.isChar "2" a && WhatwgURL.isChar "e" b)
  | _ => false
  end.

(** Whether a URL has an opaque path: no host, and a path that is neither
    empty nor starts with a slash. *)
Definition hasOpaquePath (u : URL) : bool :=
  String.eqb (host u) "" && negb (String.eqb (pathname u) "")
  && negb (startsWith (pathname u) "/").

(** The characters of a parsed scheme. *)
Definition isLowerSchemeChar (c : ascii) : bool :=
  WhatwgURL.isSchemeChar c && negb (WhatwgURL.isChar ":" c)
  && Ascii.eqb (WhatwgURL.asciiLower c) c.

(** The URLs whose sanitised text is rebuilt from its own parse: those
    without an opaque path, and those whose opaque path is made of host
    characters. *)
Definition readsBack (u : URL) : bool :=
  negb (hasOpaquePath u) || everyChar isHostChar (pathname u).

(** The times that a run of calls records as times of a save, in call
    order. *)
Fixpoint saveTimes (cs : list (Call * Z)) (w : World) : list Z :=
  match cs with
  | [] => []
  | (c, now) :: rest =>
      let w' := call c now w in
      if (lastSave w'.1 =? lastSave w.1)%Z then saveTimes rest w'
      else lastSave w'.1 :: saveTimes rest w'
  end.

(** Each time is at least [gap] after the one before it, and the first at
    least [gap] after [last]. *)
Fixpoint spaced (gap last : Z) (ts : list Z) : Prop :=
  match ts with
  | [] => True
  | t :: rest => (t - last >= gap)%Z /\ spaced gap t rest
  end.

(** * Properties *)

(** ** Rate limiter: the four cases of [check] *)

Section CheckCases.

Context (clientId : string) (now : Z) (rl : RateLimiter) (disk : Disk).

Lemma setStore_same : setStore rl (store rl) = rl.
Proof. by destruct rl. Qed.

Lemma member_own (e : RateLimitData) :
  store rl !! clientId = Some e -> member (store rl) clientId = Own e.
Proof. intros H. unfold member. by rewrite H. Qed.

Lemma check_absent :
  isInherited clientId = false ->
  store rl !! clientId = None ->
  check clientId now (rl, disk)
  = (Result.mk true None,
     save now (setStore rl (<[clientId := mkData 1 (now + window rl)]> (store rl)), disk)).
Proof. intros Hi H. unfold check, member. rewrite H, Hi. by rewrite H. Qed.

Lemma check_expired (e : RateLimitData) :
  isInherited clientId = false ->
  store rl !! clientId = Some e ->
  (resetTime e <= now)%Z ->
  check clientId now (rl, disk)
  = (Result.mk true None,
     save now (setStore rl (<[clientId := mkData 1 (now + window rl)]>
                              (delete clientId (store rl))), disk)).
Proof.
  intros Hi H Hle. unfold check, member. rewrite H.
  assert ((now >=? resetTime e)%Z = true) as -> by lia.
  cbn [store setStore]. by rewrite lookup_delete_eq, Hi.
Qed.

Lemma check_increment (e : RateLimitData) :
  store rl !! clientId = Some e ->
  (now < resetTime e)%Z ->
  (count e < max rl)%Z ->
  check clientId now (rl, disk)
  = (Result.mk true None,
     save now (setStore rl (<[clientId := mkData (count e + 1) (resetTime e)]>
                              (store rl)), disk)).
Proof.
  intros H Hlt Hc. unfold check. rewrite (member_own e H).
  assert ((now >=? resetTime e)%Z = false) as -> by lia.
  rewrite (member_own e H).
  by assert ((count e >=? max rl)%Z = false) as -> by lia.
Qed.

Lemma check_rejected (e : RateLimitData) :
  store rl !! clientId = Some e ->
  (now < resetTime e)%Z ->
  (max rl <= count e)%Z ->
  check clientId now (rl, disk)
  = (Result.mk false (Some (resetTime e)), (rl, disk)).
Proof.
  intros H Hlt Hc. unfold check. rewrite (member_own e H).
  assert ((now >=? resetTime e)%Z = false) as -> by lia.
  rewrite (member_own e H).
  by assert ((count e >=? max rl)%Z = true) as -> by lia.
Qed.

(** An identifier that names an inherited member is always allowed, and
    nothing is stored for it. *)
Lemma check_inherited_absent :
  isInherited clientId = true ->
  store rl !! clientId = None ->
  check clientId now (rl, disk) = (Result.mk true None, save now (rl, disk)).
Proof. intros Hi H. unfold check, member. rewrite H, Hi. by rewrite H. Qed.

Lemma check_inherited_expired (e : RateLimitData) :
  isInherited clientId = true ->
  store rl !! clientId = Some e ->
  (resetTime e <= now)%Z ->
  check clientId now (rl, disk)
  = (Result.mk true None, save now (setStore rl (delete clientId (store rl)), disk)).
Proof.
  intros Hi H Hle. unfold check, member. rewrite H.
  assert ((now >=? resetTime e)%Z = true) as -> by lia.
  cbn [store setStore]. by rewrite lookup_delete_eq, Hi.
Qed.

End CheckCases.

(** [save] touches the time stamp and the disk only. *)
Lemma save_limiter (now : Z) (w : World) :
  store (save now w).1 = store w.1
  /\ window (save now w).1 = window w.1
  /\ max (save now w).1 = max w.1
  /\ dbPath (save now w).1 = dbPath w.1.
Proof.
  destruct w as [rl disk]. unfold save.
  destruct (now - lastSave rl <? saveDebounce)%Z; [done|].
  by destruct (writeFile _ _ _).
Qed.

Lemma save_store (now : Z) (w : World) : store (save now w).1 = store w.1.
Proof. apply save_limiter. Qed.

Lemma save_window (now : Z) (w : World) : window (save now w).1 = window w.1.
Proof. apply save_limiter. Qed.

Lemma save_max (now : Z) (w : World) : max (save now w).1 = max w.1.
Proof. apply save_limiter. Qed.

(** Name the limiter and the disk that the [save] in the goal leaves, with
    what [save_limiter] says of them. *)
Ltac saved_as rl1 disk1 Hstore Hwindow Hmax :=
  match goal with
  | |- context [save ?now ?w] =>
      pose proof (save_limiter now w) as (Hstore & Hwindow & Hmax & _);
      destruct (save now w) as [rl1 disk1];
      cbn [fst store window max setStore] in Hstore, Hwindow, Hmax
  end.

(** [check] never changes the configuration. *)
Lemma check_config (clientId : string) (now : Z) (w : World) :
  window (check clientId now w).2.1 = window w.1
  /\ max (check clientId now w).2.1 = max w.1.
Proof.
  destruct w as [rl disk].
  destruct (isInherited clientId) eqn:Hi;
    (destruct (store rl !! clientId) as [e|] eqn:H;
     [destruct (Z.le_gt_cases (resetTime e) now);
      [|destruct (Z.le_gt_cases (max rl) (count e))]|]).
  - rewrite (check_inherited_expired _ _ _ _ e) by done. cbn [snd].
    by rewrite save_window, save_max.
  - by rewrite (check_rejected _ _ _ _ e) by (done || lia).
  - rewrite (check_increment _ _ _ _ e) by (done || lia). cbn [snd].
    by rewrite save_window, save_max.
  - rewrite check_inherited_absent by done. cbn [snd].
    by rewrite save_window, save_max.
  - rewrite (check_expired _ _ _ _ e) by done. cbn [snd].
    by rewrite save_window, save_max.
  - by rewrite (check_rejected _ _ _ _ e) by (done || lia).
  - rewrite (check_increment _ _ _ _ e) by (done || lia). cbn [snd].
    by rewrite save_window, save_max.
  - rewrite check_absent by done. cbn [snd].
    by rewrite save_window, save_max.
Qed.

(** ** Rate limiter: runs inside one window *)

(** From an entry with count [k] that is not over the limit, calls made
    before the reset time are allowed while the count is below the limit and
    rejected afterwards; the count stops at the limit. *)
Lemma checks_in_window (clientId : string) (ts : list Z) :
  forall (rl : RateLimiter) (disk : Disk) (k R : Z),
    store rl !! clientId = Some (mkData k R) ->
    (k <= max rl)%Z ->
    Forall (fun t => (t < R)%Z) ts ->
    (checks clientId ts (rl, disk)).1
    = List.map (windowResult (max rl) k R) (seq 0 (List.length ts))
    /\ store (checks clientId ts (rl, disk)).2.1 !! clientId
       = Some (mkData (Z.min (k + Z.of_nat (List.length ts)) (max rl)) R)
    /\ window (checks clientId ts (rl, disk)).2.1 = window rl
    /\ max (checks clientId ts (rl, disk)).2.1 = max rl.
Proof.
  induction ts as [|t ts IH]; intros rl disk k R Hc Hk Hts.
  - cbn. rewrite Z.add_0_r, Z.min_l by lia. done.
  - apply Forall_cons in Hts as [Ht Hts].
    cbn [checks List.length seq List.map].
    destruct (Z.lt_ge_cases k (max rl)) as [Hlt|Hge].
    + rewrite (check_increment _ _ _ _ _ Hc) by done.
      cbn [count resetTime].
      saved_as rl1 disk1 Hst Hw Hm.
      destruct (IH rl1 disk1 (k + 1)%Z R) as (Hr & He & Hw' & Hm').
      { rewrite Hst. apply lookup_insert_eq. }
      { lia. }
      { done. }
      destruct (checks clientId ts (rl1, disk1)) as [rs w2].
      cbn [fst snd] in *. rewrite Hr, He, Hw', Hm', Hm, Hw.
      repeat split.
      * f_equal.
        { unfold windowResult. rewrite Z.add_0_r.
          by destruct (Z.ltb_spec k (max rl)); [|lia]. }
        rewrite <- seq_shift, map_map. apply map_ext. intros j.
        unfold windowResult. rewrite Nat2Z.inj_succ.
        by replace (k + 1 + Z.of_nat j)%Z with (k + Z.succ (Z.of_nat j))%Z by lia.
      * do 2 f_equal. rewrite Nat2Z.inj_succ. lia.
    + rewrite (check_rejected _ _ _ _ _ Hc) by (cbn; lia).
      destruct (IH rl disk k R Hc Hk Hts) as (Hr & He & Hw' & Hm').
      destruct (checks clientId ts (rl, disk)) as [rs w2].
      cbn [fst snd resetTime] in *. rewrite Hr, He.
      repeat split; [| |done|done].
      * f_equal.
        { unfold windowResult. rewrite Z.add_0_r.
          by destruct (Z.ltb_spec k (max rl)); [lia|]. }
        rewrite <- seq_shift, map_map. apply map_ext. intros j.
        unfold windowResult. rewrite Nat2Z.inj_succ.
        destruct (Z.ltb_spec (k + Z.of_nat j) (max rl)); [lia|].
        by destruct (Z.ltb_spec (k + Z.succ (Z.of_nat j)) (max rl)); [lia|].
      * do 2 f_equal. rewrite Nat2Z.inj_succ. lia.
Qed.

(** Whatever the times of the calls, a count that is within the limit stays
    within the limit. *)
Lemma check_count_bound (clientId : string) (now : Z) (w : World) :
  (1 <= max w.1)%Z ->
  (forall e, store w.1 !! clientId = Some e -> (count e <= max w.1)%Z) ->
  forall e, store (check clientId now w).2.1 !! clientId = Some e ->
            (count e <= max w.1)%Z.
Proof.
  destruct w as [rl disk]. cbn [fst]. intros Hmax Hinv e'.
  destruct (store rl !! clientId) as [e|] eqn:H.
  - destruct (Z.le_gt_cases (resetTime e) now).
    + destruct (isInherited clientId) eqn:Hi.
      * rewrite (check_inherited_expired _ _ _ _ e) by done. cbn [snd].
        rewrite save_store. cbn [fst store setStore].
        by rewrite lookup_delete_eq.
      * rewrite (check_expired _ _ _ _ e) by done. cbn [snd].
        rewrite save_store. cbn [fst store setStore].
        rewrite lookup_insert_eq. intros [= <-]. done.
    + destruct (Z.le_gt_cases (max rl) (count e)).
      * rewrite (check_rejected _ _ _ _ e) by (done || lia). cbn [snd fst].
        rewrite H. intros [= <-]. by apply Hinv.
      * rewrite (check_increment _ _ _ _ e) by (done || lia). cbn [snd].
        rewrite save_store. cbn [fst store setStore].
        rewrite lookup_insert_eq. intros [= <-]. cbn. lia.
  - destruct (isInherited clientId) eqn:Hi.
    + rewrite check_inherited_absent by done. cbn [snd].
      rewrite save_store. cbn [fst]. by rewrite H.
    + rewrite check_absent by done. cbn [snd].
      rewrite save_store. cbn [fst store setStore].
      rewrite lookup_insert_eq. intros [= <-]. done.
Qed.

Lemma checks_count_bound (clientId : string) (times : list Z) :
  forall w : World,
    (1 <= max w.1)%Z ->
    (forall e, store w.1 !! clientId = Some e -> (count e <= max w.1)%Z) ->
    forall e, store (checks clientId times w).2.1 !! clientId = Some e ->
              (count e <= max w.1)%Z.
Proof.
  induction times as [|t times IH]; intros w Hmax Hinv e.
  - cbn. apply Hinv.
  - cbn [checks].
    pose proof (check_count_bound clientId t w Hmax Hinv) as Hstep.
    pose proof (check_config clientId t w) as [_ Hm].
    destruct (check clientId t w) as [r w1]. cbn [snd] in *.
    specialize (IH w1). rewrite Hm in IH.
    destruct (checks clientId times w1) as [rs w2]. cbn [snd] in *.
    apply IH; done.
Qed.

(** ** Rate limiter: the claims *)

(** C8.  A client at or over the limit whose reset time has not passed is
    rejected with the stored reset time, and the call changes nothing: the
    limiter (its store, hence the client's count and reset time, and its
    save stamp) and the disk are the ones before the call. *)
Theorem rejected_check_changes_nothing :
  forall (clientId : string) (now : Z) (rl : RateLimiter) (disk : Disk)
         (entry : RateLimitData),
    store rl !! clientId = Some entry ->
    (count entry >= max rl)%Z ->
    (now < resetTime entry)%Z ->
    check clientId now (rl, disk)
    = (Result.mk false (Some (resetTime entry)), (rl, disk))
    /\ getStatus clientId (check clientId now (rl, disk)).2.1 = Some entry.
Proof.
  intros clientId now rl disk entry Hentry Hcount Hnow.
  rewrite (check_rejected _ _ _ _ entry) by (done || lia).
  split; [done|].
  cbn [fst snd]. unfold getStatus. rewrite Hentry. by destruct entry.
Qed.

Lemma rejected_check_changes_nothing_witness :
  check "1a2b" 20000
        (setStore (sampleLimiter 60000 10) {[ "1a2b" := mkData 10 70000 ]}, emptyDisk)
  = (Result.mk false (Some 70000%Z),
     (setStore (sampleLimiter 60000 10) {[ "1a2b" := mkData 10 70000 ]}, emptyDisk)).
Proof.
  apply (rejected_check_changes_nothing "1a2b" 20000
           (setStore (sampleLimiter 60000 10) {[ "1a2b" := mkData 10 70000 ]})
           emptyDisk (mkData 10 70000)).
  - reflexivity.
  - cbn. lia.
  - cbn. lia.
Defined.

(** C2, as amended: with a limit of at least one, and for an identifier
    that names no inherited member of the store object, as is every digest
    that [getClientId] produces.  For a client without an
    entry and calls that all fall before the reset time fixed by the first
    one, call number [j + 1] is allowed exactly when [j] is below the limit
    and every later call is rejected with that reset time, so call [max + 1]
    is the first rejection; the stored count is the number of calls capped
    at the limit; a call at or after the reset time is allowed again and
    opens a new window with count one; and whatever the times of the calls,
    the stored count never exceeds the limit. *)
Theorem fresh_client_window :
  forall (clientId : string) (rl : RateLimiter) (disk : Disk) (t0 : Z) (ts : list Z),
    (1 <= max rl)%Z ->
    isInherited clientId = false ->
    store rl !! clientId = None ->
    Forall (fun t => (t < t0 + window rl)%Z) ts ->
    (checks clientId (t0 :: ts) (rl, disk)).1
    = List.map (windowResult (max rl) 0 (t0 + window rl)) (seq 0 (S (List.length ts)))
    /\ store (checks clientId (t0 :: ts) (rl, disk)).2.1 !! clientId
       = Some (mkData (Z.min (Z.of_nat (S (List.length ts))) (max rl)) (t0 + window rl))
    /\ (forall now : Z,
           (t0 + window rl <= now)%Z ->
           (check clientId now (checks clientId (t0 :: ts) (rl, disk)).2).1
           = Result.mk true None
           /\ store (check clientId now (checks clientId (t0 :: ts) (rl, disk)).2).2.1
                !! clientId
              = Some (mkData 1 (now + window rl)))
    /\ (forall (times : list Z) (e : RateLimitData),
           store (checks clientId times (rl, disk)).2.1 !! clientId = Some e ->
           (count e <= max rl)%Z).
Proof.
  intros clientId rl disk t0 ts Hmax Hplain Hfresh Hts.
  assert (forall (times : list Z) (e : RateLimitData),
             store (checks clientId times (rl, disk)).2.1 !! clientId = Some e ->
             (count e <= max rl)%Z) as Hbound.
  { intros times e. apply (checks_count_bound clientId times (rl, disk)); [done|].
    cbn [fst]. intros e'. by rewrite Hfresh. }
  cbn [checks]. rewrite check_absent by done.
  saved_as rl1 disk1 Hst Hw Hm.
  destruct (checks_in_window clientId ts rl1 disk1 1 (t0 + window rl))
    as (Hr & He & Hw' & Hm').
  { rewrite Hst. apply lookup_insert_eq. }
  { lia. }
  { done. }
  destruct (checks clientId ts (rl1, disk1)) as [rs [rl2 disk2]].
  cbn [fst snd] in *. rewrite Hm in *. rewrite Hw in *.
  split; [|split; [|split]].
  - rewrite Hr. cbn [seq List.map]. f_equal.
    + unfold windowResult. by destruct (Z.ltb_spec (0 + Z.of_nat 0) (max rl)); [|lia].
    + rewrite <- seq_shift, map_map. apply map_ext. intros j.
      unfold windowResult. rewrite Nat2Z.inj_succ.
      by replace (0 + Z.succ (Z.of_nat j))%Z with (1 + Z.of_nat j)%Z by lia.
  - rewrite He. do 2 f_equal. rewrite Nat2Z.inj_succ. lia.
  - intros now Hnow.
    rewrite (check_expired _ _ _ _ _ Hplain He) by done.
    cbn [fst snd]. rewrite save_store. cbn [fst store setStore].
    by rewrite lookup_insert_eq, Hw'.
  - exact Hbound.
Qed.

Lemma fresh_client_window_witness :
  (checks "1a2b" [1000; 1001; 1002; 1003]%Z (sampleLimiter 60000 3, emptyDisk)).1
  = List.map (windowResult 3 0 61000) (seq 0 4).
Proof.
  apply (fresh_client_window "1a2b" (sampleLimiter 60000 3) emptyDisk 1000
           [1001; 1002; 1003]%Z).
  - cbn. lia.
  - reflexivity.
  - reflexivity.
  - repeat constructor; cbn; lia.
Defined.

(** C2 as stated fails for a limit of zero: the first call, which is call
    [max + 1], is allowed, and it stores a count of one, above the limit.
    It also fails for an identifier that names an inherited member: with a
    limit of one, the client [constructor] is allowed call after call, and
    nothing is stored for it. *)
Lemma zero_limit_admits_first_call :
  max (sampleLimiter 60000 0) = 0%Z
  /\ store (sampleLimiter 60000 0) !! "1a2b" = None
  /\ (checks "1a2b" [1000%Z] (sampleLimiter 60000 0, emptyDisk)).1
     = [Result.mk true None]
  /\ store (checks "1a2b" [1000%Z] (sampleLimiter 60000 0, emptyDisk)).2.1 !! "1a2b"
     = Some (mkData 1 61000)
  /\ store (sampleLimiter 60000 1) !! "constructor" = None
  /\ (checks "constructor" [1000; 1001; 1002]%Z (sampleLimiter 60000 1, emptyDisk)).1
     = [Result.mk true None; Result.mk true None; Result.mk true None]
  /\ store (checks "constructor" [1000; 1001; 1002]%Z
              (sampleLimiter 60000 1, emptyDisk)).2.1 !! "constructor"
     = None.
Proof. repeat split; vm_compute; reflexivity. Qed.

(** Away from the instant [now = resetTime], and for an identifier that
    names no inherited member of the store object, the fallback limiter
    answers as the persistent one does and keeps the same entries. *)
Lemma fallback_agrees_off_reset_time :
  forall (clientId : string) (now : Z) (rl : RateLimiter) (disk : Disk)
         (config : EnvConfig),
    isInherited clientId = false ->
    rateLimitMax config = max rl ->
    rateLimitWindow config = window rl ->
    (forall e, store rl !! clientId = Some e -> now <> resetTime e) ->
    (checkRateLimitFallback config clientId now (store rl)).1
    = (check clientId now (rl, disk)).1
    /\ (checkRateLimitFallback config clientId now (store rl)).2
       = store (check clientId now (rl, disk)).2.1.
Proof.
  intros clientId now rl disk config Hplain Hmax Hwin Hoff.
  unfold checkRateLimitFallback. rewrite Hmax, Hwin.
  destruct (store rl !! clientId) as [e|] eqn:He.
  - specialize (Hoff e eq_refl).
    destruct (Z.gtb_spec now (resetTime e)) as [Hgt|Hle].
    + rewrite (check_expired _ _ _ _ e) by (done || lia).
      cbn [fst snd]. rewrite save_store. cbn [fst store setStore].
      by rewrite insert_delete_eq.
    + destruct (Z.le_gt_cases (max rl) (count e)) as [Hc|Hc].
      * rewrite (check_rejected _ _ _ _ e) by (done || lia).
        by destruct (Z.geb_spec (count e) (max rl)); [|lia].
      * rewrite (check_increment _ _ _ _ e) by (done || lia).
        destruct (Z.geb_spec (count e) (max rl)); [lia|].
        cbn [fst snd]. by rewrite save_store.
  - rewrite check_absent by done. cbn [fst snd]. by rewrite save_store.
Qed.

Lemma fallback_agrees_off_reset_time_witness :
  (checkRateLimitFallback (mkConfig 10 60000) "1a2b" 20000
     (store (setStore (sampleLimiter 60000 10) {[ "1a2b" := mkData 3 70000 ]}))).1
  = (check "1a2b" 20000
       (setStore (sampleLimiter 60000 10) {[ "1a2b" := mkData 3 70000 ]}, emptyDisk)).1.
Proof.
  apply (fallback_agrees_off_reset_time "1a2b" 20000
           (setStore (sampleLimiter 60000 10) {[ "1a2b" := mkData 3 70000 ]})
           emptyDisk (mkConfig 10 60000)).
  - reflexivity.
  - reflexivity.
  - reflexivity.
  - intros e. cbn [store setStore]. rewrite lookup_singleton_eq.
    intros [= <-]. cbn. lia.
Defined.

(** C3, where the code departs from it.  With a limit of one and a window of
    1000 ms, a first call at time 0 and a second at time 1000, the instant
    the window ends: the persistent limiter opens a new window and allows
    the second call, the fallback limiter still rejects it. *)
Theorem fallback_differs_at_reset_time :
  (checks "1a2b" [0; 1000]%Z (sampleLimiter 1000 1, emptyDisk)).1
  = [Result.mk true None; Result.mk true None]
  /\ (fallbackChecks (mkConfig 1 1000) "1a2b" [0; 1000]%Z ∅).1
     = [Result.mk true None; Result.mk false (Some 1000%Z)].
Proof. split; vm_compute; reflexivity. Qed.

(** [load] never takes anything from the disk: the text it parses is that
    of the promise, not of the file, and no JSON value starts that way. *)
Lemma load_store (disk : Disk) (rl : RateLimiter) :
  store (load disk rl) = if existsSync disk (dbPath rl) then ∅ else store rl.
Proof.
  unfold load. destruct (existsSync disk (dbPath rl)); [|done].
  assert (JSON.parse (Promise_toString (readFile disk (dbPath rl)))
          = Throw JSON.syntaxError) as -> by (vm_compute; reflexivity).
  done.
Qed.

(** C1, where the code departs from it.  A new limiter starts with an empty
    store whatever the disk holds.  The store file of [closedWorld] is
    well-formed and holds the client's count of two, the limit; without a
    restart the next call is rejected, after a restart over the same file
    it is allowed. *)
Theorem restart_forgets_counts :
  (forall (disk : Disk) (path : string) (window max : Z),
      store (new_RateLimiter disk path window max) = ∅)
  /\ files closedWorld.2 !! sampleDbPath
     = Some (JSON.stringify (storeToJson {[ "1a2b" := mkData 2 70000 ]}))
  /\ (parsedStore (JSON.stringify (storeToJson {[ "1a2b" := mkData 2 70000 ]}))
        ≫= fun s => s !! "1a2b")
     = Some (mkData 2 70000)
  /\ (check "1a2b" 20001 closedWorld).1 = Result.mk false (Some 70000%Z)
  /\ (check "1a2b" 20001
        (new_RateLimiter closedWorld.2 sampleDbPath 60000 2, closedWorld.2)).1
     = Result.mk true None.
Proof.
  split.
  { intros disk path window max. unfold new_RateLimiter. rewrite load_store.
    by destruct (existsSync _ _). }
  repeat split; vm_compute; reflexivity.
Qed.

(** ** Characters and strings *)

Lemma allAscii_complete (a : ascii) : In a allAscii.
Proof.
  unfold allAscii. rewrite <- (ascii_nat_embedding a).
  apply in_map, in_seq. pose proof (nat_ascii_bounded a). lia.
Qed.

(** A property of characters that holds of the 256 of them holds of all. *)
Lemma forall_ascii (P : ascii -> bool) :
  forallb P allAscii = true -> forall a, P a = true.
Proof.
  intros H a. rewrite forallb_forall in H. apply H, allAscii_complete.
Qed.

Lemma lowerChar_not_upper (c : ascii) : isUpper (lowerChar c) = false.
Proof.
  apply negb_true_iff.
  revert c. apply forall_ascii. vm_compute. reflexivity.
Qed.

Lemma lowerChar_whiteSpace (c : ascii) : isWhiteSpace (lowerChar c) = isWhiteSpace c.
Proof.
  apply Bool.eqb_prop.
  revert c. apply forall_ascii. vm_compute. reflexivity.
Qed.

(** Under the [i] flag a character matches a pattern character that is not
    upper case exactly when its lower-case form is that character. *)
Lemma charMatches_lower (a c : ascii) :
  isUpper c = false -> RegExp.charMatches true a c = Ascii.eqb c (lowerChar a).
Proof.
  intros Hc.
  assert (forallb (fun a => forallb (fun c =>
            implb (negb (isUpper c))
                  (Bool.eqb (RegExp.charMatches true a c) (Ascii.eqb c (lowerChar a))))
            allAscii) allAscii = true) as H by (vm_compute; reflexivity).
  pose proof (forall_ascii _ (forall_ascii _ H a) c) as H'. cbv beta in H'.
  rewrite Hc in H'. by apply Bool.eqb_prop.
Qed.

Lemma append_cons (c : ascii) (s r : string) : String c s +:+ r = String c (s +:+ r).
Proof. reflexivity. Qed.

Lemma append_nil (r : string) : "" +:+ r = r.
Proof. reflexivity. Qed.

Lemma append_nil_r (s : string) : s +:+ "" = s.
Proof. induction s as [|c s IH]; [done|]. by rewrite append_cons, IH. Qed.

Lemma append_assoc (a b c : string) : (a +:+ b) +:+ c = a +:+ (b +:+ c).
Proof. induction a as [|x a IH]; [done|]. by rewrite !append_cons, IH. Qed.

Lemma startsWith_empty (s : string) : startsWith s "" = true.
Proof. by destruct s. Qed.

Lemma startsWith_refl_app (t r : string) : startsWith (t +:+ r) t = true.
Proof.
  induction t as [|c t IH]; [apply startsWith_empty|].
  rewrite append_cons. cbn [startsWith]. by rewrite Ascii.eqb_refl.
Qed.

Lemma startsWith_app_r (s t r : string) :
  startsWith s t = true -> startsWith (s +:+ r) t = true.
Proof.
  revert s. induction t as [|c t IH]; intros s H; [apply startsWith_empty|].
  destruct s as [|a s]; [done|]. rewrite append_cons. cbn [startsWith] in *.
  destruct (Ascii.eqb c a); [by apply IH|done].
Qed.

Lemma includes_unfold (a : ascii) (s t : string) :
  includes (String a s) t = startsWith (String a s) t || includes s t.
Proof. cbn [includes]. by destruct (startsWith (String a s) t). Qed.

Lemma includes_nil (t : string) : includes "" t = startsWith "" t.
Proof. cbn [includes]. by destruct (startsWith "" t). Qed.

Lemma includes_startsWith (s t : string) :
  startsWith s t = true -> includes s t = true.
Proof. intros H. destruct s; [by rewrite includes_nil|]. by rewrite includes_unfold, H. Qed.

Lemma includes_app_l (l s t : string) :
  includes s t = true -> includes (l +:+ s) t = true.
Proof.
  intros H. induction l as [|c l IH]; [done|].
  rewrite append_cons, includes_unfold, IH. apply orb_true_r.
Qed.

Lemma includes_app_r (s r t : string) :
  includes s t = true -> includes (s +:+ r) t = true.
Proof.
  induction s as [|c s IH]; intros H.
  - rewrite includes_nil in H. destruct t; [|done].
    apply includes_startsWith, startsWith_empty.
  - rewrite includes_unfold in H. rewrite append_cons, includes_unfold.
    apply orb_true_iff in H as [H|H].
    + rewrite <- append_cons. by rewrite (startsWith_app_r _ _ _ H).
    + rewrite (IH H). apply orb_true_r.
Qed.

(** A text that has [t] between a prefix and a suffix includes [t]. *)
Lemma includes_middle (l t r : string) : includes (l +:+ t +:+ r) t = true.
Proof. apply includes_app_l, includes_startsWith, startsWith_refl_app. Qed.

(** [includes] is the search for an occurrence. *)
Lemma includes_occurrence (s t : string) :
  includes s t = true <-> exists l r, s = l +:+ t +:+ r.
Proof.
  split.
  - assert (forall s t, startsWith s t = true -> exists r, s = t +:+ r) as Hprefix.
    { clear. intros s t. revert s. induction t as [|c t IH]; intros s H.
      - by exists s.
      - destruct s as [|a s]; [done|]. cbn [startsWith] in H.
        destruct (Ascii.eqb_spec c a) as [->|]; [|done].
        destruct (IH s H) as [r ->]. by exists r. }
    induction s as [|a s IH]; intros H.
    + rewrite includes_nil in H. destruct (Hprefix _ _ H) as [r Hr].
      by exists "", r.
    + rewrite includes_unfold in H. apply orb_true_iff in H as [H|H].
      * destruct (Hprefix _ _ H) as [r Hr]. by exists "", r.
      * destruct (IH H) as (l & r & ->). by exists (String a l), r.
  - intros (l & r & ->). apply includes_middle.
Qed.

Lemma toLowerCase_app (a b : string) :
  toLowerCase (a +:+ b) = toLowerCase a +:+ toLowerCase b.
Proof.
  induction a as [|c a IH]; [done|].
  rewrite append_cons. cbn [toLowerCase]. by rewrite IH.
Qed.

Lemma lowered_toLowerCase (s : string) : lowered (toLowerCase s) = true.
Proof.
  induction s as [|c s IH]; [done|]. cbn.
  change (everyChar _ (toLowerCase s)) with (lowered (toLowerCase s)).
  by rewrite lowerChar_not_upper, IH.
Qed.

Lemma everyChar_trimStart (p : ascii -> bool) (s : string) :
  everyChar p s = true -> everyChar p (trimStart s) = true.
Proof.
  induction s as [|c s IH]; [done|]. cbn. intros H.
  apply andb_true_iff in H as [Hc Hs].
  destruct (isWhiteSpace c); [by apply IH|]. cbn. by rewrite Hc, Hs.
Qed.

Lemma everyChar_trimEnd (p : ascii -> bool) (s : string) :
  everyChar p s = true -> everyChar p (trimEnd s) = true.
Proof.
  induction s as [|c s IH]; [done|]. cbn. intros H.
  apply andb_true_iff in H as [Hc Hs]. specialize (IH Hs).
  destruct (trimEnd s) as [|a s0].
  - destruct (isWhiteSpace c); [done|]. cbn. by rewrite Hc.
  - change (everyChar p (String c (String a s0)))
      with (p c && everyChar p (String a s0)).
    by rewrite Hc, IH.
Qed.

Lemma lowered_trim (s : string) : lowered s = true -> lowered (trim s) = true.
Proof. intros H. by apply everyChar_trimEnd, everyChar_trimStart. Qed.

(** Trimming only removes characters at the two ends. *)
Lemma trimStart_suffix (s : string) : exists l, s = l +:+ trimStart s.
Proof.
  induction s as [|c s [l IH]]; [by exists ""|]. cbn [trimStart].
  destruct (isWhiteSpace c); [|by exists ""].
  exists (String c l). by rewrite append_cons, <- IH.
Qed.

Lemma trimEnd_prefix (s : string) : exists r, s = trimEnd s +:+ r.
Proof.
  induction s as [|c s [r IH]]; [by exists ""|]. cbn [trimEnd].
  destruct (trimEnd s) eqn:E.
  - destruct (isWhiteSpace c).
    + by exists (String c s).
    + exists r. by rewrite append_cons, <- IH.
  - exists r. by rewrite append_cons, <- IH.
Qed.

Lemma includes_of_trim (s t : string) :
  includes (trim s) t = true -> includes s t = true.
Proof.
  intros H. unfold trim in H.
  destruct (trimStart_suffix s) as [l Hl].
  destruct (trimEnd_prefix (trimStart s)) as [r Hr].
  rewrite Hl. apply includes_app_l. rewrite Hr. by apply includes_app_r.
Qed.

Lemma startsWith_nil_l (t : string) : startsWith "" t = true -> t = "".
Proof. by destruct t. Qed.

Lemma includes_nil_l (t : string) : includes "" t = true -> t = "".
Proof. rewrite includes_nil. apply startsWith_nil_l. Qed.

Lemma trimEnd_unfold (c : ascii) (s : string) :
  trimEnd (String c s)
  = match trimEnd s with
    | EmptyString => if isWhiteSpace c then EmptyString else String c EmptyString
    | String a t => String c (String a t)
    end.
Proof. reflexivity. Qed.

Lemma trimEnd_cons_nonempty (c : ascii) (s : string) :
  trimEnd s <> "" -> trimEnd (String c s) = String c (trimEnd s).
Proof. rewrite trimEnd_unfold. by destruct (trimEnd s). Qed.

Lemma includes_into_trimStart (s t : string) :
  solid t = true -> includes s t = true -> includes (trimStart s) t = true.
Proof.
  intros Ht. induction s as [|a s IH]; [done|].
  cbn [trimStart]. destruct (isWhiteSpace a) eqn:Ha; [|done].
  rewrite includes_unfold. intros H. apply IH.
  apply orb_true_iff in H as [H|H]; [|done].
  destruct t as [|c t]; [done|]. cbn [startsWith] in H.
  destruct (Ascii.eqb_spec c a) as [->|]; [|done].
  unfold solid in Ht. by rewrite Ha in Ht.
Qed.

Lemma startsWith_into_trimEnd (t : string) :
  forall s, t <> "" -> trimEnd t = t ->
            startsWith s t = true -> startsWith (trimEnd s) t = true.
Proof.
  induction t as [|c t IH]; intros s Hne Hfix H; [done|].
  destruct s as [|a s]; [done|]. cbn [startsWith] in H.
  destruct (Ascii.eqb_spec c a) as [<-|]; [|done].
  rewrite trimEnd_unfold in Hfix.
  destruct t as [|c' t].
  - cbn [trimEnd] in Hfix. destruct (isWhiteSpace c) eqn:Hc; [done|].
    rewrite trimEnd_unfold. destruct (trimEnd s).
    + rewrite Hc. cbn [startsWith]. by rewrite Ascii.eqb_refl.
    + cbn [startsWith]. by rewrite Ascii.eqb_refl.
  - assert (trimEnd (String c' t) = String c' t) as Hfix'.
    { destruct (trimEnd (String c' t)) eqn:E.
      - by destruct (isWhiteSpace c).
      - congruence. }
    specialize (IH s ltac:(done) Hfix' H).
    rewrite trimEnd_cons_nonempty.
    + cbn [startsWith]. by rewrite Ascii.eqb_refl.
    + intros E. by rewrite E in IH.
Qed.

Lemma includes_into_trimEnd (s t : string) :
  t <> "" -> trimEnd t = t -> includes s t = true -> includes (trimEnd s) t = true.
Proof.
  intros Hne Hfix. induction s as [|a s IH]; intros H.
  - by apply includes_nil_l in H.
  - rewrite includes_unfold in H. apply orb_true_iff in H as [H|H].
    + by apply includes_startsWith, startsWith_into_trimEnd.
    + specialize (IH H). rewrite trimEnd_cons_nonempty.
      * rewrite includes_unfold, IH. apply orb_true_r.
      * intros E. rewrite E in IH. by apply includes_nil_l in IH.
Qed.

(** Trimming keeps every occurrence of a solid text. *)
Lemma includes_into_trim (s t : string) :
  solid t = true -> includes s t = true -> includes (trim s) t = true.
Proof.
  intros Ht H. unfold trim.
  assert (t <> "" /\ trimEnd t = t) as [Hne Hfix].
  { unfold solid in Ht. destruct t as [|c t]; [done|].
    apply andb_true_iff in Ht as [_ Ht]. by apply String.eqb_eq in Ht. }
  by apply includes_into_trimEnd, includes_into_trimStart.
Qed.

(** ** Regular expressions on lower-case text *)

Lemma lowered_cons (a : ascii) (s : string) :
  lowered (String a s) = true -> isUpper a = false /\ lowered s = true.
Proof.
  unfold lowered. cbn [everyChar]. intros H.
  apply andb_true_iff in H as [Ha Hs]. by apply negb_true_iff in Ha.
Qed.

Lemma toLowerCase_lowered (s : string) : lowered s = true -> toLowerCase s = s.
Proof.
  induction s as [|c s IH]; [done|]. intros H.
  apply lowered_cons in H as [Hc Hs]. cbn [toLowerCase].
  rewrite (IH Hs). unfold lowerChar. by rewrite Hc.
Qed.

(** A literal in lower case, under the [i] flag, matches at the start of [s]
    exactly when the lower-case form of [s] starts with it. *)
Lemma rmatch_lit (t : string) :
  forall (s : string) (caps : list string) (k : RegExp.cont),
    lowered t = true ->
    RegExp.rmatch true (RegExp.lit t) s caps k
    = if startsWith (toLowerCase s) t then k (drop (String.length t) s) caps else None.
Proof.
  induction t as [|c t IH]; intros s caps k Ht.
  - cbn. by rewrite startsWith_empty.
  - apply lowered_cons in Ht as [Hc Ht].
    cbn [RegExp.lit RegExp.rmatch].
    destruct s as [|a s]; [done|].
    rewrite charMatches_lower by done.
    cbn [toLowerCase startsWith String.length drop].
    destruct (Ascii.eqb c (lowerChar a)); [by apply IH|done].
Qed.

Lemma test_nil (re : RegExp.t) : RegExp.test re "" = isSome (RegExp.matchHere re "").
Proof. unfold RegExp.test. cbn [RegExp.exec]. by destruct (RegExp.matchHere re ""). Qed.

Lemma test_cons (re : RegExp.t) (a : ascii) (s : string) :
  RegExp.test re (String a s)
  = isSome (RegExp.matchHere re (String a s)) || RegExp.test re s.
Proof.
  unfold RegExp.test. cbn [RegExp.exec].
  by destruct (RegExp.matchHere re (String a s)).
Qed.

(** A pattern that matches at a position exactly when the lower-case form
    of the text from there on starts with one of [ts] finds a match exactly
    when the lower-case form of the subject includes one of them. *)
Lemma test_by_prefix (re : RegExp.t) (ts : list string) :
  (forall s, isSome (RegExp.matchHere re s)
             = existsb (startsWith (toLowerCase s)) ts) ->
  forall s, RegExp.test re s = existsb (includes (toLowerCase s)) ts.
Proof.
  intros Hhere.
  induction s as [|a s IH].
  - rewrite test_nil, Hhere. cbn [toLowerCase].
    clear. induction ts as [|t ts IH]; [done|].
    cbn [existsb]. by rewrite includes_nil, IH.
  - rewrite test_cons, Hhere, IH. cbn [toLowerCase].
    clear. induction ts as [|t ts IH]; [done|].
    cbn [existsb]. rewrite includes_unfold, <- IH.
    generalize (startsWith (String (lowerChar a) (toLowerCase s)) t)
               (includes (toLowerCase s) t)
               (existsb (startsWith (String (lowerChar a) (toLowerCase s))) ts)
               (existsb (includes (toLowerCase s)) ts).
    by intros [] [] [] [].
Qed.

(** [/t/i] for a lower-case literal [t] searches the lower-case form of the
    subject for [t]. *)
Lemma test_ci (t s : string) :
  lowered t = true -> RegExp.test (Patterns.ci t) s = includes (toLowerCase s) t.
Proof.
  intros Ht. rewrite (test_by_prefix _ [t]); [cbn; apply orb_false_r|].
  intros s'. unfold RegExp.matchHere, Patterns.ci.
  cbn [RegExp.source RegExp.ignoreCase].
  rewrite rmatch_lit by done. cbn. by destruct (startsWith (toLowerCase s') t).
Qed.

Lemma test_alt (t1 t2 s : string) :
  lowered t1 = true -> lowered t2 = true ->
  RegExp.test (RegExp.mk (RegExp.Alt (RegExp.lit t1) (RegExp.lit t2)) true) s
  = includes (toLowerCase s) t1 || includes (toLowerCase s) t2.
Proof.
  intros Ht1 Ht2.
  rewrite (test_by_prefix _ [t1; t2]); [cbn; by rewrite orb_false_r|].
  intros s'. unfold RegExp.matchHere.
  cbn [RegExp.source RegExp.ignoreCase RegExp.rmatch].
  rewrite !rmatch_lit by done. cbn.
  by destruct (startsWith (toLowerCase s') t1), (startsWith (toLowerCase s') t2).
Qed.

(** ** Platform detection *)

Lemma normalize_fixed (url : string) : toLowerCase (normalize url) = normalize url.
Proof. apply toLowerCase_lowered, lowered_trim, lowered_toLowerCase. Qed.

(** [detectPlatform] is the search of [platformOfText] over the whole
    lower-case, trimmed text. *)
Lemma detectPlatform_search (url : string) :
  detectPlatform url = platformOfText (normalize url).
Proof.
  unfold detectPlatform, platformOfText. fold (normalize url).
  cbn [URL_PATTERNS firstDomainMatch domain].
  rewrite !test_ci, test_alt by reflexivity.
  rewrite normalize_fixed.
  destruct (includes (normalize url) "instagram.com"); [done|].
  destruct (includes (normalize url) "x.com") eqn:Hx; [done|].
  destruct (includes (normalize url) "twitter.com"); [done|].
  cbn [orb]. by destruct (includes (normalize url) "tiktok.com").
Qed.

(** A solid lower-case text that occurs in [l +:+ d +:+ r] is still there
    after normalisation. *)
Lemma normalize_keeps (l d r : string) :
  solid d = true -> lowered d = true ->
  includes (normalize (l +:+ d +:+ r)) d = true.
Proof.
  intros Hsolid Hlow. unfold normalize.
  rewrite !toLowerCase_app, (toLowerCase_lowered d Hlow).
  apply includes_into_trim; [done|]. apply includes_middle.
Qed.

Lemma trim_middle (s : string) : exists l r, s = l +:+ trim s +:+ r.
Proof.
  destruct (trimStart_suffix s) as [l Hl].
  destruct (trimEnd_prefix (trimStart s)) as [r Hr].
  exists l, r. unfold trim. by rewrite <- Hr.
Qed.

(** What the normalised form of the trimmed URL includes, the lower-case
    form of the URL includes. *)
Lemma includes_of_normalize_trim (url d : string) :
  includes (normalize (trim url)) d = true -> includes (toLowerCase url) d = true.
Proof.
  intros H. apply includes_of_trim in H.
  destruct (trim_middle url) as (l & r & Hu).
  rewrite Hu, !toLowerCase_app. by apply includes_app_l, includes_app_r.
Qed.

(** C10.  Platform detection searches the whole lower-case, trimmed text of
    its argument, not a host: it answers as [platformOfText] does on that
    text; every string with [instagram.com] in it is instagram; every
    string with [x.com] or [twitter.com] in it whose text has no
    [instagram.com] is twitter; every string with [tiktok.com] in it whose
    text has none of the other three is tiktok; and a URL whose host is
    www.youtube.com with [tiktok.com] in its query is tiktok. *)
Theorem detectPlatform_searches_whole_text :
  (forall url : string, detectPlatform url = platformOfText (trim (toLowerCase url)))
  /\ (forall l r : string, detectPlatform (l +:+ "instagram.com" +:+ r) = Some instagram)
  /\ (forall l d r : string,
         In d ["x.com"; "twitter.com"] ->
         includes (normalize (l +:+ d +:+ r)) "instagram.com" = false ->
         detectPlatform (l +:+ d +:+ r) = Some twitter)
  /\ (forall l r : string,
         includes (normalize (l +:+ "tiktok.com" +:+ r)) "instagram.com" = false ->
         includes (normalize (l +:+ "tiktok.com" +:+ r)) "x.com" = false ->
         includes (normalize (l +:+ "tiktok.com" +:+ r)) "twitter.com" = false ->
         detectPlatform (l +:+ "tiktok.com" +:+ r) = Some tiktok)
  /\ (host <$> node_URL "https://www.youtube.com/watch?v=tiktok.com") = Some "www.youtube.com"
  /\ detectPlatform "https://www.youtube.com/watch?v=tiktok.com" = Some tiktok.
Proof.
  split; [exact detectPlatform_search|].
  split; [|split; [|split; [|split]]].
  - intros l r. rewrite detectPlatform_search. unfold platformOfText.
    by rewrite normalize_keeps.
  - intros l d r Hd Hno. rewrite detectPlatform_search. unfold platformOfText.
    rewrite Hno.
    destruct Hd as [<-|[<-|[]]].
    + by rewrite normalize_keeps.
    + rewrite (normalize_keeps l "twitter.com" r) by reflexivity.
      by rewrite orb_true_r.
  - intros l r H1 H2 H3. rewrite detectPlatform_search. unfold platformOfText.
    rewrite H1, H2, H3. cbn [orb]. by rewrite normalize_keeps.
  - vm_compute. reflexivity.
  - vm_compute. reflexivity.
Qed.

Lemma detectPlatform_searches_whole_text_witness :
  detectPlatform ("https://www.youtube.com/watch?v=" +:+ "tiktok.com" +:+ "&t=1")
  = Some tiktok.
Proof.
  apply detectPlatform_searches_whole_text; vm_compute; reflexivity.
Defined.

(** ** Validation and sanitisation, whatever the URL parser *)

Section ValidationProperties.

Variable new_URL : string -> option URL.

Lemma eqb_empty (s : string) : s <> "" -> String.eqb s "" = false.
Proof. intros H. by apply String.eqb_neq. Qed.

(** [validate] on an input that the URL constructor accepts. *)
Lemma validate_parsed (url : string) (u : URL) :
  url <> "" ->
  new_URL (trim url) = Some u ->
  validate new_URL url
  = match detectPlatform (trim url) with
    | None => mkValidation false (protocolErrors u ++ [ERR_UNSUPPORTED]) None None
    | Some p =>
        match extractContentId new_URL (trim url) p with
        | None => mkValidation false (protocolErrors u ++ [ERR_NO_ID p]) (Some p) None
        | Some id =>
            mkValidation (Nat.eqb (List.length (protocolErrors u)) 0)
                         (protocolErrors u) (Some p) (Some id)
        end
    end.
Proof.
  intros Hne Hu. unfold validate. rewrite (eqb_empty _ Hne), Hu.
  unfold protocolErrors.
  by destruct (arrayIncludes ["http:"; "https:"] (protocol u)).
Qed.

Lemma sanitize_try_cases (x : string) :
  sanitize_try new_URL x
  = if startsWithDangerousProtocol x then Throw dangerousProtocolError
    else if hasXssMarker x then Throw xssError
    else match new_URL (trim x) with
         | None => Throw invalidURL
         | Some u =>
             Return (let safeUrl := protocol u +:+ "//" +:+ host u +:+ pathname u in
                     let queryString :=
                       FormUrlencoded.serialize (safeParamsOf (searchParams u)) in
                     if String.eqb queryString "" then safeUrl
                     else safeUrl +:+ "?" +:+ queryString)
         end.
Proof. reflexivity. Qed.

Lemma sanitize_dangerous (x : string) :
  startsWithDangerousProtocol x = true ->
  sanitize new_URL x = Throw dangerousProtocolError.
Proof. intros H. unfold sanitize. by rewrite sanitize_try_cases, H. Qed.

Lemma sanitize_xss (x : string) :
  startsWithDangerousProtocol x = false -> hasXssMarker x = true ->
  sanitize new_URL x = Throw xssError.
Proof. intros H1 H2. unfold sanitize. by rewrite sanitize_try_cases, H1, H2. Qed.

Lemma sanitize_unparsable (x : string) :
  startsWithDangerousProtocol x = false -> hasXssMarker x = false ->
  new_URL (trim x) = None ->
  sanitize new_URL x = Throw formatError.
Proof.
  intros H1 H2 H3. unfold sanitize. by rewrite sanitize_try_cases, H1, H2, H3.
Qed.

End ValidationProperties.

(** The loop that copies the parameters is a filter. *)
Lemma safeParamsOf_filter (params : list (string * string)) :
  safeParamsOf params = List.filter keepsParam params.
Proof.
  unfold safeParamsOf.
  assert (forall acc,
             fold_left
               (fun safeParams '(key, value) =>
                  if arrayIncludes dangerousParams (toLowerCase key) then safeParams
                  else (safeParams ++ [(key, value)])%list)
               params acc
             = (acc ++ List.filter keepsParam params)%list) as H.
  { induction params as [|[k v] params IH]; intros acc.
    - cbn. by rewrite app_nil_r.
    - cbn [fold_left List.filter]. rewrite IH. unfold keepsParam at 2.
      cbn [fst]. destruct (arrayIncludes dangerousParams (toLowerCase k)); cbn [negb].
      + done.
      + by rewrite <- app_assoc. }
  apply (H []).
Qed.

Lemma arrayIncludes_In (xs : list string) (x : string) :
  arrayIncludes xs x = true <-> In x xs.
Proof.
  unfold arrayIncludes. rewrite existsb_exists. split.
  - intros (y & Hy & Heq). apply String.eqb_eq in Heq. by subst.
  - intros H. exists x. split; [done|]. apply String.eqb_refl.
Qed.

Lemma append_nonempty_l (a b : string) : a <> "" -> a +:+ b <> "".
Proof. by destruct a. Qed.

Lemma serialize_nonempty (kv : string * string) (rest : list (string * string)) :
  FormUrlencoded.serialize (kv :: rest) <> "".
Proof.
  assert (FormUrlencoded.pair kv <> "") as Hpair.
  { unfold FormUrlencoded.pair. by destruct (FormUrlencoded.encode kv.1). }
  cbn [FormUrlencoded.serialize]. destruct rest; [done|].
  by apply append_nonempty_l.
Qed.

(** [sanitize] on an input that passes the two checks and parses. *)
Lemma sanitize_parsed (new_URL : string -> option URL) (x : string) (u : URL) :
  startsWithDangerousProtocol x = false -> hasXssMarker x = false ->
  new_URL (trim x) = Some u ->
  sanitize new_URL x = Return (rebuilt u).
Proof.
  intros H1 H2 H3. unfold sanitize.
  rewrite sanitize_try_cases, H1, H2, H3. f_equal.
  unfold rebuilt, querySuffix. cbv zeta. rewrite safeParamsOf_filter.
  destruct (List.filter keepsParam (searchParams u)) as [|kv rest].
  - cbn [FormUrlencoded.serialize]. cbn [String.eqb].
    by rewrite append_nil_r.
  - rewrite (eqb_empty _ (serialize_nonempty kv rest)).
    by rewrite !append_assoc.
Qed.

(** When [sanitize] returns, the input passed the checks and parsed. *)
Lemma sanitize_returns (new_URL : string -> option URL) (x y : string) :
  sanitize new_URL x = Return y ->
  startsWithDangerousProtocol x = false /\ hasXssMarker x = false
  /\ exists u, new_URL (trim x) = Some u /\ y = rebuilt u.
Proof.
  intros H.
  destruct (startsWithDangerousProtocol x) eqn:H1.
  { by rewrite sanitize_dangerous in H. }
  destruct (hasXssMarker x) eqn:H2.
  { by rewrite sanitize_xss in H. }
  destruct (new_URL (trim x)) as [u|] eqn:H3.
  - rewrite (sanitize_parsed _ _ u) in H by done. injection H as <-. eauto.
  - by rewrite sanitize_unparsable in H.
Qed.

(** ** Validation and sanitisation: the claims

    C5 and C6 are about the URL that [sanitize] returns; they follow the
    properties of the URL parser, at the end. *)

(** C7, as amended: for every URL whose text, in lower case, has none of
    [instagram.com], [x.com], [twitter.com] and [tiktok.com] in it,
    [validate] answers invalid, with the unsupported-platform message last
    in the errors (after the protocol error, if the scheme calls for one),
    and sets neither platform nor content ID. *)
Theorem unsupported_text_is_rejected :
  forall (new_URL : string -> option URL) (url : string) (u : URL),
    url <> "" ->
    new_URL (trim url) = Some u ->
    (forall d, In d platformDomains -> includes (toLowerCase url) d = false) ->
    validate new_URL url
    = mkValidation false (protocolErrors u ++ [ERR_UNSUPPORTED]) None None
    /\ includes ERR_UNSUPPORTED "Unsupported platform" = true.
Proof.
  intros new_URL url u Hne Hu Hnone.
  split; [|by vm_compute].
  rewrite (validate_parsed new_URL url u Hne Hu).
  rewrite detectPlatform_search. unfold platformOfText.
  assert (forall d, In d platformDomains ->
                    includes (normalize (trim url)) d = false) as Hn.
  { intros d Hd. destruct (includes (normalize (trim url)) d) eqn:E; [|done].
    apply includes_of_normalize_trim in E. by rewrite (Hnone d Hd) in E. }
  rewrite (Hn "instagram.com"), (Hn "x.com"), (Hn "twitter.com"), (Hn "tiktok.com");
    cbn; tauto.
Qed.

Lemma unsupported_text_is_rejected_witness :
  validate node_URL "https://www.youtube.com/watch?v=123"
  = mkValidation false [ERR_UNSUPPORTED] None None.
Proof.
  apply (unsupported_text_is_rejected node_URL "https://www.youtube.com/watch?v=123"
           (mkURL "https:" "www.youtube.com" "/watch" [("v", "123")] "")).
  - discriminate.
  - vm_compute. reflexivity.
  - intros d [<-|[<-|[<-|[<-|[]]]]]; vm_compute; reflexivity.
Defined.

(** C7 as stated fails: the host www.youtube.com is outside the supported
    set, yet the URL is valid for [validate], as a tiktok video, because
    [tiktok.com] stands in its query. *)
Lemma youtube_url_is_accepted :
  (host <$> node_URL "https://www.youtube.com/video/123?from=tiktok.com")
  = Some "www.youtube.com"
  /\ validate node_URL "https://www.youtube.com/video/123?from=tiktok.com"
     = mkValidation true [] (Some tiktok) (Some "123").
Proof. split; vm_compute; reflexivity. Qed.

(** C9, as amended: for every URL that parses and whose scheme is neither
    http nor https, the protocol error comes first in the errors and the
    later steps still run and add to the same list.  With no platform
    detected the unsupported-platform error follows and nothing is set; with
    a platform but no content ID the missing-ID error follows and only the
    platform is set; with a platform and a content ID the outcome is invalid
    with the protocol error alone and both platform and content ID set. *)
Theorem protocol_error_does_not_short_circuit :
  forall (new_URL : string -> option URL) (url : string) (u : URL),
    url <> "" ->
    new_URL (trim url) = Some u ->
    arrayIncludes ["http:"; "https:"] (protocol u) = false ->
    (detectPlatform (trim url) = None ->
     validate new_URL url
     = mkValidation false [ERR_PROTOCOL; ERR_UNSUPPORTED] None None)
    /\ (forall p,
           detectPlatform (trim url) = Some p ->
           extractContentId new_URL (trim url) p = None ->
           validate new_URL url
           = mkValidation false [ERR_PROTOCOL; ERR_NO_ID p] (Some p) None)
    /\ (forall p id,
           detectPlatform (trim url) = Some p ->
           extractContentId new_URL (trim url) p = Some id ->
           validate new_URL url
           = mkValidation false [ERR_PROTOCOL] (Some p) (Some id)).
Proof.
  intros new_URL url u Hne Hu Hproto.
  rewrite (validate_parsed new_URL url u Hne Hu).
  unfold protocolErrors. rewrite Hproto.
  repeat split.
  - by intros ->.
  - by intros p -> ->.
  - by intros p id -> ->.
Qed.

Lemma protocol_error_does_not_short_circuit_witness :
  validate node_URL "ftp://instagram.com/p/ABC123"
  = mkValidation false [ERR_PROTOCOL] (Some instagram) (Some "ABC123").
Proof.
  apply (protocol_error_does_not_short_circuit node_URL "ftp://instagram.com/p/ABC123"
           (mkURL "ftp:" "instagram.com" "/p/ABC123" [] "")).
  - discriminate.
  - vm_compute. reflexivity.
  - vm_compute. reflexivity.
  - vm_compute. reflexivity.
  - vm_compute. reflexivity.
Defined.

(** C9 as stated fails: an ftp URL on instagram.com without a content ID in
    its path gets the platform set, but no content ID. *)
Lemma ftp_url_without_content_id :
  (protocol <$> node_URL "ftp://instagram.com/") = Some "ftp:"
  /\ detectPlatform "ftp://instagram.com/" = Some instagram
  /\ validate node_URL "ftp://instagram.com/"
     = mkValidation false [ERR_PROTOCOL; ERR_NO_ID instagram] (Some instagram) None.
Proof. repeat split; vm_compute; reflexivity. Qed.

(** C4.  An input that, trimmed and in lower case, starts with a denylisted
    scheme fails with the dangerous-protocol error; an input whose trimmed
    form matches an XSS pattern fails with one of the two security errors,
    and with the XSS error when no denylisted scheme starts it, in
    particular when the trimmed input has one of the literal markers in it
    in any letter case; an input past both checks that the URL constructor
    rejects fails with the format error; a security error thrown in the [try] block leaves [sanitize] as
    it is, and the format error is only ever raised in place of the URL
    constructor's own error. *)
Theorem sanitize_error_classes :
  forall (new_URL : string -> option URL) (x : string),
    (forall p, In p dangerousProtocols ->
               startsWith (toLowerCase (trim x)) p = true ->
               sanitize new_URL x = Throw dangerousProtocolError)
    /\ (forall pattern, In pattern xssPatterns ->
                        RegExp.test pattern (trim x) = true ->
                        (sanitize new_URL x = Throw dangerousProtocolError
                         \/ sanitize new_URL x = Throw xssError)
                        /\ (startsWithDangerousProtocol x = false ->
                            sanitize new_URL x = Throw xssError))
    /\ (forall t, In t xssLiterals ->
                  includes (toLowerCase (trim x)) t = true ->
                  startsWithDangerousProtocol x = false ->
                  sanitize new_URL x = Throw xssError)
    /\ (startsWithDangerousProtocol x = false ->
        hasXssMarker x = false ->
        new_URL (trim x) = None ->
        sanitize new_URL x = Throw formatError)
    /\ (forall e, sanitize_try new_URL x = Throw e ->
                  isSecurityError e = true ->
                  sanitize new_URL x = Throw e)
    /\ (sanitize new_URL x = Throw formatError ->
        sanitize_try new_URL x = Throw invalidURL)
    /\ isSecurityError dangerousProtocolError = true
    /\ isSecurityError xssError = true
    /\ isSecurityError formatError = false.
Proof.
  intros new_URL x.
  split; [|split; [|split; [|split; [|split; [|split]]]]].
  - intros p Hp Hstart. apply sanitize_dangerous.
    unfold startsWithDangerousProtocol. apply existsb_exists. eauto.
  - intros pattern Hp Htest.
    assert (hasXssMarker x = true) as Hxss.
    { unfold hasXssMarker. apply existsb_exists. eauto. }
    split.
    + destruct (startsWithDangerousProtocol x) eqn:Hd.
      * left. by apply sanitize_dangerous.
      * right. by apply sanitize_xss.
    + intros Hd. by apply sanitize_xss.
  - intros t Ht Hinc Hd. apply sanitize_xss; [done|].
    unfold hasXssMarker. apply existsb_exists. exists (Patterns.ci t). split.
    + cbn in Ht. cbn. intuition (subst; tauto).
    + rewrite test_ci; [done|].
      cbn in Ht. intuition (subst; reflexivity).
  - apply sanitize_unparsable.
  - intros e He Hsec. unfold sanitize. rewrite He. unfold sanitize_catch.
    unfold isSecurityError in Hsec. cbn [instanceofError andb]. by rewrite Hsec.
  - unfold sanitize. rewrite sanitize_try_cases.
    destruct (startsWithDangerousProtocol x); [by vm_compute|].
    destruct (hasXssMarker x); [by vm_compute|].
    by destruct (new_URL (trim x)).
  - by vm_compute.
Qed.

Lemma sanitize_error_classes_witness :
  sanitize node_URL "  JavaScript:alert(1)" = Throw dangerousProtocolError
  /\ sanitize node_URL "https://example.com/?a=<SCRIPT>" = Throw xssError
  /\ sanitize node_URL "not-a-url" = Throw formatError.
Proof.
  split; [|split].
  - apply (proj1 (sanitize_error_classes node_URL "  JavaScript:alert(1)") "javascript:").
    + cbn. tauto.
    + vm_compute. reflexivity.
  - apply (proj1 (proj2 (sanitize_error_classes node_URL "https://example.com/?a=<SCRIPT>"))
             (Patterns.ci "<script")).
    + cbn. tauto.
    + vm_compute. reflexivity.
    + vm_compute. reflexivity.
  - apply (proj1 (proj2 (proj2 (proj2 (sanitize_error_classes node_URL "not-a-url")))));
      vm_compute; reflexivity.
Defined.

Lemma filter_keepsParam_idempotent (params : list (string * string)) :
  List.filter keepsParam (List.filter keepsParam params) = List.filter keepsParam params.
Proof.
  induction params as [|kv params IH]; [done|].
  cbn [List.filter]. destruct (keepsParam kv) eqn:E; [|done].
  cbn [List.filter]. by rewrite E, IH.
Qed.

(** ** Further properties of the limiter *)

(** [save] either does nothing, or records [now], which is then at least
    [saveDebounce] after the last save. *)
Lemma save_step (now : Z) (rl : RateLimiter) (disk : Disk) :
  save now (rl, disk) = (rl, disk)
  \/ (lastSave (save now (rl, disk)).1 = now /\ (now - lastSave rl >= saveDebounce)%Z).
Proof.
  unfold save. destruct (Z.ltb_spec (now - lastSave rl) saveDebounce); [by left|right].
  split; [|lia]. by destruct (writeFile disk _ _).
Qed.

(** Every call changes the disk and the time of the last save through
    [save] only, at its own time. *)
Lemma call_saves (c : Call) (now : Z) (w : World) :
  exists rl', lastSave rl' = lastSave w.1
    /\ (call c now w = (rl', w.2) \/ call c now w = save now (rl', w.2)).
Proof.
  destruct w as [rl disk]. destruct c as [clientId|clientId| | |]; cbn [call fst snd].
  - unfold check.
    set (rl1 := match member (store rl) clientId with
                | Own existing =>
                    if (now >=? resetTime existing)%Z
                    then setStore rl (delete clientId (store rl)) else rl
                | _ => rl
                end).
    assert (lastSave rl1 = lastSave rl) as H1.
    { unfold rl1. destruct (member (store rl) clientId) as [e| |]; [|done..].
      by destruct (now >=? resetTime e)%Z. }
    destruct (member (store rl1) clientId) as [e| |].
    + destruct (count e >=? max rl1)%Z; cbn [snd].
      * exists rl1. split; [done|by left].
      * eexists. split; [|by right]. done.
    + cbn [snd]. exists rl1. split; [done|by right].
    + cbn [snd]. eexists. split; [|by right]. done.
  - unfold reset. eexists. split; [|by right]. done.
  - unfold cleanup. destruct (existsb _ _); eexists; (split; [|by (left + right)]); done.
  - exists rl. split; [done|by right].
  - unfold close. exists rl. split; [done|by right].
Qed.

Lemma call_step (c : Call) (now : Z) (w : World) :
  (lastSave (call c now w).1 = lastSave w.1 /\ (call c now w).2 = w.2)
  \/ (lastSave (call c now w).1 = now /\ (now - lastSave w.1 >= saveDebounce)%Z).
Proof.
  destruct (call_saves c now w) as (rl' & Hl & [-> | ->]); [by left|].
  destruct (save_step now rl' w.2) as [-> | [H1 H2]]; [by left|right].
  by rewrite <- Hl.
Qed.

(** Saves are debounced in every run: a call either leaves the time of the
    last save as it is and writes nothing, or it records its own time as
    the time of the last save, at least [saveDebounce] after the one
    before; so that the save times of a run of calls are at least
    [saveDebounce] apart, whatever the calls and their times. *)
Theorem saves_are_debounced :
  (forall (c : Call) (now : Z) (w : World),
      (lastSave (call c now w).1 = lastSave w.1 /\ (call c now w).2 = w.2)
      \/ (lastSave (call c now w).1 = now
          /\ (now - lastSave w.1 >= saveDebounce)%Z))
  /\ (forall (cs : list (Call * Z)) (w : World),
         spaced saveDebounce (lastSave w.1) (saveTimes cs w)).
Proof.
  split; [apply call_step|].
  induction cs as [|[c now] cs IH]; intros w; [done|].
  cbn [saveTimes]. cbv zeta.
  destruct (call_step c now w) as [[Hl _]|[Hl Hgap]].
  - rewrite Hl, Z.eqb_refl, <- Hl. apply IH.
  - destruct (Z.eqb_spec (lastSave (call c now w).1) (lastSave w.1)) as [E|E].
    + rewrite <- E. apply IH.
    + cbn [spaced]. split; [lia|apply IH].
Qed.

(** [cleanup] evicts exactly the entries whose reset time has been reached
    and changes no other entry. *)
Theorem cleanup_evicts_expired :
  forall (now : Z) (w : World) (clientId : string),
    store (cleanup now w).1 !! clientId
    = match store w.1 !! clientId with
      | Some e => if (now >=? resetTime e)%Z then None else Some e
      | None => None
      end.
Proof.
  intros now [rl disk] clientId. unfold cleanup.
  assert (store (setStore rl
                   (filter (fun kv => ¬ (resetTime kv.2 <= now)%Z) (store rl)))
            !! clientId
          = match store rl !! clientId with
            | Some e => if (now >=? resetTime e)%Z then None else Some e
            | None => None
            end) as H.
  { cbn [store setStore]. rewrite map_lookup_filter.
    destruct (store rl !! clientId) as [e|]; [|done]. cbn.
    destruct (Z.geb_spec now (resetTime e)); case_guard; cbn in *; (done || lia). }
  destruct (existsb _ _); [by rewrite save_store|done].
Qed.

(** [reset] drops the client's entry and no other. *)
Theorem reset_drops_entry :
  forall (clientId other : string) (now : Z) (w : World),
    store (reset clientId now w).1 !! clientId = None
    /\ (other <> clientId ->
        store (reset clientId now w).1 !! other = store w.1 !! other).
Proof.
  intros clientId other now [rl disk]. unfold reset.
  rewrite save_store. cbn [fst store setStore]. split.
  - apply lookup_delete_eq.
  - intros H. by apply lookup_delete_ne.
Qed.

Lemma reset_drops_entry_witness :
  store (reset "1a2b" 20000
           (setStore (sampleLimiter 60000 10)
              {[ "1a2b" := mkData 10 70000; "3c4d" := mkData 1 70000 ]}, emptyDisk)).1
    !! "3c4d"
  = store (setStore (sampleLimiter 60000 10)
             {[ "1a2b" := mkData 10 70000; "3c4d" := mkData 1 70000 ]}) !! "3c4d".
Proof.
  apply (proj2 (reset_drops_entry "1a2b" "3c4d" 20000
                  (setStore (sampleLimiter 60000 10)
                     {[ "1a2b" := mkData 10 70000; "3c4d" := mkData 1 70000 ]},
                   emptyDisk))).
  discriminate.
Defined.

(** [check] for one client leaves the entries of all other clients as they
    are. *)
Theorem check_leaves_other_clients :
  forall (clientId other : string) (now : Z) (w : World),
    other <> clientId ->
    store (check clientId now w).2.1 !! other = store w.1 !! other.
Proof.
  intros clientId other now [rl disk] Hne. cbn [fst].
  destruct (store rl !! clientId) as [e|] eqn:H.
  - destruct (Z.le_gt_cases (resetTime e) now).
    + destruct (isInherited clientId) eqn:Hi.
      * rewrite (check_inherited_expired _ _ _ _ e) by done. cbn [snd].
        rewrite save_store. cbn [fst store setStore].
        by rewrite lookup_delete_ne.
      * rewrite (check_expired _ _ _ _ e) by done. cbn [snd].
        rewrite save_store. cbn [fst store setStore].
        by rewrite lookup_insert_ne, lookup_delete_ne.
    + destruct (Z.le_gt_cases (max rl) (count e)).
      * by rewrite (check_rejected _ _ _ _ e) by (done || lia).
      * rewrite (check_increment _ _ _ _ e) by (done || lia). cbn [snd].
        rewrite save_store. cbn [fst store setStore].
        by rewrite lookup_insert_ne.
  - destruct (isInherited clientId) eqn:Hi.
    + rewrite check_inherited_absent by done. cbn [snd]. by rewrite save_store.
    + rewrite check_absent by done. cbn [snd].
      rewrite save_store. cbn [fst store setStore].
      by rewrite lookup_insert_ne.
Qed.

Lemma check_leaves_other_clients_witness :
  store (check "1a2b" 20000
           (setStore (sampleLimiter 60000 10) {[ "3c4d" := mkData 4 70000 ]}, emptyDisk)).2.1
    !! "3c4d"
  = store (setStore (sampleLimiter 60000 10) {[ "3c4d" := mkData 4 70000 ]}) !! "3c4d".
Proof.
  apply (check_leaves_other_clients "1a2b" "3c4d" 20000
           (setStore (sampleLimiter 60000 10) {[ "3c4d" := mkData 4 70000 ]}, emptyDisk)).
  discriminate.
Defined.

(** ** Further properties of validation *)

(** The outcome of [validate] is valid exactly when it carries no error,
    and a valid outcome has both platform and content ID. *)
Theorem valid_iff_no_errors :
  forall (new_URL : string -> option URL) (url : string),
    (isValid (validate new_URL url) = true <-> errors (validate new_URL url) = [])
    /\ (isValid (validate new_URL url) = true ->
        exists p id, platform (validate new_URL url) = Some p
                     /\ contentId (validate new_URL url) = Some id).
Proof.
  intros new_URL url. unfold validate.
  destruct (String.eqb url ""); [by cbn|].
  destruct (new_URL (trim url)) as [u|]; [|by cbn].
  destruct (detectPlatform (trim url)) as [p|].
  - destruct (extractContentId new_URL (trim url) p) as [id|].
    + cbn [isValid errors platform contentId]. split; [|eauto].
      destruct (arrayIncludes ["http:"; "https:"] (protocol u)); by cbn.
    + cbn [isValid errors]. split; [|done]. split; [done|].
      by destruct (arrayIncludes ["http:"; "https:"] (protocol u)).
  - cbn [isValid errors]. split; [|done]. split; [done|].
    by destruct (arrayIncludes ["http:"; "https:"] (protocol u)).
Qed.

(** The URLs of the specification's examples: a post, a status and a video
    with their content IDs, and a platform URL without one. *)
Theorem validate_examples :
  validate node_URL "https://www.instagram.com/p/ABC123/"
  = mkValidation true [] (Some instagram) (Some "ABC123")
  /\ validate node_URL "https://x.com/user/status/9876543210"
     = mkValidation true [] (Some twitter) (Some "9876543210")
  /\ validate node_URL "https://www.tiktok.com/@user/video/1234567890"
     = mkValidation true [] (Some tiktok) (Some "1234567890")
  /\ validate node_URL "https://www.instagram.com/"
     = mkValidation false [ERR_NO_ID instagram] (Some instagram) None
  /\ validate node_URL "" = mkValidation false [ERR_REQUIRED] None None
  /\ validate node_URL "not-a-valid-url" = mkValidation false [ERR_FORMAT] None None.
Proof. repeat split; vm_compute; reflexivity. Qed.

(** ** The limiter's operations together *)

Lemma cleanup_lookup (now : Z) (w : World) (clientId : string) :
  store (cleanup now w).1 !! clientId
  = match store w.1 !! clientId with
    | Some e => if (now >=? resetTime e)%Z then None else Some e
    | None => None
    end.
Proof.
  destruct w as [rl disk]. unfold cleanup.
  assert (store (setStore rl
                   (filter (fun kv => ¬ (resetTime kv.2 <= now)%Z) (store rl)))
            !! clientId
          = match store rl !! clientId with
            | Some e => if (now >=? resetTime e)%Z then None else Some e
            | None => None
            end) as H.
  { cbn [store setStore]. rewrite map_lookup_filter.
    destruct (store rl !! clientId) as [e|]; [|done]. cbn.
    destruct (Z.geb_spec now (resetTime e)); case_guard; cbn in *; (done || lia). }
  destruct (existsb _ _); [by rewrite save_store|done].
Qed.

Lemma cleanup_config (now : Z) (w : World) :
  window (cleanup now w).1 = window w.1 /\ max (cleanup now w).1 = max w.1.
Proof.
  destruct w as [rl disk]. unfold cleanup.
  destruct (existsb _ _); [|done]. by rewrite save_window, save_max.
Qed.

(** What [check] answers and what it leaves for the client, from the
    client's entry and the configuration alone. *)
Lemma check_outcome (clientId : string) (now : Z) (w : World) :
  (check clientId now w).1
  = match store w.1 !! clientId with
    | Some e =>
        if (now >=? resetTime e)%Z then Result.mk true None
        else if (count e >=? max w.1)%Z then Result.mk false (Some (resetTime e))
        else Result.mk true None
    | None => Result.mk true None
    end
  /\ store (check clientId now w).2.1 !! clientId
     = let fresh := if isInherited clientId then None
                    else Some (mkData 1 (now + window w.1)) in
       match store w.1 !! clientId with
       | Some e =>
           if (now >=? resetTime e)%Z then fresh
           else if (count e >=? max w.1)%Z then Some e
           else Some (mkData (count e + 1) (resetTime e))
       | None => fresh
       end.
Proof.
  destruct w as [rl disk]. cbn [fst]. cbv zeta.
  destruct (store rl !! clientId) as [e|] eqn:H.
  - destruct (Z.geb_spec now (resetTime e)).
    + destruct (isInherited clientId) eqn:Hi.
      * rewrite (check_inherited_expired _ _ _ _ e) by (done || lia). cbn [fst snd].
        rewrite save_store. cbn [fst store setStore]. by rewrite lookup_delete_eq.
      * rewrite (check_expired _ _ _ _ e) by (done || lia). cbn [fst snd].
        rewrite save_store. cbn [fst store setStore]. by rewrite lookup_insert_eq.
    + destruct (Z.geb_spec (count e) (max rl)).
      * by rewrite (check_rejected _ _ _ _ e) by (done || lia).
      * rewrite (check_increment _ _ _ _ e) by (done || lia). cbn [fst snd].
        rewrite save_store. cbn [fst store setStore]. by rewrite lookup_insert_eq.
  - destruct (isInherited clientId) eqn:Hi.
    + rewrite check_inherited_absent by done. cbn [fst snd].
      by rewrite save_store.
    + rewrite check_absent by done. cbn [fst snd].
      rewrite save_store. cbn [fst store setStore]. by rewrite lookup_insert_eq.
Qed.

(** A rejection names a reset time that lies after the time of the call,
    comes from an entry at or over the limit, and changes nothing; an
    allowed call names no reset time. *)
Theorem check_answers :
  forall (clientId : string) (now : Z) (w : World),
    (Result.allowed (check clientId now w).1 = true
     /\ Result.resetTime (check clientId now w).1 = None)
    \/ (Result.allowed (check clientId now w).1 = false
        /\ (check clientId now w).2 = w
        /\ exists e, store w.1 !! clientId = Some e
                     /\ Result.resetTime (check clientId now w).1 = Some (resetTime e)
                     /\ (now < resetTime e)%Z
                     /\ (max w.1 <= count e)%Z).
Proof.
  intros clientId now [rl disk]. cbn [fst].
  destruct (store rl !! clientId) as [e|] eqn:H.
  - destruct (Z.le_gt_cases (resetTime e) now).
    + left. destruct (isInherited clientId) eqn:Hi.
      * by rewrite (check_inherited_expired _ _ _ _ e) by done.
      * by rewrite (check_expired _ _ _ _ e) by done.
    + destruct (Z.le_gt_cases (max rl) (count e)).
      * right. rewrite (check_rejected _ _ _ _ e) by (done || lia).
        cbn [fst snd Result.allowed Result.resetTime].
        split; [done|]. split; [done|]. exists e. repeat split; (done || lia).
      * left. by rewrite (check_increment _ _ _ _ e) by (done || lia).
  - left. destruct (isInherited clientId) eqn:Hi.
    + by rewrite check_inherited_absent by done.
    + by rewrite check_absent by done.
Qed.

(** The sweep never changes what a later [check] answers or what it leaves
    for the client: an entry the sweep evicts is one that [check] would have
    replaced. *)
Theorem cleanup_then_check :
  forall (clientId : string) (swept now : Z) (w : World),
    (swept <= now)%Z ->
    (check clientId now (cleanup swept w)).1 = (check clientId now w).1
    /\ store (check clientId now (cleanup swept w)).2.1 !! clientId
       = store (check clientId now w).2.1 !! clientId.
Proof.
  intros clientId swept now w Hle.
  destruct (check_outcome clientId now (cleanup swept w)) as [-> ->].
  destruct (check_outcome clientId now w) as [-> ->].
  cbv zeta. rewrite cleanup_lookup.
  destruct (cleanup_config swept w) as [-> ->].
  destruct (store w.1 !! clientId) as [e|]; [|done].
  destruct (Z.geb_spec swept (resetTime e)); [|done].
  by destruct (Z.geb_spec now (resetTime e)); [|lia].
Qed.

Lemma cleanup_then_check_witness :
  (check "1a2b" 80000
     (cleanup 75000
        (setStore (sampleLimiter 60000 10) {[ "1a2b" := mkData 10 70000 ]}, emptyDisk))).1
  = (check "1a2b" 80000
       (setStore (sampleLimiter 60000 10) {[ "1a2b" := mkData 10 70000 ]}, emptyDisk)).1.
Proof.
  apply (cleanup_then_check "1a2b" 75000 80000
           (setStore (sampleLimiter 60000 10) {[ "1a2b" := mkData 10 70000 ]}, emptyDisk)).
  lia.
Defined.

(** After [reset] the client's next call is allowed, whatever the client's
    count was; for an identifier that names no inherited member of the store
    object it opens a new window, and for one that does it stores
    nothing. *)
Theorem reset_then_check :
  forall (clientId : string) (resetAt now : Z) (w : World),
    (check clientId now (reset clientId resetAt w)).1 = Result.mk true None
    /\ store (check clientId now (reset clientId resetAt w)).2.1 !! clientId
       = if isInherited clientId then None else Some (mkData 1 (now + window w.1)).
Proof.
  intros clientId resetAt now [rl disk].
  destruct (check_outcome clientId now (reset clientId resetAt (rl, disk))) as [-> ->].
  cbv zeta. unfold reset. rewrite save_store, save_window.
  cbn [fst store setStore window]. by rewrite lookup_delete_eq.
Qed.

(** ** The fallback limiter's operations together *)

Lemma fallback_outcome (config : EnvConfig) (clientId : string) (now : Z)
      (m : gmap string RateLimitData) :
  (checkRateLimitFallback config clientId now m).1
  = match m !! clientId with
    | Some e =>
        if (now >? resetTime e)%Z then Result.mk true None
        else if (count e >=? rateLimitMax config)%Z
             then Result.mk false (Some (resetTime e))
             else Result.mk true None
    | None => Result.mk true None
    end
  /\ (checkRateLimitFallback config clientId now m).2 !! clientId
     = match m !! clientId with
       | Some e =>
           if (now >? resetTime e)%Z
           then Some (mkData 1 (now + rateLimitWindow config))
           else if (count e >=? rateLimitMax config)%Z then Some e
                else Some (mkData (count e + 1) (resetTime e))
       | None => Some (mkData 1 (now + rateLimitWindow config))
       end.
Proof.
  unfold checkRateLimitFallback.
  destruct (m !! clientId) as [e|] eqn:H.
  - destruct (now >? resetTime e)%Z; cbn [fst snd]; [by rewrite lookup_insert_eq|].
    destruct (count e >=? rateLimitMax config)%Z; cbn [fst snd]; [done|].
    by rewrite lookup_insert_eq.
  - cbn [fst snd]. by rewrite lookup_insert_eq.
Qed.

(** The fallback limiter rejects only a client whose entry is at or over the
    limit and whose reset time has not been passed, names that reset time
    and leaves its map as it is; an allowed call names no reset time. *)
Theorem fallback_answers :
  forall (config : EnvConfig) (clientId : string) (now : Z)
         (m : gmap string RateLimitData),
    (Result.allowed (checkRateLimitFallback config clientId now m).1 = true
     /\ Result.resetTime (checkRateLimitFallback config clientId now m).1 = None)
    \/ (Result.allowed (checkRateLimitFallback config clientId now m).1 = false
        /\ (checkRateLimitFallback config clientId now m).2 = m
        /\ exists e, m !! clientId = Some e
                     /\ Result.resetTime (checkRateLimitFallback config clientId now m).1
                        = Some (resetTime e)
                     /\ (now <= resetTime e)%Z
                     /\ (rateLimitMax config <= count e)%Z).
Proof.
  intros config clientId now m. unfold checkRateLimitFallback.
  destruct (m !! clientId) as [e|] eqn:H; [|by left].
  destruct (Z.gtb_spec now (resetTime e)); [by left|].
  destruct (Z.geb_spec (count e) (rateLimitMax config)); [|by left].
  right. cbn [fst snd Result.allowed Result.resetTime].
  split; [done|]. split; [done|]. exists e. repeat split; (done || lia).
Qed.

Lemma cleanupRateLimit_lookup (now : Z) (m : gmap string RateLimitData)
      (clientId : string) :
  cleanupRateLimit now m !! clientId
  = match m !! clientId with
    | Some e => if (now >? resetTime e)%Z then None else Some e
    | None => None
    end.
Proof.
  unfold cleanupRateLimit. rewrite map_lookup_filter.
  destruct (m !! clientId) as [e|]; [|done]. cbn.
  destruct (Z.gtb_spec now (resetTime e)); case_guard; cbn in *; (done || lia).
Qed.

(** The fallback's sweep evicts exactly the entries whose reset time has
    been passed, and never changes what a later fallback check answers or
    leaves for the client. *)
Theorem fallback_cleanup_then_check :
  forall (config : EnvConfig) (clientId : string) (swept now : Z)
         (m : gmap string RateLimitData),
    (swept <= now)%Z ->
    (checkRateLimitFallback config clientId now (cleanupRateLimit swept m)).1
    = (checkRateLimitFallback config clientId now m).1
    /\ (checkRateLimitFallback config clientId now (cleanupRateLimit swept m)).2
         !! clientId
       = (checkRateLimitFallback config clientId now m).2 !! clientId.
Proof.
  intros config clientId swept now m Hle.
  destruct (fallback_outcome config clientId now (cleanupRateLimit swept m)) as [-> ->].
  destruct (fallback_outcome config clientId now m) as [-> ->].
  rewrite cleanupRateLimit_lookup.
  destruct (m !! clientId) as [e|]; [|done].
  destruct (Z.gtb_spec swept (resetTime e)); [|done].
  by destruct (Z.gtb_spec now (resetTime e)); [|lia].
Qed.

Lemma fallback_cleanup_then_check_witness :
  (checkRateLimitFallback (mkConfig 10 60000) "1a2b" 80000
     (cleanupRateLimit 75000 {[ "1a2b" := mkData 10 70000 ]})).1
  = (checkRateLimitFallback (mkConfig 10 60000) "1a2b" 80000
       {[ "1a2b" := mkData 10 70000 ]}).1.
Proof.
  apply (fallback_cleanup_then_check (mkConfig 10 60000) "1a2b" 75000 80000
           {[ "1a2b" := mkData 10 70000 ]}).
  lia.
Defined.

(** ** Captures of the content-ID patterns *)

Lemma length_append (a b : string) :
  String.length (a +:+ b) = String.length a + String.length b.
Proof. induction a as [|c a IH]; [done|]. rewrite append_cons. cbn. by rewrite IH. Qed.

Lemma consumed_append (x rest : string) : consumed (x +:+ rest) rest = x.
Proof.
  unfold consumed. rewrite length_append.
  replace (String.length x + String.length rest - String.length rest)
    with (String.length x) by lia.
  induction x as [|c x IH]; [by destruct rest|].
  rewrite append_cons. cbn. by rewrite IH.
Qed.

(** A run of characters of the class is split off by the greedy loop when
    what follows cannot fail. *)
Lemma starClass_greedy (mem : ascii -> bool) (k : RegExp.cont) (caps : list string) :
  (forall s' c', k s' c' <> None) ->
  forall s, exists run rest,
      s = run +:+ rest /\ everyChar mem run = true
      /\ RegExp.starClass mem s caps k = k rest caps.
Proof.
  intros Hk. induction s as [|c s (run & rest & Hs & Hrun & IH)].
  - by exists "", "".
  - cbn [RegExp.starClass]. destruct (mem c) eqn:Hc.
    + exists (String c run), rest. rewrite append_cons, <- Hs. cbn [everyChar].
      rewrite Hc, Hrun, IH. repeat split.
      destruct (k rest caps) eqn:E; [done|]. by apply Hk in E.
    + by exists "", (String c s).
Qed.

(** A pattern without group hands the captures on unchanged, at a suffix of
    the text. *)
Lemma starClass_passes (mem : ascii -> bool) (k : RegExp.cont) (caps : list string)
      (res : list string) :
  forall s, RegExp.starClass mem s caps k = Some res ->
            exists l s', s = l +:+ s' /\ k s' caps = Some res.
Proof.
  induction s as [|c s IH]; cbn [RegExp.starClass]; intros H.
  - by exists "", "".
  - destruct (mem c); [|by exists "", (String c s)].
    destruct (RegExp.starClass mem s caps k) eqn:E.
    + injection H as ->. destruct (IH eq_refl) as (l & s' & -> & Hk).
      by exists (String c l), s'.
    + by exists "", (String c s).
Qed.

Lemma rmatch_passes (i : bool) (r : RegExp.regex) :
  groupFree r = true ->
  forall (s : string) (caps : list string) (k : RegExp.cont) (res : list string),
    RegExp.rmatch i r s caps k = Some res ->
    exists l s', s = l +:+ s' /\ k s' caps = Some res.
Proof.
  induction r as [|c| |negated ranges|r1 IH1 r2 IH2|r1 IH1 r2 IH2|r1 IH1];
    intros Hfree s caps k res H; cbn [RegExp.rmatch groupFree] in *.
  - by exists "", s.
  - destruct s as [|a s]; [done|]. destruct (RegExp.charMatches i a c); [|done].
    by exists (String a ""), s.
  - destruct s as [|a s]; [done|]. destruct (RegExp.isLineTerminator a); [done|].
    by exists (String a ""), s.
  - destruct s as [|a s]; [done|].
    destruct (RegExp.classMatches i negated ranges a); [|done].
    destruct (starClass_passes _ _ _ _ _ H) as (l & s' & -> & Hk).
    by exists (String a l), s'.
  - apply andb_true_iff in Hfree as [H1 H2].
    destruct (IH1 H1 _ _ _ _ H) as (l1 & s1 & -> & Hk1).
    destruct (IH2 H2 _ _ _ _ Hk1) as (l2 & s2 & -> & Hk2).
    exists (l1 +:+ l2), s2. by rewrite append_assoc.
  - apply andb_true_iff in Hfree as [H1 H2].
    destruct (RegExp.rmatch i r1 s caps k) eqn:E.
    + injection H as ->. by apply (IH1 H1 _ _ _ _ E).
    + by apply (IH2 H2 _ _ _ _ H).
  - done.
Qed.

(** A pattern that ends in [(class+)] captures one non-empty run of the
    class, taken from the text. *)
Lemma rmatch_finalCapture (i : bool) (r : RegExp.regex) (ranges : list (ascii * ascii)) :
  finalCapture r = Some ranges ->
  forall (s : string) (res : list string),
    RegExp.rmatch i r s [] (fun _ caps => Some caps) = Some res ->
    exists id, res = [id] /\ id <> ""
               /\ everyChar (RegExp.classMatches i false ranges) id = true
               /\ exists l t, s = l +:+ id +:+ t.
Proof.
  induction r as [|c| |negated rs|r1 IH1 r2 IH2|r1 IH1 r2 IH2|r1 IH1];
    intros Hcap s res H; cbn [finalCapture] in Hcap; try done.
  - destruct (groupFree r1) eqn:Hfree; [|done].
    cbn [RegExp.rmatch] in H.
    destruct (rmatch_passes i r1 Hfree _ _ _ _ H) as (l1 & s1 & -> & Hk).
    destruct (IH2 Hcap _ _ Hk) as (id & -> & Hne & Hall & l & t & ->).
    exists id. repeat split; [done..|]. exists (l1 +:+ l), t. by rewrite append_assoc.
  - destruct r1 as [| | |negated rs| | |]; try done.
    destruct negated; [done|]. injection Hcap as ->.
    cbn [RegExp.rmatch] in H.
    destruct s as [|a s]; [done|].
    destruct (RegExp.classMatches i false ranges a) eqn:Ha; [|done].
    destruct (starClass_greedy (RegExp.classMatches i false ranges)
                (fun s' caps' => Some (caps' ++ [consumed (String a s) s'])%list) []
                ltac:(done) s) as (run & rest & -> & Hrun & Hstar).
    rewrite Hstar in H. injection H as <-.
    rewrite <- append_cons, consumed_append.
    exists (String a run). cbn [everyChar app]. rewrite Ha, Hrun.
    repeat split; [done|]. by exists "", rest.
Qed.

Lemma exec_matchHere (re : RegExp.t) (res : list string) :
  forall s, RegExp.exec re s = Some res ->
            exists l s', s = l +:+ s' /\ RegExp.matchHere re s' = Some res.
Proof.
  induction s as [|a s IH]; cbn [RegExp.exec]; intros H.
  - destruct (RegExp.matchHere re "") eqn:E; [|done]. injection H as ->.
    by exists "", "".
  - destruct (RegExp.matchHere re (String a s)) eqn:E.
    + injection H as ->. by exists "", (String a s).
    + destruct (IH H) as (l & s' & -> & Hm). by exists (String a l), s'.
Qed.

Lemma firstCapture_alphabet (ranges : list (ascii * ascii)) (pats : list RegExp.t) :
  Forall (fun re => finalCapture (RegExp.source re) = Some ranges
                    /\ RegExp.ignoreCase re = true) pats ->
  forall path id,
    firstCapture pats path = Some id ->
    id <> "" /\ everyChar (RegExp.classMatches true false ranges) id = true
    /\ includes path id = true.
Proof.
  induction 1 as [|re pats [Hcap Hi] _ IH]; intros path id H; [done|].
  cbn [firstCapture] in H.
  destruct (RegExp.exec re path) as [caps|] eqn:E; [|by apply IH].
  destruct (exec_matchHere _ _ _ E) as (l & s' & -> & Hm).
  unfold RegExp.matchHere in Hm. rewrite Hi in Hm.
  destruct (rmatch_finalCapture _ _ _ Hcap _ _ Hm) as (id' & -> & Hne & Hall & l' & t & ->).
  destruct id' as [|c id']; [done|]. injection H as <-.
  repeat split; [done..|].
  apply includes_app_l, includes_middle.
Qed.

Lemma classMatches_idAlphabet (p : SupportedPlatform) (c : ascii) :
  RegExp.classMatches true false (idRanges p) c = idAlphabet p c.
Proof.
  apply Bool.eqb_prop. revert c.
  destruct p; apply forall_ascii; vm_compute; reflexivity.
Qed.

Lemma everyChar_ext (p q : ascii -> bool) (s : string) :
  (forall c, p c = q c) -> everyChar p s = everyChar q s.
Proof. intros H. induction s as [|c s IH]; [done|]. cbn. by rewrite H, IH. Qed.

(** The content ID that [extractContentId] returns is never empty, is made
    of the characters of the platform's ID alphabet only, and is a piece of
    the URL's path. *)
Theorem content_id_alphabet :
  forall (new_URL : string -> option URL) (url : string) (p : SupportedPlatform)
         (id : string),
    extractContentId new_URL url p = Some id ->
    id <> ""
    /\ everyChar (idAlphabet p) id = true
    /\ exists u, new_URL url = Some u /\ includes (pathname u) id = true.
Proof.
  intros new_URL url p id H. unfold extractContentId in H.
  destruct (new_URL url) as [u|]; [|done].
  assert (Forall (fun re => finalCapture (RegExp.source re) = Some (idRanges p)
                            /\ RegExp.ignoreCase re = true) (patternsOf p)) as Hpats.
  { destruct p; vm_compute; repeat constructor. }
  destruct (firstCapture_alphabet _ _ Hpats _ _ H) as (Hne & Hall & Hinc).
  split; [done|]. split; [|eauto].
  rewrite <- Hall. apply everyChar_ext. intros c. symmetry.
  apply classMatches_idAlphabet.
Qed.

Lemma content_id_alphabet_witness :
  everyChar (idAlphabet instagram) "ABC-12_x" = true.
Proof.
  apply (content_id_alphabet node_URL "https://www.instagram.com/reel/ABC-12_x/?a=1"
           instagram "ABC-12_x").
  vm_compute. reflexivity.
Defined.

(** ** Client identifiers *)

Lemma wrap_range (z : Z) : (- 2 ^ 31 <= Int32.wrap z < 2 ^ 31)%Z.
Proof.
  unfold Int32.wrap.
  pose proof (Z.mod_pos_bound (z + 2 ^ 31) (2 ^ 32) ltac:(lia)). lia.
Qed.

Lemma wrap_small (z : Z) : (- 2 ^ 31 <= z < 2 ^ 31)%Z -> Int32.wrap z = z.
Proof. intros H. unfold Int32.wrap. rewrite Z.mod_small; lia. Qed.

(** [wrap] only takes away a multiple of 2^32, and does not see one. *)
Lemma wrap_multiple (z : Z) : exists q : Z, (Int32.wrap z = z + q * 2 ^ 32)%Z.
Proof.
  exists (- ((z + 2 ^ 31) / 2 ^ 32))%Z. unfold Int32.wrap.
  rewrite Z.mod_eq by lia. lia.
Qed.

Lemma wrap_add_multiple (z q : Z) : Int32.wrap (z + q * 2 ^ 32) = Int32.wrap z.
Proof.
  unfold Int32.wrap.
  replace (z + q * 2 ^ 32 + 2 ^ 31)%Z with (z + 2 ^ 31 + q * 2 ^ 32)%Z by lia.
  by rewrite Z_mod_plus_full.
Qed.

(** One turn of the loop multiplies by 31, adds the character code and
    reduces to 32 bits. *)
Lemma hashStep_31 (hash : Z) (char : ascii) :
  hashStep hash char = Int32.wrap (31 * hash + Z.of_nat (code char)).
Proof.
  unfold hashStep, Int32.and, Int32.shl. cbv zeta.
  rewrite Z.land_diag, Z.shiftl_mul_pow2 by lia.
  destruct (wrap_multiple hash) as [q1 ->].
  destruct (wrap_multiple ((hash + q1 * 2 ^ 32) * 2 ^ 5)) as [q2 ->].
  rewrite (wrap_small (Int32.wrap _)) by apply wrap_range.
  replace ((hash + q1 * 2 ^ 32) * 2 ^ 5 + q2 * 2 ^ 32 - hash + Z.of_nat (code char))%Z
    with (31 * hash + Z.of_nat (code char) + (q1 * 2 ^ 5 + q2) * 2 ^ 32)%Z by lia.
  apply wrap_add_multiple.
Qed.

Lemma hashLoop_app (hash : Z) (a b : string) :
  hashLoop hash (a +:+ b) = hashLoop (hashLoop hash a) b.
Proof.
  revert hash. induction a as [|c a IH]; intros hash; [done|].
  rewrite append_cons. cbn [hashLoop]. apply IH.
Qed.

Lemma hashLoop_range (hash : Z) (str : string) :
  (- 2 ^ 31 <= hash < 2 ^ 31)%Z -> (- 2 ^ 31 <= hashLoop hash str < 2 ^ 31)%Z.
Proof.
  revert hash. induction str as [|c str IH]; intros hash H; [done|].
  cbn [hashLoop]. apply IH. rewrite hashStep_31. apply wrap_range.
Qed.

Lemma hashLoop_poly31 (hash acc : Z) (str : string) :
  Int32.wrap hash = Int32.wrap acc ->
  Int32.wrap (hashLoop hash str) = Int32.wrap (poly31 acc str).
Proof.
  revert hash acc. induction str as [|c str IH]; intros hash acc H; [done|].
  cbn [hashLoop poly31]. apply IH. rewrite hashStep_31.
  rewrite (wrap_small (Int32.wrap _)) by apply wrap_range.
  destruct (wrap_multiple hash) as [q1 H1]. destruct (wrap_multiple acc) as [q2 H2].
  replace (31 * hash + Z.of_nat (code c))%Z
    with (31 * acc + Z.of_nat (code c) + 31 * (q2 - q1) * 2 ^ 32)%Z by lia.
  apply wrap_add_multiple.
Qed.

Lemma digitChar_hex (d : Z) : (0 <= d < 16)%Z -> isHexDigit (digitChar d) = true.
Proof.
  intros H.
  assert (exists n : nat, (n < 16)%nat /\ d = Z.of_nat n) as (n & Hn & ->).
  { exists (Z.to_nat d). lia. }
  do 16 (destruct n as [|n]; [by vm_compute|]). lia.
Qed.

Lemma digitsRadix_hex (fuel : nat) :
  forall (n : Z) (acc : string),
    everyChar isHexDigit acc = true ->
    everyChar isHexDigit (digitsRadix 16 fuel n acc) = true.
Proof.
  induction fuel as [|fuel IH]; intros n acc Hacc; [done|].
  cbn [digitsRadix].
  assert (everyChar isHexDigit (String (digitChar (n mod 16)) acc) = true) as H.
  { cbn [everyChar]. rewrite Hacc, digitChar_hex; [done|].
    apply Z.mod_pos_bound. lia. }
  destruct (n / 16 =? 0)%Z; [done|]. by apply IH.
Qed.

(** A number below [radix ^ k] has at most [k] digits. *)
Lemma digitsRadix_length (radix : Z) (fuel : nat) :
  (2 <= radix)%Z ->
  forall (k : nat) (n : Z) (acc : string),
    (0 <= n < radix ^ Z.of_nat (S k))%Z ->
    String.length acc < String.length (digitsRadix radix (S fuel) n acc)
                        <= S k + String.length acc.
Proof.
  intros Hradix. induction fuel as [|fuel IH]; intros k n acc Hn.
  - cbn [digitsRadix]. destruct (n / radix =? 0)%Z; cbn [String.length]; lia.
  - change (digitsRadix radix (S (S fuel)) n acc)
      with (if (n / radix =? 0)%Z then String (digitChar (n mod radix)) acc
            else digitsRadix radix (S fuel) (n / radix)
                   (String (digitChar (n mod radix)) acc)).
    destruct (Z.eqb_spec (n / radix) 0) as [|Hq]; [cbn [String.length]; lia|].
    destruct k as [|k].
    + exfalso. apply Hq. apply Z.div_small. change (Z.of_nat 1) with 1%Z in Hn. lia.
    + assert (0 <= n / radix < radix ^ Z.of_nat (S k))%Z as Hdiv.
      { split; [apply Z.div_pos; lia|].
        apply Z.div_lt_upper_bound; [lia|].
        replace (Z.of_nat (S (S k))) with (Z.of_nat (S k) + 1)%Z in Hn by lia.
        rewrite Z.pow_add_r, Z.pow_1_r in Hn by lia. lia. }
      specialize (IH k (n / radix)%Z (String (digitChar (n mod radix)) acc) Hdiv).
      cbn [String.length] in IH. lia.
Qed.

(** Every digest, and with it every client identifier, is a lower-case
    hexadecimal numeral of one to eight digits. *)
Theorem hashString_is_hex_digest :
  (forall str : string,
      everyChar isHexDigit (hashString str) = true
      /\ 1 <= String.length (hashString str) <= 8)
  /\ (forall headers : Headers,
         everyChar isHexDigit (getClientId headers) = true
         /\ 1 <= String.length (getClientId headers) <= 8).
Proof.
  assert (forall str : string,
             everyChar isHexDigit (hashString str) = true
             /\ 1 <= String.length (hashString str) <= 8) as Hdigest.
  { intros str.
    unfold hashString, toStringRadix.
    pose proof (hashLoop_range 0 str ltac:(lia)) as Hrange.
    assert ((Z.abs (hashLoop 0 str) <? 0)%Z = false) as -> by lia.
    rewrite append_nil, (Z.abs_eq (Z.abs _)) by lia. split.
    - by apply digitsRadix_hex.
    - pose proof (digitsRadix_length 16 (Z.to_nat (Z.log2 (Z.abs (hashLoop 0 str))))
                    ltac:(lia) 7 (Z.abs (hashLoop 0 str)) "") as H.
      cbn [String.length] in H. apply H. change (16 ^ Z.of_nat 8)%Z with (2 ^ 32)%Z. lia. }
  split; [exact Hdigest|]. intros headers. apply Hdigest.
Qed.

(** The identifiers that the endpoint hands to the limiter name no
    inherited member of the store. *)
Theorem client_identifiers_are_plain :
  (forall str : string, isInherited (hashString str) = false)
  /\ (forall headers : Headers, isInherited (getClientId headers) = false).
Proof.
  assert (forall str : string, isInherited (hashString str) = false) as Hplain.
  { intros str.
    assert (everyChar isHexDigit (hashString str) = true) as Hhex.
    { unfold hashString, toStringRadix.
      pose proof (hashLoop_range 0 str ltac:(lia)) as Hrange.
      assert ((Z.abs (hashLoop 0 str) <? 0)%Z = false) as -> by lia.
      rewrite append_nil, (Z.abs_eq (Z.abs _)) by lia. by apply digitsRadix_hex. }
    apply not_true_iff_false. intros H. apply arrayIncludes_In in H.
    cbn in H. repeat (destruct H as [H|H]; [by rewrite <- H in Hhex|]). done. }
  split; [exact Hplain|]. intros headers. apply Hplain.
Qed.

(** The hash is the base-31 numeral of the character codes reduced to 32
    bits: [hashString] prints the absolute value of that number. *)
Theorem hashString_is_poly31 :
  forall str : string,
    hashString str = toStringRadix 16 (Z.abs (Int32.wrap (poly31 0 str))).
Proof.
  intros str. unfold hashString. do 2 f_equal.
  rewrite <- (hashLoop_poly31 0 0 str eq_refl).
  symmetry. apply wrap_small, hashLoop_range. lia.
Qed.

(** The hash is not injective: wherever [Aa] stands in a string, [BB] in
    its place gives the same digest, as for the IPv6 addresses
    [2001:db8::Aa] and [2001:db8::BB]. *)
Theorem hashString_collides :
  forall prefix suffix : string,
    hashString (prefix +:+ "Aa" +:+ suffix) = hashString (prefix +:+ "BB" +:+ suffix).
Proof.
  intros prefix suffix. unfold hashString. do 2 f_equal.
  rewrite !hashLoop_app. f_equal. cbn [hashLoop].
  rewrite !hashStep_31.
  destruct (wrap_multiple (31 * hashLoop 0 prefix + Z.of_nat (code "A"))) as [q1 ->].
  destruct (wrap_multiple (31 * hashLoop 0 prefix + Z.of_nat (code "B"))) as [q2 ->].
  change (Z.of_nat (code "A")) with 65%Z. change (Z.of_nat (code "a")) with 97%Z.
  change (Z.of_nat (code "B")) with 66%Z.
  replace (31 * (31 * hashLoop 0 prefix + 65 + q1 * 2 ^ 32) + 97)%Z
    with (31 * (31 * hashLoop 0 prefix + 66 + q2 * 2 ^ 32) + 66
          + 31 * (q1 - q2) * 2 ^ 32)%Z by lia.
  apply wrap_add_multiple.
Qed.

Lemma firstField_comma (a rest : string) :
  everyChar (fun c => negb (WhatwgURL.isChar "," c)) a = true ->
  firstField (a +:+ "," +:+ rest) = a.
Proof.
  unfold firstField. induction a as [|c a IH]; intros H.
  - rewrite append_nil. change ("," +:+ rest) with (String "," rest). done.
  - cbn [everyChar] in H. apply andb_true_iff in H as [Hc Ha].
    rewrite append_cons. cbn [WhatwgURL.splitOn].
    apply negb_true_iff in Hc. rewrite Hc. specialize (IH Ha).
    destruct (WhatwgURL.splitOn (WhatwgURL.isChar ",") (a +:+ "," +:+ rest));
      cbn [hd] in *; by subst.
Qed.

Lemma firstField_plain (a : string) :
  everyChar (fun c => negb (WhatwgURL.isChar "," c)) a = true ->
  firstField a = a.
Proof.
  unfold firstField. induction a as [|c a IH]; intros H; [done|].
  cbn [everyChar] in H. apply andb_true_iff in H as [Hc Ha].
  cbn [WhatwgURL.splitOn]. apply negb_true_iff in Hc. rewrite Hc.
  specialize (IH Ha).
  destruct (WhatwgURL.splitOn (WhatwgURL.isChar ",") a); cbn [hd] in *; by subst.
Qed.

(** When the x-forwarded-for header is there, its first entry, trimmed,
    alone decides the client identifier: the later entries and the other
    headers play no part. *)
Theorem forwarded_for_decides_client :
  forall (headers : Headers) (first rest : string),
    everyChar (fun c => negb (WhatwgURL.isChar "," c)) first = true ->
    (xForwardedFor headers = Some (first +:+ "," +:+ rest) ->
     getClientId headers = hashString (trim first))
    /\ (first <> "" -> xForwardedFor headers = Some first ->
        getClientId headers = hashString (trim first)).
Proof.
  intros headers first rest Hfirst. unfold getClientId. split.
  - intros ->. destruct first as [|c first].
    + rewrite append_nil. change ("," +:+ rest) with (String "," rest).
      cbn [present]. reflexivity.
    + rewrite append_cons. cbn [present]. rewrite <- append_cons.
      by rewrite firstField_comma.
  - intros Hne ->. destruct first as [|c first]; [done|].
    cbn [present]. by rewrite firstField_plain.
Qed.

Lemma forwarded_for_decides_client_witness :
  getClientId (mkHeaders (Some (" 203.0.113.7 " +:+ "," +:+ " 10.0.0.1"))
                         (Some "198.51.100.2") None None None)
  = hashString (trim " 203.0.113.7 ").
Proof.
  refine (proj1 (forwarded_for_decides_client
                   (mkHeaders (Some (" 203.0.113.7 " +:+ "," +:+ " 10.0.0.1"))
                              (Some "198.51.100.2") None None None)
                   " 203.0.113.7 " " 10.0.0.1" _) _).
  - vm_compute. reflexivity.
  - reflexivity.
Defined.

(** ** The middleware's verdict and the page's own checks *)

Lemma toLowerCase_trimStart (s : string) :
  toLowerCase (trimStart s) = trimStart (toLowerCase s).
Proof.
  induction s as [|c s IH]; [done|]. cbn [trimStart toLowerCase].
  rewrite lowerChar_whiteSpace. by destruct (isWhiteSpace c).
Qed.

Lemma toLowerCase_trimEnd (s : string) :
  toLowerCase (trimEnd s) = trimEnd (toLowerCase s).
Proof.
  induction s as [|c s IH]; [done|]. cbn [toLowerCase].
  rewrite !trimEnd_unfold, <- IH, lowerChar_whiteSpace.
  destruct (trimEnd s); cbn [toLowerCase]; [by destruct (isWhiteSpace c)|done].
Qed.

Lemma trimEnd_idem (s : string) : trimEnd (trimEnd s) = trimEnd s.
Proof.
  induction s as [|c s IH]; [done|]. rewrite trimEnd_unfold.
  destruct (trimEnd s) as [|a t].
  - destruct (isWhiteSpace c) eqn:W; [done|]. by rewrite trimEnd_unfold, W.
  - by rewrite trimEnd_unfold, IH.
Qed.

Lemma trimStart_head (s : string) :
  match trimStart s with
  | EmptyString => True
  | String c _ => isWhiteSpace c = false
  end.
Proof.
  induction s as [|c s IH]; [done|]. cbn [trimStart].
  by destruct (isWhiteSpace c) eqn:W.
Qed.

Lemma trimEnd_head (c : ascii) (s : string) :
  isWhiteSpace c = false -> exists t, trimEnd (String c s) = String c t.
Proof.
  intros W. rewrite trimEnd_unfold, W. destruct (trimEnd s); eauto.
Qed.

Lemma trim_idem (s : string) : trim (trim s) = trim s.
Proof.
  unfold trim. pose proof (trimStart_head s) as H.
  destruct (trimStart s) as [|c t]; [done|].
  destruct (trimEnd_head c t H) as [u Hu]. rewrite Hu.
  cbn [trimStart]. rewrite H, <- Hu. apply trimEnd_idem.
Qed.

Lemma normalize_trim (url : string) : normalize (trim url) = normalize url.
Proof.
  unfold normalize. unfold trim at 2.
  rewrite toLowerCase_trimEnd, toLowerCase_trimStart.
  apply trim_idem.
Qed.

Lemma detectPlatform_trim (url : string) : detectPlatform (trim url) = detectPlatform url.
Proof. by rewrite !detectPlatform_search, normalize_trim. Qed.

Lemma ERR_NO_ID_nonempty (p : SupportedPlatform) (rest : string) :
  ERR_NO_ID p +:+ rest <> "".
Proof. by destruct p. Qed.

(** What a valid URL went through, and that an invalid one comes with a
    message. *)
Lemma validate_verdict (new_URL : string -> option URL) (url : string) :
  (isValid (validate new_URL url) = true ->
   exists (u : URL) (p : SupportedPlatform) (id : string),
     new_URL (trim url) = Some u
     /\ arrayIncludes ["http:"; "https:"] (protocol u) = true
     /\ detectPlatform (trim url) = Some p
     /\ extractContentId new_URL (trim url) p = Some id
     /\ validate new_URL url = mkValidation true [] (Some p) (Some id))
  /\ (isValid (validate new_URL url) = false ->
      join ", " (errors (validate new_URL url)) <> "").
Proof.
  unfold validate.
  destruct (String.eqb url ""); [by split|].
  destruct (new_URL (trim url)) as [u|]; [|by split].
  destruct (arrayIncludes ["http:"; "https:"] (protocol u)) eqn:Hprotocol;
    (destruct (detectPlatform (trim url)) as [p|]; [|by split]);
    (destruct (extractContentId new_URL (trim url) p) as [id|] eqn:Hid).
  - split; [|done]. intros _. by exists u, p, id.
  - split; [done|]. intros _. cbn. rewrite <- (append_nil_r (ERR_NO_ID p)).
    apply ERR_NO_ID_nonempty.
  - by split.
  - split; [done|]. intros _. by cbn.
Qed.

(** The verdict of [validateDownloadRequest] is that of [validate]: the
    user agent and the development flag play no part in it, so that a
    crawler is answered like anyone else.  A valid verdict carries no error
    and the platform of a URL that parses, uses http or https and has a
    content ID; an invalid one carries no platform and a message that is
    not empty. *)
Theorem request_verdict :
  forall (new_URL : string -> option URL) (DEV : bool) (url : string)
         (userAgent : option string),
    let verdict := (validateDownloadRequest new_URL DEV url userAgent).1 in
    verdict = (validateDownloadRequest new_URL false url None).1
    /\ Verdict.valid verdict = isValid (validate new_URL url)
    /\ (Verdict.valid verdict = true ->
        Verdict.error verdict = None
        /\ exists (u : URL) (p : SupportedPlatform) (id : string),
            Verdict.platform verdict = Some p
            /\ new_URL (trim url) = Some u
            /\ arrayIncludes ["http:"; "https:"] (protocol u) = true
            /\ detectPlatform (trim url) = Some p
            /\ extractContentId new_URL (trim url) p = Some id)
    /\ (Verdict.valid verdict = false ->
        Verdict.platform verdict = None
        /\ exists message : string,
            Verdict.error verdict = Some message /\ message <> "").
Proof.
  intros new_URL DEV url userAgent. cbv zeta. unfold validateDownloadRequest.
  destruct (validate_verdict new_URL url) as [Hvalid Hinvalid].
  destruct (isValid (validate new_URL url)) eqn:Hv; cbn [negb fst Verdict.valid
    Verdict.error Verdict.platform].
  - destruct (Hvalid eq_refl) as (u & p & id & Hu & Hprotocol & Hp & Hid & Hval).
    split; [done|]. split; [done|]. split; [|done]. intros _. split; [done|].
    exists u, p, id. by rewrite Hval.
  - split; [done|]. split; [done|]. split; [done|]. intros _. split; [done|].
    eexists. split; [done|]. by apply Hinvalid.
Qed.

(** What the endpoint accepts, the page lets through: a URL with a valid
    verdict passes the two checks that [handleDownload] makes before it
    calls the endpoint. *)
Theorem endpoint_accepts_only_what_page_sends :
  forall (new_URL : string -> option URL) (DEV : bool) (url : string)
         (userAgent : option string),
    Verdict.valid (validateDownloadRequest new_URL DEV url userAgent).1 = true ->
    handleDownload_guard url = None.
Proof.
  intros new_URL DEV url userAgent. unfold validateDownloadRequest.
  destruct (validate_verdict new_URL url) as [Hvalid _].
  destruct (isValid (validate new_URL url)); [|done]. intros _.
  destruct (Hvalid eq_refl) as (u & p & id & _ & _ & Hp & _).
  unfold handleDownload_guard.
  destruct (String.eqb_spec (trim url) "") as [Hempty|_].
  - by rewrite Hempty in Hp.
  - by rewrite <- detectPlatform_trim, Hp.
Qed.

Lemma endpoint_accepts_only_what_page_sends_witness :
  handleDownload_guard " https://x.com/user/status/9876543210 " = None.
Proof.
  apply (endpoint_accepts_only_what_page_sends node_URL false
           " https://x.com/user/status/9876543210 " (Some "Googlebot/2.1")).
  vm_compute. reflexivity.
Defined.

(** ** Numbers in the environment *)

Lemma decimal_snoc (ds : string) :
  forall (a : Z) (d : ascii),
    JSON.decimal a (ds +:+ String d "")
    = (10 * JSON.decimal a ds + Z.of_nat (code d - 48))%Z.
Proof.
  induction ds as [|c ds IH]; intros a d.
  - by rewrite append_nil.
  - rewrite append_cons. cbn [JSON.decimal]. apply IH.
Qed.

Lemma digitChar_decimal (d : Z) :
  (0 <= d < 10)%Z ->
  JSON.isDigit (digitChar d) = true /\ Z.of_nat (code (digitChar d) - 48) = d.
Proof.
  intros H.
  assert (exists n : nat, (n < 10)%nat /\ d = Z.of_nat n) as (n & Hn & ->).
  { exists (Z.to_nat d). lia. }
  do 10 (destruct n as [|n]; [by vm_compute|]). lia.
Qed.

Lemma everyChar_app (p : ascii -> bool) (a b : string) :
  everyChar p (a +:+ b) = everyChar p a && everyChar p b.
Proof.
  induction a as [|c a IH]; [by rewrite append_nil|].
  rewrite append_cons. cbn [everyChar]. by rewrite IH, andb_assoc.
Qed.

(** With enough fuel, [digitsRadix 10] puts the decimal digits of [n] in
    front of what has been produced. *)
Lemma digitsRadix_decimal (fuel : nat) :
  forall (n : Z) (acc : string),
    (0 <= n < 10 ^ Z.of_nat (S fuel))%Z ->
    exists ds : string,
      digitsRadix 10 (S fuel) n acc = ds +:+ acc
      /\ ds <> ""
      /\ everyChar JSON.isDigit ds = true
      /\ JSON.decimal 0 ds = n.
Proof.
  induction fuel as [|fuel IH]; intros n acc Hn.
  - exists (String (digitChar n) "").
    change (Z.of_nat 1) with 1%Z in Hn. rewrite Z.pow_1_r in Hn.
    destruct (digitChar_decimal n Hn) as [Hd Hv].
    cbn [digitsRadix]. rewrite Z.mod_small, Z.div_small by lia.
    cbn [Z.eqb everyChar JSON.decimal]. rewrite Hd, Hv. by repeat split.
  - change (digitsRadix 10 (S (S fuel)) n acc)
      with (if (n / 10 =? 0)%Z then String (digitChar (n mod 10)) acc
            else digitsRadix 10 (S fuel) (n / 10) (String (digitChar (n mod 10)) acc)).
    assert (0 <= n mod 10 < 10)%Z as Hmod by (apply Z.mod_pos_bound; lia).
    destruct (digitChar_decimal _ Hmod) as [Hd Hv].
    destruct (Z.eqb_spec (n / 10) 0) as [Hq|Hq].
    + exists (String (digitChar (n mod 10)) "").
      cbn [everyChar JSON.decimal]. rewrite Hd, Hv.
      repeat split; [done|]. pose proof (Z.div_mod n 10). lia.
    + assert (0 <= n / 10 < 10 ^ Z.of_nat (S fuel))%Z as Hdiv.
      { split; [apply Z.div_pos; lia|].
        apply Z.div_lt_upper_bound; [lia|].
        replace (Z.of_nat (S (S fuel))) with (Z.of_nat (S fuel) + 1)%Z in Hn by lia.
        rewrite Z.pow_add_r, Z.pow_1_r in Hn by lia. lia. }
      destruct (IH (n / 10)%Z (String (digitChar (n mod 10)) acc) Hdiv)
        as (ds & -> & Hne & Hds & Hval).
      exists (ds +:+ String (digitChar (n mod 10)) "").
      rewrite append_assoc, append_cons, append_nil.
      rewrite everyChar_app, decimal_snoc, Hds, Hval, Hv.
      cbn [everyChar]. rewrite Hd.
      repeat split; [|pose proof (Z.div_mod n 10); lia].
      destruct ds; [done|]. by rewrite append_cons.
Qed.

Lemma log2_fuel (n : Z) : (0 <= n -> n < 10 ^ Z.of_nat (S (Z.to_nat (Z.log2 n))))%Z.
Proof.
  intros Hn. rewrite Nat2Z.inj_succ, Z2Nat.id by apply Z.log2_nonneg.
  destruct (Z.eq_dec n 0%Z) as [->|Hpos]; [done|].
  pose proof (Z.log2_spec n ltac:(lia)) as [_ Hlt].
  pose proof (Z.pow_le_mono_l 2 10 (Z.succ (Z.log2 n)) ltac:(lia)). lia.
Qed.

Lemma leadingDigits_numeral (ds : string) :
  forall (tail : string) (acc : option Z),
    everyChar JSON.isDigit ds = true ->
    endsNumeral tail = true ->
    leadingDigits (ds +:+ tail) acc
    = match ds with
      | EmptyString => acc
      | String _ _ => Some (JSON.decimal (default 0%Z acc) ds)
      end.
Proof.
  induction ds as [|c ds IH]; intros tail acc Hds Htail.
  - rewrite append_nil. destruct tail as [|c tail]; [done|].
    cbn [leadingDigits]. cbn [endsNumeral] in Htail.
    by destruct (JSON.isDigit c).
  - cbn [everyChar] in Hds. apply andb_true_iff in Hds as [Hc Hds].
    rewrite append_cons. cbn [leadingDigits]. rewrite Hc, IH by done.
    by destruct ds.
Qed.

Lemma trimStart_blank (ws s : string) :
  everyChar isWhiteSpace ws = true -> trimStart (ws +:+ s) = trimStart s.
Proof.
  induction ws as [|c ws IH]; intros H; [by rewrite append_nil|].
  cbn [everyChar] in H. apply andb_true_iff in H as [Hc Hws].
  rewrite append_cons. cbn [trimStart]. rewrite Hc. by apply IH.
Qed.

Lemma digit_is_plain (c : ascii) :
  JSON.isDigit c = true ->
  isWhiteSpace c = false /\ Ascii.eqb c "-" = false /\ Ascii.eqb c "+" = false.
Proof.
  pose proof (forall_ascii
    (fun c => implb (JSON.isDigit c)
                (negb (isWhiteSpace c) && negb (Ascii.eqb c "-")
                 && negb (Ascii.eqb c "+")))
    ltac:(by vm_compute) c) as H.
  cbn beta in H. intros Hc. rewrite Hc in H. cbn [implb] in H.
  apply andb_true_iff in H as [H H3]. apply andb_true_iff in H as [H1 H2].
  apply negb_true_iff in H1. apply negb_true_iff in H2. by apply negb_true_iff in H3.
Qed.

(** The decimal numeral of [n], as [toStringRadix 10] prints it: an
    optional minus sign and the digits of the absolute value. *)
Lemma toStringRadix_decimal (n : Z) :
  exists ds : string,
    toStringRadix 10 n = (if (n <? 0)%Z then "-" else "") +:+ ds
    /\ ds <> ""
    /\ everyChar JSON.isDigit ds = true
    /\ JSON.decimal 0 ds = Z.abs n.
Proof.
  unfold toStringRadix.
  destruct (digitsRadix_decimal (Z.to_nat (Z.log2 (Z.abs n))) (Z.abs n) ""
              ltac:(split; [lia|apply log2_fuel; lia]))
    as (ds & -> & Hne & Hds & Hval).
  exists ds. by rewrite append_nil_r.
Qed.

Lemma parseInt_numeral (ws tail : string) (n : Z) :
  everyChar isWhiteSpace ws = true ->
  endsNumeral tail = true ->
  parseInt (ws +:+ toStringRadix 10 n +:+ tail) = Some n.
Proof.
  intros Hws Htail. unfold parseInt. rewrite trimStart_blank by done.
  destruct (toStringRadix_decimal n) as (ds & -> & Hne & Hds & Hval).
  destruct ds as [|c ds]; [done|].
  pose proof Hds as Hc. cbn [everyChar] in Hc. apply andb_true_iff in Hc as [Hc _].
  destruct (digit_is_plain c Hc) as (Hw & Hminus & Hplus).
  destruct (Z.ltb_spec n 0).
  - rewrite append_assoc, append_cons, append_nil. cbn [trimStart].
    change (isWhiteSpace "-") with false. cbn iota.
    change (Ascii.eqb "-" "-") with true. cbn iota.
    rewrite leadingDigits_numeral by done. cbn [default option_map].
    rewrite Hval. f_equal. lia.
  - rewrite append_nil, append_cons. cbn [trimStart]. rewrite Hw, Hminus, Hplus.
    rewrite <- append_cons, leadingDigits_numeral by done. cbn [default option_map].
    rewrite Hval. f_equal. lia.
Qed.

(** A setting that starts with a decimal numeral, after white space if any
    and before anything that is not a digit, is read as the number that
    the numeral denotes, negative numbers and zero included: no range is
    imposed on the limit or on the window, and what follows the numeral is
    ignored. *)
Theorem getNumber_reads_leading_numeral :
  forall (env : gmap string string) (key : string) (defaultValue : Z)
         (ws tail : string) (n : Z),
    everyChar isWhiteSpace ws = true ->
    endsNumeral tail = true ->
    (Z.abs n < 2 ^ 53)%Z ->
    env !! key = Some (ws +:+ toStringRadix 10 n +:+ tail) ->
    getNumber env key defaultValue = n.
Proof.
  intros env key defaultValue ws tail n Hws Htail _ Henv.
  unfold getNumber. by rewrite Henv, parseInt_numeral.
Qed.

Lemma getNumber_reads_leading_numeral_witness :
  rateLimitMax (parseEnv {[ "PUBLIC_RATE_LIMIT_MAX" := " -3 per minute" ]}) = (-3)%Z.
Proof.
  apply (getNumber_reads_leading_numeral
           {[ "PUBLIC_RATE_LIMIT_MAX" := " -3 per minute" ]}
           "PUBLIC_RATE_LIMIT_MAX" 10 " " " per minute" (-3)).
  - reflexivity.
  - reflexivity.
  - vm_compute. reflexivity.
  - vm_compute. reflexivity.
Defined.

(** ** The results that the endpoint hands out *)

(** The size of a file of a kibibyte or more is shown in tenths of the
    unit, rounded to the nearest tenth: the figure is off by at most a
    twentieth of the unit, it lies between 1.0 and 1024.0 for kibibytes,
    the upper end included, and is at least 1.0 for mebibytes.  A smaller
    size is shown in bytes. *)
Theorem formatFileSize_rounds_to_tenths :
  forall bytes : Z,
    (0 <= bytes < 2 ^ 53)%Z ->
    (bytes < 1024 -> formatFileSize bytes = toStringRadix 10 bytes +:+ " B")%Z
    /\ (1024 <= bytes < 1024 * 1024 ->
        exists n : Z,
          formatFileSize bytes = tenths n +:+ " KB"
          /\ 10 <= n <= 10240
          /\ - 512 < 1024 * n - 10 * bytes <= 512)%Z
    /\ (1024 * 1024 <= bytes ->
        exists n : Z,
          formatFileSize bytes = tenths n +:+ " MB"
          /\ 10 <= n
          /\ - 524288 < 1048576 * n - 10 * bytes <= 524288)%Z.
Proof.
  intros bytes Hbytes. unfold formatFileSize.
  split; [|split].
  - intros H. by destruct (Z.ltb_spec bytes 1024); [|lia].
  - intros H. destruct (Z.ltb_spec bytes 1024); [lia|].
    destruct (Z.ltb_spec bytes (1024 * 1024)); [|lia].
    exists ((2 * 10 * bytes + 1024) / (2 * 1024))%Z. split; [done|].
    pose proof (Z.div_mod (2 * 10 * bytes + 1024) (2 * 1024) ltac:(lia)).
    pose proof (Z.mod_pos_bound (2 * 10 * bytes + 1024) (2 * 1024) ltac:(lia)).
    lia.
  - intros H. destruct (Z.ltb_spec bytes 1024); [lia|].
    destruct (Z.ltb_spec bytes (1024 * 1024)); [lia|].
    exists ((2 * 10 * bytes + 1024 * 1024) / (2 * (1024 * 1024)))%Z. split; [done|].
    pose proof (Z.div_mod (2 * 10 * bytes + 1024 * 1024) (2 * (1024 * 1024)) ltac:(lia)).
    pose proof (Z.mod_pos_bound (2 * 10 * bytes + 1024 * 1024) (2 * (1024 * 1024))
                  ltac:(lia)).
    lia.
Qed.

Lemma formatFileSize_rounds_to_tenths_witness :
  exists n : Z,
    formatFileSize 1048575 = tenths n +:+ " KB"
    /\ (10 <= n <= 10240)%Z
    /\ (- 512 < 1024 * n - 10 * 1048575 <= 512)%Z.
Proof.
  refine (proj1 (proj2 (formatFileSize_rounds_to_tenths 1048575 _)) _).
  - vm_compute. by split.
  - vm_compute. by split.
Defined.

Lemma encodeURIComponent_cons (c : ascii) (s : string) :
  encodeURIComponent (String c s)
  = encodeURIComponent (String c "") +:+ encodeURIComponent s.
Proof.
  cbn [encodeURIComponent]. unfold FormUrlencoded.utf8.
  destruct (Nat.ltb (code c) 128); cbn [fold_right];
    by rewrite ?append_nil_r, ?append_assoc.
Qed.

Lemma encodeURIComponent_safe (s : string) :
  everyChar isUriSafe (encodeURIComponent s) = true.
Proof.
  induction s as [|c s IH]; [done|].
  rewrite encodeURIComponent_cons, everyChar_app, IH, andb_true_r.
  revert c. apply forall_ascii. by vm_compute.
Qed.

Lemma hasHyphen_field (a d : string) : hasHyphen (a +:+ "-" +:+ d) = true.
Proof.
  unfold hasHyphen. rewrite everyChar_app.
  change ("-" +:+ d) with (String "-" d). cbn [everyChar].
  change (Ascii.eqb "-" "-") with true. cbn [negb andb]. by rewrite andb_false_r.
Qed.

Lemma lastField_field (a d : string) :
  hasHyphen d = false -> lastField (a +:+ "-" +:+ d) = d.
Proof.
  intros Hd. induction a as [|c a IH].
  - rewrite append_nil. change ("-" +:+ d) with (String "-" d).
    cbn [lastField]. rewrite Hd. by change (Ascii.eqb "-" "-") with true.
  - rewrite append_cons. cbn [lastField]. by rewrite hasHyphen_field.
Qed.

Lemma lastField_id (p a d : string) :
  hasHyphen d = false -> lastField (p +:+ "-" +:+ a +:+ "-" +:+ d) = d.
Proof.
  intros Hd.
  replace (p +:+ "-" +:+ a +:+ "-" +:+ d) with ((p +:+ "-" +:+ a) +:+ "-" +:+ d)
    by (by rewrite !append_assoc).
  by apply lastField_field.
Qed.

Lemma digits_no_hyphen (ds : string) :
  everyChar JSON.isDigit ds = true -> hasHyphen ds = false.
Proof.
  intros H. unfold hasHyphen. apply negb_false_iff.
  induction ds as [|c ds IH]; [done|].
  cbn [everyChar] in *. apply andb_true_iff in H as [Hc Hds].
  destruct (digit_is_plain c Hc) as (_ & -> & _). by rewrite IH.
Qed.

(** The decimal numerals of two natural numbers are equal only if the
    numbers are, and hold no hyphen. *)
Lemma index_numeral (i : nat) :
  hasHyphen (toStringRadix 10 (Z.of_nat i)) = false
  /\ JSON.decimal 0 (toStringRadix 10 (Z.of_nat i)) = Z.of_nat i.
Proof.
  destruct (toStringRadix_decimal (Z.of_nat i)) as (ds & -> & _ & Hds & Hval).
  destruct (Z.ltb_spec (Z.of_nat i) 0); [lia|]. rewrite append_nil.
  split; [by apply digits_no_hyphen|]. rewrite Hval. lia.
Qed.

(** The results of one reply: as many as the reply has formats, each for
    the URL that was asked for; the download address only differs from one
    request to the other in its one query value, in which everything but
    the unreserved characters is escaped, so that nothing in the URL can
    add a parameter or a fragment; and no two results carry the same
    [id]. *)
Theorem transformed_results :
  forall (RUST_API_URL : string) (now : nat -> Z)
         (rustResponse : RustExtractResponse.t) (originalUrl : string),
    let results := transformRustResponse RUST_API_URL now rustResponse originalUrl in
    List.length results = List.length (RustExtractResponse.formats rustResponse)
    /\ (forall (index : nat) (result : DownloadResult.t),
           results !! index = Some result ->
           DownloadResult.url result = originalUrl
           /\ exists value : string,
               DownloadResult.downloadUrl result
               = RUST_API_URL +:+ "/api/download?url=" +:+ value
               /\ everyChar isUriSafe value = true)
    /\ (forall (i j : nat) (a b : DownloadResult.t),
           results !! i = Some a -> results !! j = Some b ->
           DownloadResult.id a = DownloadResult.id b -> i = j).
Proof.
  intros RUST_API_URL now rustResponse originalUrl. cbv zeta.
  unfold transformRustResponse. split; [by rewrite length_imap|]. split.
  - intros index result. rewrite list_lookup_imap.
    destruct (RustExtractResponse.formats rustResponse !! index) as [format|];
      [|done].
    intros [= <-]. cbn [DownloadResult.url DownloadResult.downloadUrl].
    split; [done|]. eexists. split; [done|]. apply encodeURIComponent_safe.
  - intros i j a b. rewrite !list_lookup_imap.
    destruct (RustExtractResponse.formats rustResponse !! i) as [fi|]; [|done].
    destruct (RustExtractResponse.formats rustResponse !! j) as [fj|]; [|done].
    intros [= <-] [= <-]. cbn [DownloadResult.id]. intros Hid.
    apply (f_equal lastField) in Hid.
    destruct (index_numeral i) as [Hi Hvi]. destruct (index_numeral j) as [Hj Hvj].
    rewrite !lastField_id in Hid by done.
    rewrite Hid in Hvi. lia.
Qed.

(** A label with one of the two resolutions in it is [hd] whatever else it
    says, and a label that says audio in any casing is never [sd]. *)
Theorem parseQuality_resolution_wins :
  (forall before after : string,
      parseQuality (before +:+ "1080" +:+ after) = "hd"
      /\ parseQuality (before +:+ "720" +:+ after) = "hd")
  /\ (forall before word after : string,
         toLowerCase word = "audio" ->
         parseQuality (before +:+ word +:+ after) <> "sd").
Proof.
  split.
  - intros before after. unfold parseQuality. rewrite !toLowerCase_app.
    change (toLowerCase "1080") with "1080". change (toLowerCase "720") with "720".
    rewrite !includes_middle. by rewrite orb_true_r.
  - intros before word after Hword. unfold parseQuality.
    rewrite !toLowerCase_app, Hword, (includes_middle _ "audio").
    by destruct (_ || _ || _ || _).
Qed.

(** ** The download endpoint *)

Lemma checkRateLimit_cases (config : EnvConfig) (clientId : string) (now : Z)
      (server : Server) :
  (Result.allowed (checkRateLimit config clientId now server).1 = true
   /\ Result.resetTime (checkRateLimit config clientId now server).1 = None)
  \/ (Result.allowed (checkRateLimit config clientId now server).1 = false
      /\ (checkRateLimit config clientId now server).2 = server
      /\ exists t : Z,
          Result.resetTime (checkRateLimit config clientId now server).1 = Some t
          /\ (now <= t)%Z
          /\ (is_Some (persistent server) -> (now < t)%Z)).
Proof.
  unfold checkRateLimit. destruct server as [[[rl disk]|] counts];
    cbn [persistent requestCounts].
  - destruct (store rl !! clientId) as [e|] eqn:H.
    + destruct (Z.le_gt_cases (resetTime e) now).
      * left. destruct (isInherited clientId) eqn:Hi.
        -- by rewrite (check_inherited_expired _ _ _ _ e) by done.
        -- by rewrite (check_expired _ _ _ _ e) by done.
      * destruct (Z.le_gt_cases (max rl) (count e)).
        -- right. rewrite (check_rejected _ _ _ _ e) by (done || lia).
           cbn [fst snd Result.allowed Result.resetTime].
           split; [done|]. split; [done|]. exists (resetTime e).
           split; [done|]. split; [lia|done].
        -- left. by rewrite (check_increment _ _ _ _ e) by (done || lia).
    + left. destruct (isInherited clientId) eqn:Hi.
      * by rewrite check_inherited_absent by done.
      * by rewrite check_absent by done.
  - unfold checkRateLimitFallback.
    destruct (counts !! clientId) as [e|] eqn:H; [|by left].
    destruct (Z.gtb_spec now (resetTime e)); [by left|].
    destruct (Z.geb_spec (count e) (rateLimitMax config)); [|by left].
    right. cbn [fst snd Result.allowed Result.resetTime].
    split; [done|]. split; [done|]. exists (resetTime e).
    split; [done|]. split; [done|]. by intros [? [=]].
Qed.

Lemma verdict_valid (new_URL : string -> option URL) (DEV : bool) (url : string)
      (userAgent : option string) :
  Verdict.valid (validateDownloadRequest new_URL DEV url userAgent).1
  = isValid (validate new_URL url).
Proof.
  unfold validateDownloadRequest. by destruct (isValid (validate new_URL url)).
Qed.

Section EndpointProperties.

Variable new_URL : string -> option URL.
Variable DEV : bool.
Variable RUST_API_URL : string.
Variable config : EnvConfig.
Variable fetch : string -> string -> completion Reply.t.

Lemma unexpected_status (errorId : string) (error : JsError) :
  (Response.status (unexpected errorId error) = 500%Z
   \/ Response.status (unexpected errorId error) = 503%Z)
  /\ Response.body (unexpected errorId error)
     = Body.Failure
         (match Response.body (unexpected errorId error) with
          | Body.Failure message _ _ => message
          | Body.Success _ _ => ""
          end) None None.
Proof. unfold unexpected. destruct (_ && _); cbn; by split; [(by left) || by right|]. Qed.

Lemma forward_call (now : nat -> Z) (errorId : string) (rateLimitCheck : Result.t)
      (url : string) :
  (forward RUST_API_URL fetch now errorId rateLimitCheck url).2
  = Some (RUST_API_URL +:+ "/api/extract",
          JSON.stringify (JSON.Object [("url", JSON.Str (trim url))])).
Proof.
  unfold forward.
  destruct (fetch _ _) as [rustResponse|]; [|done].
  destruct (Reply.json rustResponse) as [rustData|]; [|done].
  by destruct (_ || _).
Qed.

(** The response of [forward]: its status, and when it is a success. *)
Lemma forward_response (now : nat -> Z) (errorId : string) (rateLimitCheck : Result.t)
      (url : string) :
  let response := (forward RUST_API_URL fetch now errorId rateLimitCheck url).1 in
  (200 <= Response.status response <= 599)%Z
  /\ ((exists message received platform,
          Response.body response = Body.Failure message received platform)
      /\ Response.status response <> 200%Z
      \/ Response.status response = 200%Z
         /\ header "X-RateLimit-Reset" response
            = Some (match Result.resetTime rateLimitCheck with
                    | Some t => toStringRadix 10 t
                    | None => ""
                    end)
         /\ exists results platform,
             Response.body response = Body.Success results platform
             /\ results <> []).
Proof.
  cbv zeta. unfold forward.
  destruct (fetch _ _) as [rustResponse|error]; cbn [fst].
  2:{ destruct (unexpected_status errorId error) as [Hs Hb].
      split; [lia|]. left. split; [eauto|lia]. }
  destruct (Reply.json rustResponse) as [rustData|error]; cbn [fst].
  2:{ destruct (unexpected_status errorId error) as [Hs Hb].
      split; [lia|]. left. split; [eauto|lia]. }
  destruct (negb (RustExtractResponse.success rustData)
            || Nat.eqb (List.length (RustExtractResponse.formats rustData)) 0)
    eqn:Hfailed; cbn [fst].
  - destruct (statusTakesBody _) eqn:Hstatus.
    + cbn [Response.status Response.body]. unfold statusTakesBody in Hstatus.
      apply andb_true_iff in Hstatus as [Hrange _].
      apply andb_true_iff in Hrange as [Hlo Hhi].
      split; [lia|]. left. split; [eauto|].
      unfold Reply.ok in *.
      destruct (Z.leb_spec 200 (Reply.status rustResponse));
        destruct (Z.leb_spec (Reply.status rustResponse) 299);
        cbn [andb] in *; lia.
    + destruct (unexpected_status errorId statusError) as [Hs Hb].
      split; [lia|]. left. split; [eauto|lia].
  - cbn [Response.status Response.body]. split; [lia|]. right.
    split; [done|]. split; [done|]. eexists _, _. split; [done|].
    apply orb_false_iff in Hfailed as [_ Hformats].
    apply Nat.eqb_neq in Hformats. intros Hnil.
    apply (f_equal (@List.length _)) in Hnil.
    unfold transformRustResponse in Hnil. rewrite length_imap in Hnil.
    by apply Hformats.
Qed.

End EndpointProperties.

(** A request that announces more than ten kibibytes is refused before the
    limiter hears of it.  Every other request is counted against its
    client, once, before its body is read: the limiters are left as one
    [checkRateLimit] leaves them whether the body is malformed, the URL is
    missing or invalid, or the extraction service fails. *)
Theorem requests_are_counted_before_they_are_read :
  forall (new_URL : string -> option URL) (DEV : bool) (RUST_API_URL : string)
         (config : EnvConfig) (fetch : string -> string -> completion Reply.t)
         (now : nat -> Z) (errorId : string) (request : Request.t) (server : Server),
    let out := POST new_URL DEV RUST_API_URL config fetch now errorId request server in
    let clientId := getClientId (Request.headers request) in
    (tooLarge (contentLength (Request.headers request)) = true ->
     Response.status out.1.1 = 413%Z /\ out.1.2 = server /\ out.2 = None)
    /\ (tooLarge (contentLength (Request.headers request)) = false ->
        out.1.2 = (checkRateLimit config clientId (now 0) server).2)
    /\ (forall n : Z,
           (Z.abs n < 2 ^ 53)%Z ->
           tooLarge (Some (toStringRadix 10 n)) = (n >? 10 * 1024)%Z).
Proof.
  intros new_URL DEV RUST_API_URL config fetch now errorId request server.
  cbv zeta. unfold POST. split; [|split].
  - by intros ->.
  - intros ->.
    destruct (checkRateLimit config _ (now 0) server) as [rateLimitCheck server'].
    cbn [snd]. destruct (negb (Result.allowed rateLimitCheck)); [done|].
    destruct (Request.json request) as [requestBody|]; [|done].
    destruct (getProperty requestBody "url") as [[url|]|]; [|done|done].
    destruct url as [| |z|[|c s]| |]; try done.
    destruct (negb (Verdict.valid _)); [done|].
    by destruct (forward _ _ _ _ _ _).
  - intros n _. unfold tooLarge.
    pose proof (parseInt_numeral "" "" n eq_refl eq_refl) as Hparse.
    rewrite append_nil, append_nil_r in Hparse.
    destruct (toStringRadix_decimal n) as (ds & Hn & Hne & _).
    destruct (toStringRadix 10 n) as [|c s] eqn:Htext.
    + destruct (n <? 0)%Z; [done|]. rewrite append_nil in Hn. by subst ds.
    + cbn [present]. by rewrite Hparse.
Qed.

(** The extraction service is called only for a client that the limiter
    admitted and for a URL that [validate] accepts: the body of the request
    is an object whose [url] is a string that parses, uses http or https,
    names a platform and holds a content ID.  What the service is sent is
    that URL, trimmed, to the extraction path. *)
Theorem service_is_called_for_valid_urls_only :
  forall (new_URL : string -> option URL) (DEV : bool) (RUST_API_URL : string)
         (config : EnvConfig) (fetch : string -> string -> completion Reply.t)
         (now : nat -> Z) (errorId : string) (request : Request.t) (server : Server)
         (target sent : string),
    (POST new_URL DEV RUST_API_URL config fetch now errorId request server).2
    = Some (target, sent) ->
    Result.allowed
      (checkRateLimit config (getClientId (Request.headers request)) (now 0) server).1
    = true
    /\ exists (requestBody : JSON.value) (url : string) (u : URL)
              (p : SupportedPlatform) (id : string),
        Request.json request = Return requestBody
        /\ getProperty requestBody "url" = Return (Some (JSON.Str url))
        /\ new_URL (trim url) = Some u
        /\ arrayIncludes ["http:"; "https:"] (protocol u) = true
        /\ detectPlatform (trim url) = Some p
        /\ extractContentId new_URL (trim url) p = Some id
        /\ target = RUST_API_URL +:+ "/api/extract"
        /\ sent = JSON.stringify (JSON.Object [("url", JSON.Str (trim url))]).
Proof.
  intros new_URL DEV RUST_API_URL config fetch now errorId request server target sent.
  unfold POST.
  destruct (tooLarge _); [done|].
  destruct (checkRateLimit config _ (now 0) server) as [rateLimitCheck server'].
  cbn [fst]. destruct (Result.allowed rateLimitCheck); [|done]. cbn [negb].
  destruct (Request.json request) as [requestBody|]; [|done].
  destruct (getProperty requestBody "url") as [[url|]|] eqn:Hurl; [|done|done].
  destruct url as [| |z|[|c s]| |]; try done.
  rewrite verdict_valid.
  destruct (validate_verdict new_URL (String c s)) as [Hvalid _].
  destruct (isValid (validate new_URL (String c s))); [|done]. cbn [negb].
  destruct (Hvalid eq_refl) as (u & p & id & Hu & Hprotocol & Hp & Hid & _).
  pose proof (forward_call RUST_API_URL fetch now errorId rateLimitCheck (String c s))
    as Hcall.
  destruct (forward _ _ _ _ _ _) as [response call]. cbn [snd] in *.
  intros Hsent. rewrite Hcall in Hsent. injection Hsent as <- <-.
  split; [done|]. by exists requestBody, (String c s), u, p, id.
Qed.

Lemma service_is_called_for_valid_urls_only_witness :
  Result.allowed
    (checkRateLimit sampleConfig (getClientId sampleHeaders) 1000 freshServer).1 = true.
Proof.
  refine (proj1 (service_is_called_for_valid_urls_only
                   node_URL false "http://localhost:3001" sampleConfig unreachable
                   (fun _ => 1000%Z) "k3x9q0z1a" sampleRequest freshServer
                   ("http://localhost:3001" +:+ "/api/extract")
                   (JSON.stringify
                      (JSON.Object
                         [("url", JSON.Str "https://x.com/user/status/9876543210")]))
                   _)).
  vm_compute. reflexivity.
Defined.

(** Every response has a status from 200 to 599; the status is 200 exactly
    when the body reports success, and then the results are not empty and
    the [X-RateLimit-Reset] header is empty: a request that was let through
    is never told when its window ends. *)
Theorem success_is_status_200_without_reset_time :
  forall (new_URL : string -> option URL) (DEV : bool) (RUST_API_URL : string)
         (config : EnvConfig) (fetch : string -> string -> completion Reply.t)
         (now : nat -> Z) (errorId : string) (request : Request.t) (server : Server),
    let response :=
      (POST new_URL DEV RUST_API_URL config fetch now errorId request server).1.1 in
    (200 <= Response.status response <= 599)%Z
    /\ ((exists message received platform,
            Response.body response = Body.Failure message received platform)
        /\ Response.status response <> 200%Z
        \/ Response.status response = 200%Z
           /\ header "X-RateLimit-Reset" response = Some ""
           /\ exists results platform,
               Response.body response = Body.Success results platform
               /\ results <> []).
Proof.
  intros new_URL DEV RUST_API_URL config fetch now errorId request server.
  cbv zeta. unfold POST.
  destruct (tooLarge _); [by split; [|left; split; [eexists _, _, _|]]|].
  destruct (checkRateLimit_cases config (getClientId (Request.headers request)) (now 0)
              server) as [[Ha Hr]|(Ha & _)];
    destruct (checkRateLimit config _ (now 0) server) as [rateLimitCheck server'];
    cbn [fst snd] in *; rewrite Ha; cbn [negb];
    [|by split; [|left; split; [eexists _, _, _|]]].
  destruct (Request.json request) as [requestBody|];
    [|by split; [|left; split; [eexists _, _, _|]]].
  destruct (getProperty requestBody "url") as [[url|]|error].
  - destruct url as [| |z|[|c s]| |];
      try (by split; [|left; split; [eexists _, _, _|]]).
    destruct (negb (Verdict.valid _));
      [by split; [|left; split; [eexists _, _, _|]]|].
    pose proof (forward_response RUST_API_URL fetch now errorId rateLimitCheck
                  (String c s)) as H.
    cbv zeta in H. rewrite Hr in H.
    by destruct (forward _ _ _ _ _ _) as [response call].
  - by split; [|left; split; [eexists _, _, _|]].
  - destruct (unexpected_status errorId error) as [Hs Hb]. cbn [fst].
    split; [lia|]. left. split; [eauto|lia].
Qed.

(** A client that the limiter rejects is answered at once, with nothing
    changed and nothing sent on.  When the clock has not moved since the
    limiter read it, the minutes of [Retry-After] are never negative, and
    they are at least one when the persistent limiter gave the answer. *)
Theorem rejected_client_is_told_when_to_retry :
  forall (new_URL : string -> option URL) (DEV : bool) (RUST_API_URL : string)
         (config : EnvConfig) (fetch : string -> string -> completion Reply.t)
         (now : nat -> Z) (errorId : string) (request : Request.t) (server : Server),
    tooLarge (contentLength (Request.headers request)) = false ->
    Result.allowed
      (checkRateLimit config (getClientId (Request.headers request)) (now 0) server).1
    = false ->
    now 1 = now 0 -> now 2 = now 0 ->
    let out := POST new_URL DEV RUST_API_URL config fetch now errorId request server in
    Response.status out.1.1 = 429%Z
    /\ out.1.2 = server
    /\ out.2 = None
    /\ exists minutes : Z,
        header "Retry-After" out.1.1 = Some (toStringRadix 10 minutes)
        /\ (0 <= minutes)%Z
        /\ (is_Some (persistent server) -> 1 <= minutes)%Z.
Proof.
  intros new_URL DEV RUST_API_URL config fetch now errorId request server
         Hsize Hrejected H1 H2.
  cbv zeta. unfold POST. rewrite Hsize.
  destruct (checkRateLimit_cases config (getClientId (Request.headers request)) (now 0)
              server) as [[Ha _]|(_ & Hserver & t & Hr & Hle & Hlt)];
    [by rewrite Ha in Hrejected|].
  destruct (checkRateLimit config _ (now 0) server) as [rateLimitCheck server'].
  cbn [fst snd] in *. rewrite Hrejected, Hr. cbn [negb fst snd].
  split; [done|]. split; [done|]. split; [done|].
  unfold rateLimited. rewrite H1, H2.
  eexists. split; [reflexivity|].
  destruct (Z.eqb_spec t 0) as [->|Hne]; unfold ceilDiv.
  - replace (now 0%nat + 60000 - now 0%nat)%Z with 60000%Z by lia.
    split; [by vm_compute|]. intros _. by vm_compute.
  - split.
    + pose proof (Z.div_le_upper_bound (- (t - now 0%nat)) 60000 0
                    ltac:(lia) ltac:(lia)).
      lia.
    + intros Hpersistent. specialize (Hlt Hpersistent).
      pose proof (Z.div_lt_upper_bound (- (t - now 0%nat)) 60000 0
                    ltac:(lia) ltac:(lia)).
      lia.
Qed.

Lemma rejected_client_is_told_when_to_retry_witness :
  Response.status
    (POST node_URL false "http://localhost:3001" sampleConfig unreachable
          (fun _ => 2000%Z) "k3x9q0z1a" sampleRequest busyServer).1.1
  = 429%Z.
Proof.
  refine (proj1 (rejected_client_is_told_when_to_retry
                   node_URL false "http://localhost:3001" sampleConfig unreachable
                   (fun _ => 2000%Z) "k3x9q0z1a" sampleRequest busyServer _ _ _ _)).
  - vm_compute. reflexivity.
  - vm_compute. reflexivity.
  - reflexivity.
  - reflexivity.
Defined.

(** ** An invariant of the limiter *)

Lemma check_lookup_other (clientId other : string) (now : Z) (w : World) :
  other <> clientId ->
  store (check clientId now w).2.1 !! other = store w.1 !! other.
Proof.
  destruct w as [rl disk]. intros Hne. cbn [fst].
  destruct (store rl !! clientId) as [e|] eqn:H.
  - destruct (Z.le_gt_cases (resetTime e) now).
    + destruct (isInherited clientId) eqn:Hi.
      * rewrite (check_inherited_expired _ _ _ _ e) by done. cbn [snd].
        rewrite save_store. cbn [fst store setStore].
        by rewrite lookup_delete_ne.
      * rewrite (check_expired _ _ _ _ e) by done. cbn [snd].
        rewrite save_store. cbn [fst store setStore].
        by rewrite lookup_insert_ne, lookup_delete_ne.
    + destruct (Z.le_gt_cases (max rl) (count e)).
      * by rewrite (check_rejected _ _ _ _ e) by (done || lia).
      * rewrite (check_increment _ _ _ _ e) by (done || lia). cbn [snd].
        rewrite save_store. cbn [fst store setStore].
        by rewrite lookup_insert_ne.
  - destruct (isInherited clientId) eqn:Hi.
    + rewrite check_inherited_absent by done. cbn [snd]. by rewrite save_store.
    + rewrite check_absent by done. cbn [snd].
      rewrite save_store. cbn [fst store setStore].
      by rewrite lookup_insert_ne.
Qed.

Lemma call_config (c : Call) (now : Z) (w : World) :
  window (call c now w).1 = window w.1 /\ max (call c now w).1 = max w.1.
Proof.
  destruct c; cbn [call].
  - apply check_config.
  - destruct w as [rl disk]. unfold reset. by rewrite save_window, save_max.
  - apply cleanup_config.
  - by rewrite save_window, save_max.
  - unfold close. by rewrite save_window, save_max.
Qed.

Lemma call_withinLimit (c : Call) (now : Z) (w : World) :
  (1 <= max w.1)%Z -> withinLimit w.1 -> withinLimit (call c now w).1.
Proof.
  intros Hmax Hinv other e'. unfold withinLimit in Hinv.
  destruct (call_config c now w) as [_ ->].
  destruct c as [clientId|clientId| | |]; cbn [call].
  - destruct (decide (other = clientId)) as [->|Hne].
    + destruct (check_outcome clientId now w) as [_ ->]. cbv zeta.
      destruct (store w.1 !! clientId) as [e|] eqn:H.
      * specialize (Hinv clientId e H).
        destruct (now >=? resetTime e)%Z;
          [destruct (isInherited clientId); [done|]; intros [= <-]; cbn; lia|].
        destruct (Z.geb_spec (count e) (max w.1)); intros [= <-]; cbn; lia.
      * destruct (isInherited clientId); [done|]. intros [= <-]. cbn. lia.
    + rewrite check_lookup_other by done. apply Hinv.
  - destruct w as [rl disk]. unfold reset. rewrite save_store.
    cbn [fst store setStore] in *.
    destruct (decide (other = clientId)) as [->|Hne].
    + by rewrite lookup_delete_eq.
    + rewrite lookup_delete_ne by done. apply Hinv.
  - rewrite cleanup_lookup. destruct (store w.1 !! other) as [e|] eqn:H; [|done].
    destruct (now >=? resetTime e)%Z; [done|]. intros [= <-]. by apply (Hinv other).
  - rewrite save_store. apply Hinv.
  - unfold close. rewrite save_store. apply Hinv.
Qed.

(** Whatever calls reach a limiter whose limit is at least one, in whatever
    order and at whatever times, every entry of its store keeps a count
    between one and the limit, and the limit and the window stay what they
    were. *)
Theorem counts_stay_within_limit :
  forall (cs : list (Call * Z)) (w : World),
    (1 <= max w.1)%Z ->
    withinLimit w.1 ->
    withinLimit (calls cs w).1
    /\ max (calls cs w).1 = max w.1
    /\ window (calls cs w).1 = window w.1.
Proof.
  induction cs as [|[c now] cs IH]; intros w Hmax Hinv; [done|].
  cbn [calls].
  destruct (call_config c now w) as [Hwindow Hmax'].
  destruct (IH (call c now w)) as (H1 & H2 & H3).
  - by rewrite Hmax'.
  - by apply call_withinLimit.
  - by rewrite H2, H3.
Qed.

Lemma counts_stay_within_limit_witness :
  exists e : RateLimitData,
    store
      (calls [(CallCheck "1a2b", 1000%Z); (CallCheck "1a2b", 1001%Z);
              (CallCheck "77d0e63f", 1002%Z); (CallCheck "1a2b", 1003%Z);
              (CallCleanup, 30000%Z); (CallReset "77d0e63f", 30001%Z);
              (CallCheck "1a2b", 30002%Z); (CallClose, 30003%Z)]
             (new_RateLimiter emptyDisk sampleDbPath 60000 2, emptyDisk)).1
    !! "1a2b" = Some e
    /\ (1 <= count e <= 2)%Z.
Proof.
  eexists. split; [vm_compute; reflexivity|].
  refine (proj1 (counts_stay_within_limit
                   [(CallCheck "1a2b", 1000%Z); (CallCheck "1a2b", 1001%Z);
                    (CallCheck "77d0e63f", 1002%Z); (CallCheck "1a2b", 1003%Z);
                    (CallCleanup, 30000%Z); (CallReset "77d0e63f", 30001%Z);
                    (CallCheck "1a2b", 30002%Z); (CallClose, 30003%Z)]
                   (new_RateLimiter emptyDisk sampleDbPath 60000 2, emptyDisk) _ _)
                "1a2b" _ _).
  - vm_compute. discriminate.
  - intros clientId e H. vm_compute in H. discriminate.
  - vm_compute. reflexivity.
Defined.

(** ** The endpoint and the page together *)

Lemma unexpected_shown (errorId : string) (error : JsError) :
  exists message : string,
    Response.body (unexpected errorId error) = Body.Failure message None None
    /\ message <> ""
    /\ handleDownload_shown (unexpected errorId error) = ShownError message.
Proof. unfold unexpected. destruct (_ && _); by eexists. Qed.

Lemma failure_shown (status : Z) (c : ascii) (message : string)
      (received platform : option string) :
  ((200 <=? status)%Z && (status <=? 299)%Z) = false ->
  handleDownload_shown
    (Response.mk status jsonHeaders (Body.Failure (String c message) received platform))
  = ShownError (String c message).
Proof. intros H. unfold handleDownload_shown. cbn [Response.status]. by rewrite H. Qed.

(** Whatever the endpoint answers, the page shows either the results of a
    successful answer, of which there is at least one, or the error message
    of the answer itself, which is never empty: the page never shows an
    empty list of results, and never needs a message of its own for an
    answer of the endpoint. *)
Theorem page_shows_results_or_the_endpoints_message :
  forall (new_URL : string -> option URL) (DEV : bool) (RUST_API_URL : string)
         (config : EnvConfig) (fetch : string -> string -> completion Reply.t)
         (now : nat -> Z) (errorId : string) (request : Request.t) (server : Server),
    let response :=
      (POST new_URL DEV RUST_API_URL config fetch now errorId request server).1.1 in
    (exists results platform,
        Response.body response = Body.Success results platform
        /\ results <> []
        /\ handleDownload_shown response = ShownResults results)
    \/ (exists message received platform,
           Response.body response = Body.Failure message received platform
           /\ message <> ""
           /\ handleDownload_shown response = ShownError message).
Proof.
  intros new_URL DEV RUST_API_URL config fetch now errorId request server.
  cbv zeta. unfold POST.
  destruct (tooLarge _); [right; by eexists _, _, _|].
  destruct (checkRateLimit config _ (now 0) server) as [rateLimitCheck server'].
  destruct (negb (Result.allowed rateLimitCheck)).
  { right. cbn [fst]. unfold rateLimited. by eexists _, _, _. }
  destruct (Request.json request) as [requestBody|]; [|right; by eexists _, _, _].
  destruct (getProperty requestBody "url") as [[url|]|error].
  - destruct url as [|b|z|[|c s]|items|members];
      try (right; cbn [fst]; destruct (truthy _); by eexists _, _, _).
    pose proof (validate_verdict new_URL (String c s)) as [_ Hinvalid].
    unfold validateDownloadRequest.
    destruct (isValid (validate new_URL (String c s))); cbn [negb fst Verdict.valid].
    2:{ right. cbn [Verdict.error present].
        specialize (Hinvalid eq_refl).
        destruct (join ", " (errors (validate new_URL (String c s)))) as [|a m];
          [done|]. by eexists _, _, _. }
    unfold forward.
    destruct (fetch _ _) as [rustResponse|error]; cbn [fst].
    2:{ right. destruct (unexpected_shown errorId error) as (m & -> & ? & ->).
        by eexists _, _, _. }
    destruct (Reply.json rustResponse) as [rustData|error]; cbn [fst].
    2:{ right. destruct (unexpected_shown errorId error) as (m & -> & ? & ->).
        by eexists _, _, _. }
    destruct (negb (RustExtractResponse.success rustData)
              || Nat.eqb (List.length (RustExtractResponse.formats rustData)) 0)
      eqn:Hfailed; cbn [fst].
    + right. destruct (statusTakesBody _) eqn:Hstatus.
      2:{ destruct (unexpected_shown errorId statusError) as (m & -> & ? & ->).
          by eexists _, _, _. }
      assert (((200 <=? (if Reply.ok rustResponse then 500 else Reply.status rustResponse))
               && ((if Reply.ok rustResponse then 500 else Reply.status rustResponse)
                   <=? 299))%Z = false) as Hok.
      { unfold Reply.ok.
        by destruct ((200 <=? Reply.status rustResponse)%Z
                     && (Reply.status rustResponse <=? 299)%Z) eqn:E. }
      destruct (present (RustExtractResponse.error rustData)) as [[|a m]|] eqn:Herror.
      * by destruct (RustExtractResponse.error rustData) as [[|]|].
      * eexists _, _, _. split; [done|]. split; [done|]. by apply failure_shown.
      * eexists _, _, _. split; [done|]. split; [done|]. by apply failure_shown.
    + left. eexists _, _. split; [done|]. split; [|done].
      apply orb_false_iff in Hfailed as [_ Hformats].
      apply Nat.eqb_neq in Hformats. intros Hnil.
      apply (f_equal (@List.length _)) in Hnil.
      unfold transformRustResponse in Hnil. rewrite length_imap in Hnil.
      by apply Hformats.
  - right. cbn [fst]. by eexists _, _, _.
  - right. cbn [fst]. destruct (unexpected_shown errorId error) as (m & -> & ? & ->).
    by eexists _, _, _.
Qed.

(** * Properties of the URL parser: what it wrote, it reads back *)

(** ** Texts and their pieces *)

Lemma everyChar_impl (p q : ascii -> bool) (s : string) :
  (forall c, p c = true -> q c = true) -> everyChar p s = true -> everyChar q s = true.
Proof.
  intros Hpq. induction s as [|c s IH]; [done|]. cbn [everyChar].
  intros H. apply andb_true_iff in H as [Hc Hs]. by rewrite (Hpq c Hc), IH.
Qed.

Lemma forallS_everyChar (p : ascii -> bool) (s : string) :
  WhatwgURL.forallS p s = everyChar p s.
Proof. induction s as [|c s IH]; [done|]. cbn. by rewrite IH. Qed.

Lemma breakS_app (p : ascii -> bool) (a b : string) :
  everyChar (fun c => negb (p c)) a = true ->
  match b with EmptyString => true | String c _ => p c end = true ->
  WhatwgURL.breakS p (a +:+ b) = (a, b).
Proof.
  intros Ha Hb. induction a as [|c a IH].
  - rewrite append_nil. destruct b as [|c b]; [done|]. cbn. by rewrite Hb.
  - cbn [everyChar] in Ha. apply andb_true_iff in Ha as [Hc Ha].
    rewrite append_cons. cbn [WhatwgURL.breakS].
    apply negb_true_iff in Hc. by rewrite Hc, IH.
Qed.

Lemma splitOn_nonempty (p : ascii -> bool) (s : string) : WhatwgURL.splitOn p s <> [].
Proof.
  induction s as [|c s IH]; [done|]. cbn [WhatwgURL.splitOn].
  destruct (p c); [done|]. by destruct (WhatwgURL.splitOn p s).
Qed.

Lemma splitOn_single (p : ascii -> bool) (a : string) :
  everyChar (fun c => negb (p c)) a = true -> WhatwgURL.splitOn p a = [a].
Proof.
  induction a as [|c a IH]; [done|]. cbn [everyChar]. intros H.
  apply andb_true_iff in H as [Hc Ha]. apply negb_true_iff in Hc.
  cbn [WhatwgURL.splitOn]. by rewrite Hc, IH.
Qed.

Lemma splitOn_app (p : ascii -> bool) (a : string) (c : ascii) (b : string) :
  everyChar (fun c => negb (p c)) a = true ->
  p c = true ->
  WhatwgURL.splitOn p (a +:+ String c b) = a :: WhatwgURL.splitOn p b.
Proof.
  intros Ha Hc. induction a as [|x a IH].
  - rewrite append_nil. cbn [WhatwgURL.splitOn]. by rewrite Hc.
  - cbn [everyChar] in Ha. apply andb_true_iff in Ha as [Hx Ha].
    apply negb_true_iff in Hx. rewrite append_cons. cbn [WhatwgURL.splitOn].
    by rewrite Hx, IH.
Qed.

Lemma mapS_app (f : ascii -> ascii) (a b : string) :
  WhatwgURL.mapS f (a +:+ b) = WhatwgURL.mapS f a +:+ WhatwgURL.mapS f b.
Proof.
  induction a as [|c a IH]; [by rewrite !append_nil|].
  rewrite append_cons. cbn [WhatwgURL.mapS]. by rewrite IH, append_cons.
Qed.

Lemma mapS_fixed (f : ascii -> ascii) (p : ascii -> bool) (s : string) :
  (forall c, p c = true -> f c = c) -> everyChar p s = true -> WhatwgURL.mapS f s = s.
Proof.
  intros Hf. induction s as [|c s IH]; [done|]. cbn [everyChar]. intros H.
  apply andb_true_iff in H as [Hc Hs]. cbn [WhatwgURL.mapS]. by rewrite (Hf c Hc), IH.
Qed.

(** A property of all bytes, from its check on each of them. *)
Lemma forall_byte (P : nat -> bool) :
  forallb P (seq 0 256) = true -> forall b, b < 256 -> P b = true.
Proof.
  intros H b Hb. rewrite forallb_forall in H. apply H. apply in_seq. lia.
Qed.

(** ** The query text reads back as the parameters *)

Lemma percentDecode_plain (c : ascii) (s : string) :
  WhatwgURL.isChar "%" c = false ->
  WhatwgURL.percentDecode (String c s) = code c :: WhatwgURL.percentDecode s.
Proof.
  intros H. cbn [WhatwgURL.percentDecode]. rewrite H.
  by destruct s as [|h [|l r]].
Qed.

Lemma percentDecode_escape (h l : ascii) (s : string) :
  WhatwgURL.isAsciiHexDigit h = true ->
  WhatwgURL.isAsciiHexDigit l = true ->
  WhatwgURL.percentDecode (String "%" (String h (String l s)))
  = (16 * WhatwgURL.hexValue h + WhatwgURL.hexValue l) :: WhatwgURL.percentDecode s.
Proof.
  intros Hh Hl. cbn [WhatwgURL.percentDecode]. rewrite Hh, Hl.
  by change (WhatwgURL.isChar "%" "%") with true.
Qed.

Lemma decode_byte (b : nat) (s : string) :
  b < 256 ->
  WhatwgURL.percentDecode (WhatwgURL.mapS plusToSpace (FormUrlencoded.encodeByte b +:+ s))
  = b :: WhatwgURL.percentDecode (WhatwgURL.mapS plusToSpace s).
Proof.
  intros Hb. pose proof (forall_byte decodes ltac:(by vm_compute) b Hb) as H.
  unfold decodes in H. unfold FormUrlencoded.encodeByte.
  destruct (Nat.eqb_spec b 32) as [->|_].
  - change ("+" +:+ s) with (String "+" s). cbn [WhatwgURL.mapS].
    change (plusToSpace "+") with " "%char. by rewrite percentDecode_plain.
  - destruct (FormUrlencoded.isUnreserved b).
    + apply andb_true_iff in H as [H H3]. apply andb_true_iff in H as [H1 H2].
      apply negb_true_iff in H1. apply negb_true_iff in H2. apply Nat.eqb_eq in H3.
      rewrite append_cons, append_nil. cbn [WhatwgURL.mapS].
      unfold plusToSpace at 1. rewrite H2, percentDecode_plain by done.
      by rewrite H3.
    + cbv zeta in H.
      apply andb_true_iff in H as [H H5]. apply andb_true_iff in H as [H H4].
      apply andb_true_iff in H as [H H3]. apply andb_true_iff in H as [H1 H2].
      apply negb_true_iff in H3. apply negb_true_iff in H4. apply Nat.eqb_eq in H5.
      unfold FormUrlencoded.percentByte. rewrite !append_cons, append_nil.
      cbn [WhatwgURL.mapS]. change (plusToSpace "%") with "%"%char.
      unfold plusToSpace at 1 2. rewrite H3, H4.
      rewrite percentDecode_escape by done. by rewrite H5.
Qed.

Lemma decode_bytes (bs : list nat) (rest s : string) :
  Forall (fun b => b < 256) bs ->
  WhatwgURL.percentDecode
    (WhatwgURL.mapS plusToSpace
       (fold_right (fun b acc => FormUrlencoded.encodeByte b +:+ acc) rest bs +:+ s))
  = (bs ++ WhatwgURL.percentDecode (WhatwgURL.mapS plusToSpace (rest +:+ s)))%list.
Proof.
  intros H. induction H as [|b bs Hb Hbs IH]; [reflexivity|].
  cbn [fold_right]. rewrite append_assoc, decode_byte by done. by rewrite IH.
Qed.

Lemma utf8_bytes (c : ascii) : Forall (fun b => b < 256) (FormUrlencoded.utf8 c).
Proof.
  pose proof (forall_ascii
    (fun c => forallb (fun b => Nat.ltb b 256) (FormUrlencoded.utf8 c))
    ltac:(by vm_compute) c) as H.
  cbn beta in H. rewrite forallb_forall in H. apply List.Forall_forall.
  intros b Hb. apply Nat.ltb_lt. by apply H.
Qed.

Lemma decode_encode (s rest : string) :
  WhatwgURL.percentDecode (WhatwgURL.mapS plusToSpace (FormUrlencoded.encode s +:+ rest))
  = (utf8Bytes s
     ++ WhatwgURL.percentDecode (WhatwgURL.mapS plusToSpace rest))%list.
Proof.
  induction s as [|c s IH]; [by rewrite append_nil|].
  cbn [FormUrlencoded.encode utf8Bytes].
  rewrite decode_bytes by apply utf8_bytes. by rewrite IH, <- app_assoc.
Qed.

Lemma utf8Decode_char (c : ascii) (bs : list nat) :
  WhatwgURL.utf8Decode (FormUrlencoded.utf8 c ++ bs)
  = option_map (String c) (WhatwgURL.utf8Decode bs).
Proof.
  pose proof (forall_ascii utf8Decodes ltac:(by vm_compute) c) as H.
  unfold utf8Decodes in H.
  destruct (FormUrlencoded.utf8 c) as [|b1 [|b2 [|b3 r]]]; [done| | |done].
  - apply andb_true_iff in H as [H1 H2]. apply Ascii.eqb_eq in H2.
    cbn [app WhatwgURL.utf8Decode]. by rewrite H1, H2.
  - apply andb_true_iff in H as [H H4]. apply andb_true_iff in H as [H H3].
    apply andb_true_iff in H as [H1 H2]. apply negb_true_iff in H1.
    apply Ascii.eqb_eq in H4.
    cbn [app WhatwgURL.utf8Decode]. by rewrite H1, H2, H3, H4.
Qed.

Lemma utf8Decode_encode (s : string) :
  WhatwgURL.utf8Decode (utf8Bytes s) = Some s.
Proof.
  induction s as [|c s IH]; [done|]. cbn [utf8Bytes].
  by rewrite utf8Decode_char, IH.
Qed.

Lemma formDecode_encode (s : string) :
  WhatwgURL.formDecode (FormUrlencoded.encode s) = Some s.
Proof.
  unfold WhatwgURL.formDecode.
  pose proof (decode_encode s "") as H. rewrite append_nil_r in H.
  fold plusToSpace. change (fun c => if WhatwgURL.isChar "+" c then " "%char else c)
    with plusToSpace.
  rewrite H. cbn [WhatwgURL.mapS WhatwgURL.percentDecode].
  rewrite app_nil_r. apply utf8Decode_encode.
Qed.

Lemma fold_every (p : ascii -> bool) (f : nat -> string) (bs : list nat) (rest : string) :
  Forall (fun b => everyChar p (f b) = true) bs ->
  everyChar p rest = true ->
  everyChar p (fold_right (fun b acc => f b +:+ acc) rest bs) = true.
Proof.
  intros H Hrest. induction H as [|b bs Hb Hbs IH]; [done|].
  cbn [fold_right]. by rewrite everyChar_app, Hb, IH.
Qed.

Lemma encode_formChar (s : string) : everyChar isFormChar (FormUrlencoded.encode s) = true.
Proof.
  induction s as [|c s IH]; [done|]. cbn [FormUrlencoded.encode].
  apply fold_every; [|done].
  eapply Forall_impl; [apply utf8_bytes|]. intros b Hb. cbn beta.
  apply (forall_byte (fun b => everyChar isFormChar (FormUrlencoded.encodeByte b))
           ltac:(by vm_compute) b Hb).
Qed.

Lemma formChar_facts (c : ascii) :
  isFormChar c = true ->
  WhatwgURL.isChar "&" c = false /\ WhatwgURL.isChar "=" c = false.
Proof.
  pose proof (forall_ascii
    (fun c => implb (isFormChar c)
                (negb (WhatwgURL.isChar "&" c) && negb (WhatwgURL.isChar "=" c)))
    ltac:(by vm_compute) c) as H.
  cbn beta in H. intros Hc. rewrite Hc in H. cbn [implb] in H.
  apply andb_true_iff in H as [H1 H2].
  by apply negb_true_iff in H1; apply negb_true_iff in H2.
Qed.

Lemma encode_no (d : ascii) (s : string) :
  isFormChar d = false ->
  everyChar (fun c => negb (WhatwgURL.isChar d c)) (FormUrlencoded.encode s) = true.
Proof.
  intros Hd. apply (everyChar_impl isFormChar); [|apply encode_formChar].
  intros c Hc. apply negb_true_iff. unfold WhatwgURL.isChar.
  destruct (Ascii.eqb_spec c d) as [->|]; [congruence|done].
Qed.

Lemma formPairs_pair (k v : string) (seqs : list string) :
  WhatwgURL.formPairs (FormUrlencoded.pair (k, v) :: seqs)
  = match WhatwgURL.formPairs seqs with
    | Some ps => Some ((k, v) :: ps)
    | None => None
    end.
Proof.
  unfold FormUrlencoded.pair. cbn [fst snd].
  change ("=" +:+ FormUrlencoded.encode v) with (String "=" (FormUrlencoded.encode v)).
  assert (WhatwgURL.breakS (WhatwgURL.isChar "=")
            (FormUrlencoded.encode k +:+ String "=" (FormUrlencoded.encode v))
          = (FormUrlencoded.encode k, String "=" (FormUrlencoded.encode v))) as Hbreak.
  { apply breakS_app; [by apply encode_no|done]. }
  destruct (FormUrlencoded.encode k +:+ String "=" (FormUrlencoded.encode v))
    as [|c r] eqn:E.
  { by destruct (FormUrlencoded.encode k). }
  cbn [WhatwgURL.formPairs]. rewrite Hbreak, !formDecode_encode.
  by destruct (WhatwgURL.formPairs seqs).
Qed.

Lemma pair_no_ampersand (kv : string * string) :
  everyChar (fun c => negb (WhatwgURL.isChar "&" c)) (FormUrlencoded.pair kv) = true.
Proof.
  unfold FormUrlencoded.pair. rewrite !everyChar_app, !encode_no by done. done.
Qed.

(** The form-urlencoded parser reads the serialised parameters back as
    they were. *)
Lemma parseQuery_serialize (ps : list (string * string)) :
  WhatwgURL.parseQuery (FormUrlencoded.serialize ps) = Some ps.
Proof.
  unfold WhatwgURL.parseQuery. induction ps as [|[k v] ps IH]; [done|].
  destruct ps as [|kv ps].
  - cbn [FormUrlencoded.serialize].
    rewrite splitOn_single by apply pair_no_ampersand.
    by rewrite formPairs_pair.
  - change (FormUrlencoded.serialize ((k, v) :: kv :: ps))
      with (FormUrlencoded.pair (k, v) +:+ "&" +:+ FormUrlencoded.serialize (kv :: ps)).
    change ("&" +:+ FormUrlencoded.serialize (kv :: ps))
      with (String "&" (FormUrlencoded.serialize (kv :: ps))).
    rewrite splitOn_app by (apply pair_no_ampersand || done).
    by rewrite formPairs_pair, IH.
Qed.

Lemma serialize_queryChar (ps : list (string * string)) :
  everyChar isQueryChar (FormUrlencoded.serialize ps) = true.
Proof.
  assert (forall s, everyChar isQueryChar (FormUrlencoded.encode s) = true) as Henc.
  { intros s. apply (everyChar_impl isFormChar); [|apply encode_formChar].
    intros c Hc. unfold isQueryChar. by rewrite Hc. }
  assert (forall kv, everyChar isQueryChar (FormUrlencoded.pair kv) = true) as Hpair.
  { intros kv. unfold FormUrlencoded.pair. by rewrite !everyChar_app, !Henc. }
  induction ps as [|kv ps IH]; [done|]. destruct ps as [|kv' ps]; [apply Hpair|].
  change (FormUrlencoded.serialize (kv :: kv' :: ps))
    with (FormUrlencoded.pair kv +:+ "&" +:+ FormUrlencoded.serialize (kv' :: ps)).
  by rewrite !everyChar_app, Hpair, IH.
Qed.

(** ** Percent-encoding *)

Lemma percentEncode_clean (inSet : nat -> bool) (s : string) :
  everyChar (fun c => negb (inSet (code c))) s = true ->
  WhatwgURL.percentEncode inSet s = s.
Proof.
  induction s as [|c s IH]; [done|]. cbn [everyChar]. intros H.
  apply andb_true_iff in H as [Hc Hs]. apply negb_true_iff in Hc.
  cbn [WhatwgURL.percentEncode]. unfold WhatwgURL.percentEncodeChar.
  by rewrite Hc, IH, append_cons, append_nil.
Qed.

Lemma percentEncode_every (inSet : nat -> bool) (p q : ascii -> bool) (s : string) :
  (forall c, p c = true -> everyChar q (WhatwgURL.percentEncodeChar inSet c) = true) ->
  everyChar p s = true ->
  everyChar q (WhatwgURL.percentEncode inSet s) = true.
Proof.
  intros Hpq. induction s as [|c s IH]; [done|]. cbn [everyChar]. intros H.
  apply andb_true_iff in H as [Hc Hs]. cbn [WhatwgURL.percentEncode].
  by rewrite everyChar_app, (Hpq c Hc), IH.
Qed.

Lemma queryChar_facts (c : ascii) :
  isQueryChar c = true ->
  isVisible c = true
  /\ WhatwgURL.isChar "#" c = false
  /\ WhatwgURL.specialQuerySet (code c) = false.
Proof.
  pose proof (forall_ascii
    (fun c => implb (isQueryChar c)
                (isVisible c && negb (WhatwgURL.isChar "#" c)
                 && negb (WhatwgURL.specialQuerySet (code c))))
    ltac:(by vm_compute) c) as H.
  cbn beta in H. intros Hc. rewrite Hc in H. cbn [implb] in H.
  apply andb_true_iff in H as [H H3]. apply andb_true_iff in H as [H1 H2].
  by apply negb_true_iff in H2; apply negb_true_iff in H3.
Qed.

Lemma parseQueryAndFragment_suffix (special : bool) (ps : list (string * string)) :
  WhatwgURL.parseQueryAndFragment special (querySuffix ps) = Some (ps, "").
Proof.
  destruct ps as [|kv ps]; [done|].
  pose proof (serialize_queryChar (kv :: ps)) as Hq.
  unfold querySuffix, WhatwgURL.parseQueryAndFragment.
  change ("?" +:+ FormUrlencoded.serialize (kv :: ps))
    with (String "?" (FormUrlencoded.serialize (kv :: ps))).
  assert (WhatwgURL.breakS (WhatwgURL.isChar "#")
            (String "?" (FormUrlencoded.serialize (kv :: ps)))
          = (String "?" (FormUrlencoded.serialize (kv :: ps)), "")) as ->.
  { rewrite <- (append_nil_r (String "?" _)) at 1. apply breakS_app; [|done].
    cbn [everyChar]. change (negb (WhatwgURL.isChar "#" "?")) with true. cbn [andb].
    apply (everyChar_impl isQueryChar); [|done].
    intros c Hc. apply negb_true_iff. by apply queryChar_facts. }
  rewrite percentEncode_clean.
  - by rewrite parseQuery_serialize.
  - apply (everyChar_impl isQueryChar); [|done].
    intros c Hc. apply negb_true_iff.
    destruct (queryChar_facts c Hc) as (_ & _ & H).
    destruct special; [done|].
    unfold WhatwgURL.specialQuerySet in H. by apply orb_false_iff in H as [H _].
Qed.

(** ** Hosts and ports read back *)

Lemma mapS_mapS (f g : ascii -> ascii) (s : string) :
  WhatwgURL.mapS f (WhatwgURL.mapS g s) = WhatwgURL.mapS (fun c => f (g c)) s.
Proof. induction s as [|c s IH]; [done|]. cbn. by rewrite IH. Qed.

Lemma mapS_ext (f g : ascii -> ascii) (s : string) :
  (forall c, f c = g c) -> WhatwgURL.mapS f s = WhatwgURL.mapS g s.
Proof. intros H. induction s as [|c s IH]; [done|]. cbn. by rewrite H, IH. Qed.

Lemma asciiLower_idem (c : ascii) :
  WhatwgURL.asciiLower (WhatwgURL.asciiLower c) = WhatwgURL.asciiLower c.
Proof.
  apply Ascii.eqb_eq. revert c. apply forall_ascii. by vm_compute.
Qed.

Lemma mapS_lower_idem (s : string) :
  WhatwgURL.mapS WhatwgURL.asciiLower (WhatwgURL.mapS WhatwgURL.asciiLower s)
  = WhatwgURL.mapS WhatwgURL.asciiLower s.
Proof. rewrite mapS_mapS. apply mapS_ext, asciiLower_idem. Qed.

Lemma forallS_mapS (p : ascii -> bool) (f : ascii -> ascii) (s : string) :
  (forall c, p (f c) = p c) ->
  WhatwgURL.forallS p (WhatwgURL.mapS f s) = WhatwgURL.forallS p s.
Proof. intros H. induction s as [|c s IH]; [done|]. cbn. by rewrite H, IH. Qed.

Lemma splitOn_mapS (p : ascii -> bool) (f : ascii -> ascii) (s : string) :
  (forall c, p (f c) = p c) ->
  WhatwgURL.splitOn p (WhatwgURL.mapS f s)
  = List.map (WhatwgURL.mapS f) (WhatwgURL.splitOn p s).
Proof.
  intros H. induction s as [|c s IH]; [done|].
  cbn [WhatwgURL.mapS WhatwgURL.splitOn]. rewrite H, IH.
  destruct (p c); [done|].
  pose proof (splitOn_nonempty p s) as Hne.
  by destruct (WhatwgURL.splitOn p s).
Qed.

Lemma bool_ascii (P Q : ascii -> bool) :
  forallb (fun c => Bool.eqb (P c) (Q c)) allAscii = true -> forall c, P c = Q c.
Proof.
  intros H c. apply Bool.eqb_prop. revert c. by apply forall_ascii.
Qed.

Lemma existsb_fmap {A B : Type} (f : B -> bool) (g : A -> B) (l : list A) :
  existsb f (List.map g l) = existsb (fun x => f (g x)) l.
Proof. induction l as [|x l IH]; [done|]. cbn. by rewrite IH. Qed.

Lemma existsb_same {A : Type} (f g : A -> bool) (l : list A) :
  (forall x, f x = g x) -> existsb f l = existsb g l.
Proof. intros H. induction l as [|x l IH]; [done|]. cbn. by rewrite H, IH. Qed.

Lemma startsWith_one (d c : ascii) (s : string) :
  startsWith (String c s) (String d "") = Ascii.eqb d c.
Proof. cbn [startsWith]. destruct (Ascii.eqb d c); [apply startsWith_empty|done]. Qed.

Lemma everyChar_and (p q : ascii -> bool) (s : string) :
  everyChar p s = true -> everyChar q s = true ->
  everyChar (fun c => p c && q c) s = true.
Proof.
  induction s as [|c s IH]; [done|]. cbn [everyChar]. intros Hp Hq.
  apply andb_true_iff in Hp as [Hp1 Hp2]. apply andb_true_iff in Hq as [Hq1 Hq2].
  by rewrite Hp1, Hq1, IH.
Qed.

Lemma parseDomain_fixed (h d : string) :
  WhatwgURL.parseDomain h = WhatwgURL.HostOk d ->
  WhatwgURL.parseDomain d = WhatwgURL.HostOk d
  /\ d <> ""
  /\ everyChar isDomainChar d = true.
Proof.
  unfold WhatwgURL.parseDomain at 1.
  destruct (String.eqb h "") eqn:E1; [done|].
  destruct (startsWith h "[") eqn:E2; [done|].
  destruct (negb (WhatwgURL.forallS
                    (fun c => Nat.ltb (code c) 128 && negb (WhatwgURL.isChar "%" c)) h))
    eqn:E3; [done|].
  destruct (existsb WhatwgURL.startsWithXn (WhatwgURL.splitOn (WhatwgURL.isChar ".") h))
    eqn:E4; [done|].
  cbv zeta.
  destruct (negb (WhatwgURL.forallS (fun c => negb (WhatwgURL.forbiddenDomainCodePoint c))
                    (WhatwgURL.mapS WhatwgURL.asciiLower h))) eqn:E5; [done|].
  destruct (WhatwgURL.endsInNumber (WhatwgURL.mapS WhatwgURL.asciiLower h)) eqn:E6;
    [done|].
  intros [= <-].
  assert (WhatwgURL.mapS WhatwgURL.asciiLower h <> "") as Hne.
  { by destruct h. }
  assert (forall c,
             Nat.ltb (code (WhatwgURL.asciiLower c)) 128
             && negb (WhatwgURL.isChar "%" (WhatwgURL.asciiLower c))
             = Nat.ltb (code c) 128 && negb (WhatwgURL.isChar "%" c)) as Hascii.
  { apply (bool_ascii
             (fun c => Nat.ltb (code (WhatwgURL.asciiLower c)) 128
                       && negb (WhatwgURL.isChar "%" (WhatwgURL.asciiLower c)))
             (fun c => Nat.ltb (code c) 128 && negb (WhatwgURL.isChar "%" c))).
    by vm_compute. }
  split; [|split; [done|]].
  - unfold WhatwgURL.parseDomain.
    assert (String.eqb (WhatwgURL.mapS WhatwgURL.asciiLower h) "" = false) as ->.
    { by apply String.eqb_neq. }
    assert (startsWith (WhatwgURL.mapS WhatwgURL.asciiLower h) "[" = false) as ->.
    { destruct h as [|c h]; [done|]. cbn [WhatwgURL.mapS].
      rewrite startsWith_one in *.
      rewrite (bool_ascii (fun c => Ascii.eqb "[" (WhatwgURL.asciiLower c))
                          (fun c => Ascii.eqb "[" c) ltac:(by vm_compute) c).
      exact E2. }
    rewrite (forallS_mapS _ _ _ Hascii), E3.
    rewrite splitOn_mapS.
    2:{ apply (bool_ascii (fun c => WhatwgURL.isChar "." (WhatwgURL.asciiLower c))
                          (fun c => WhatwgURL.isChar "." c)). by vm_compute. }
    rewrite existsb_fmap.
    assert (existsb (fun x => WhatwgURL.startsWithXn
                                (WhatwgURL.mapS WhatwgURL.asciiLower x))
                    (WhatwgURL.splitOn (WhatwgURL.isChar ".") h) = false) as ->.
    { etransitivity; [|exact E4]. apply existsb_same. intros label.
      unfold WhatwgURL.startsWithXn. by rewrite mapS_lower_idem. }
    cbv zeta. by rewrite mapS_lower_idem, E5, E6.
  - apply negb_false_iff in E3. apply negb_false_iff in E5.
    rewrite <- (forallS_mapS _ _ _ Hascii) in E3.
    rewrite forallS_everyChar in E3, E5.
    apply (everyChar_impl
             (fun c => (Nat.ltb (code c) 128 && negb (WhatwgURL.isChar "%" c))
                       && negb (WhatwgURL.forbiddenDomainCodePoint c))).
    + intros c Hc. apply andb_true_iff in Hc as [Hc1 Hc2].
      apply andb_true_iff in Hc1 as [Hc1 _]. unfold isDomainChar. by rewrite Hc1, Hc2.
    + by apply everyChar_and.
Qed.

Lemma domainChar_facts (c : ascii) :
  isDomainChar c = true ->
  isVisible c = true
  /\ existsb (fun d => WhatwgURL.isChar d c) ["/"; "\"; "?"; "#"; ":"; "@"]%char = false.
Proof.
  pose proof (forall_ascii
    (fun c => implb (isDomainChar c)
                (isVisible c
                 && negb (existsb (fun d => WhatwgURL.isChar d c)
                                  ["/"; "\"; "?"; "#"; ":"; "@"]%char)))
    ltac:(by vm_compute) c) as H.
  cbn beta in H. intros Hc. rewrite Hc in H. cbn [implb] in H.
  apply andb_true_iff in H as [H1 H2]. by apply negb_true_iff in H2.
Qed.

(** *** Ports *)

Lemma decimalValue_uint (u : Decimal.uint) (acc : nat) :
  WhatwgURL.decimalValue acc (DecimalString.NilEmpty.string_of_uint u)
  = Nat.of_uint_acc u acc.
Proof.
  revert acc. induction u; intros acc; cbn [DecimalString.NilEmpty.string_of_uint
    WhatwgURL.decimalValue Nat.of_uint_acc]; [done|..];
    rewrite IHu, Nat.tail_mul_spec; f_equal;
    match goal with
    | |- context [code ?c - 48] =>
        let v := eval vm_compute in (code c - 48) in change (code c - 48) with v
    end; lia.
Qed.

Lemma natToString_value (n : nat) :
  WhatwgURL.decimalValue 0 (WhatwgURL.natToString n) = n.
Proof.
  unfold WhatwgURL.natToString, DecimalString.NilZero.string_of_uint.
  pose proof (Unsigned.of_to n) as H. unfold Nat.of_uint in H.
  destruct (Nat.to_uint n) eqn:E; [by rewrite <- H| ..];
    by rewrite decimalValue_uint.
Qed.

Lemma uint_digits (u : Decimal.uint) :
  everyChar WhatwgURL.isAsciiDigit (DecimalString.NilEmpty.string_of_uint u) = true.
Proof. induction u; [done|..]; cbn [DecimalString.NilEmpty.string_of_uint everyChar]; by rewrite IHu. Qed.

Lemma natToString_digits (n : nat) :
  everyChar WhatwgURL.isAsciiDigit (WhatwgURL.natToString n) = true
  /\ WhatwgURL.natToString n <> "".
Proof.
  unfold WhatwgURL.natToString, DecimalString.NilZero.string_of_uint.
  destruct (Nat.to_uint n) eqn:E; [done|..]; (split; [|done]);
    rewrite <- E || idtac; apply uint_digits.
Qed.

Lemma decimalValue_zeros (s : string) :
  WhatwgURL.decimalValue 0 (WhatwgURL.dropWhileS (WhatwgURL.isChar "0") s)
  = WhatwgURL.decimalValue 0 s.
Proof.
  induction s as [|c s IH]; [done|]. cbn [WhatwgURL.dropWhileS].
  unfold WhatwgURL.isChar at 1. destruct (Ascii.eqb_spec c "0") as [->|]; [|done].
  by rewrite IH.
Qed.

(** A numeral of [k + 1] digits that starts with a digit other than zero
    is worth at least [10 ^ k]. *)
Lemma decimalValue_grows (s : string) :
  forall acc, acc * 10 ^ String.length s <= WhatwgURL.decimalValue acc s.
Proof.
  induction s as [|c s IH]; intros acc; cbn [WhatwgURL.decimalValue String.length].
  - cbn. lia.
  - etransitivity; [|apply IH]. rewrite Nat.pow_succ_r'. nia.
Qed.

Lemma decimalValue_length (s : string) :
  everyChar WhatwgURL.isAsciiDigit s = true ->
  WhatwgURL.decimalValue 0 (WhatwgURL.dropWhileS (WhatwgURL.isChar "0") s) < 256 * 256 ->
  String.length (WhatwgURL.dropWhileS (WhatwgURL.isChar "0") s) <= 5.
Proof.
  intros Hd Hv.
  assert (everyChar WhatwgURL.isAsciiDigit
            (WhatwgURL.dropWhileS (WhatwgURL.isChar "0") s) = true
          /\ match WhatwgURL.dropWhileS (WhatwgURL.isChar "0") s with
             | String c _ => WhatwgURL.isChar "0" c = false
             | EmptyString => True
             end) as [Hd' Hhead].
  { clear Hv. induction s as [|c s IH]; [done|].
    cbn [everyChar] in Hd. apply andb_true_iff in Hd as [Hc Hs].
    cbn [WhatwgURL.dropWhileS]. destruct (WhatwgURL.isChar "0" c) eqn:E; [by apply IH|].
    split; [|done]. cbn [everyChar]. by rewrite Hc, Hs. }
  destruct (WhatwgURL.dropWhileS (WhatwgURL.isChar "0") s) as [|c t]; [cbn; lia|].
  cbn [everyChar] in Hd'. apply andb_true_iff in Hd' as [Hc Ht].
  cbn [WhatwgURL.decimalValue String.length] in *.
  pose proof (decimalValue_grows t (10 * 0 + (code c - 48))) as Hg.
  assert (1 <= code c - 48) as Hpos.
  { pose proof (forall_ascii
      (fun c => implb (WhatwgURL.isAsciiDigit c && negb (WhatwgURL.isChar "0" c))
                      (Nat.leb 1 (code c - 48))) ltac:(by vm_compute) c) as H.
    cbn beta in H. rewrite Hc, Hhead in H. by apply Nat.leb_le in H. }
  destruct (Nat.le_gt_cases (String.length t) 4) as [|Hlong]; [lia|].
  pose proof (Nat.pow_le_mono_r 10 5 (String.length t)) as Hp.
  rewrite !Nat.pow_succ_r', Nat.pow_0_r in Hp.
  revert Hg Hp Hv Hpos. generalize (10 ^ String.length t) (code c - 48).
  intros P k Hg Hp Hv Hpos.
  assert (P <= k * P) by nia. lia.
Qed.

(** A port that the parser shows is read back as itself. *)
Lemma parsePort_fixed (scheme p : string) (n : nat) :
  WhatwgURL.parsePort scheme p = Some (Some n) ->
  WhatwgURL.parsePort scheme (WhatwgURL.natToString n) = Some (Some n).
Proof.
  unfold WhatwgURL.parsePort at 1.
  destruct (negb (WhatwgURL.forallS WhatwgURL.isAsciiDigit p)); [done|].
  destruct (String.eqb p ""); [done|]. cbv zeta.
  destruct (Nat.ltb 5 _ || Nat.leb (256 * 256) _) eqn:E1; [done|].
  destruct (match WhatwgURL.defaultPort scheme with
            | Some d => Nat.eqb d _
            | None => false
            end) eqn:E2; [done|].
  intros [= Hn]. rewrite Hn in E1, E2.
  apply orb_false_iff in E1 as [_ E1]. apply Nat.leb_gt in E1.
  destruct (natToString_digits n) as [Hd Hne].
  unfold WhatwgURL.parsePort.
  rewrite forallS_everyChar, Hd. cbn [negb].
  apply String.eqb_neq in Hne. rewrite Hne. cbv zeta.
  rewrite decimalValue_zeros, natToString_value, E2.
  assert (Nat.leb (256 * 256) n = false) as -> by by apply Nat.leb_gt.
  assert (Nat.ltb 5 (String.length (WhatwgURL.dropWhileS (WhatwgURL.isChar "0")
                                      (WhatwgURL.natToString n))) = false) as ->.
  { apply Nat.ltb_ge. apply decimalValue_length; [done|].
    by rewrite decimalValue_zeros, natToString_value. }
  done.
Qed.

Lemma ascii_implies (P Q : ascii -> bool) :
  forallb (fun c => implb (P c) (Q c)) allAscii = true ->
  forall c, P c = true -> Q c = true.
Proof.
  intros H c Hc. pose proof (forall_ascii _ H c) as H'. cbn beta in H'.
  by rewrite Hc in H'.
Qed.

Lemma domainChar_hostChar (c : ascii) : isDomainChar c = true -> isHostChar c = true.
Proof. revert c. apply ascii_implies. by vm_compute. Qed.

Lemma digit_hostChar (c : ascii) : WhatwgURL.isAsciiDigit c = true -> isHostChar c = true.
Proof. revert c. apply ascii_implies. by vm_compute. Qed.

Lemma hostChar_authorityChar (c : ascii) : isHostChar c = true -> isAuthorityChar c = true.
Proof. unfold isAuthorityChar. by intros ->. Qed.

Lemma hostChar_escape (c : ascii) :
  negb (WhatwgURL.forbiddenHostCodePoint c) = true ->
  everyChar isHostChar (WhatwgURL.percentEncodeChar WhatwgURL.c0ControlSet c) = true.
Proof. revert c. apply ascii_implies. by vm_compute. Qed.

Lemma hostChar_clean (c : ascii) :
  isHostChar c = true -> negb (WhatwgURL.c0ControlSet (code c)) = true.
Proof. revert c. apply ascii_implies. by vm_compute. Qed.

Lemma hostChar_allowed (c : ascii) :
  isHostChar c = true -> negb (WhatwgURL.forbiddenHostCodePoint c) = true.
Proof. revert c. apply ascii_implies. by vm_compute. Qed.

Lemma hostChar_no_bracket (c : ascii) : isHostChar c = true -> Ascii.eqb "[" c = false.
Proof.
  intros H. apply negb_true_iff. revert c H. apply ascii_implies. by vm_compute.
Qed.

Lemma authorityChar_facts (c : ascii) :
  isAuthorityChar c = true ->
  isVisible c = true
  /\ existsb (fun d => WhatwgURL.isChar d c) ["/"; "\"; "?"; "#"; "@"]%char = false.
Proof.
  intros H. split.
  - revert c H. apply ascii_implies. by vm_compute.
  - apply negb_true_iff. revert c H. apply ascii_implies. by vm_compute.
Qed.

Lemma hostChar_no_colon (c : ascii) : isHostChar c = true -> WhatwgURL.isChar ":" c = false.
Proof.
  intros H. apply negb_true_iff. revert c H. apply ascii_implies. by vm_compute.
Qed.

Lemma escape_nonempty (inSet : nat -> bool) (c : ascii) :
  WhatwgURL.percentEncodeChar inSet c <> "".
Proof.
  unfold WhatwgURL.percentEncodeChar. destruct (inSet (code c)); [|done].
  assert (FormUrlencoded.utf8 c <> []) as H.
  { pose proof (forall_ascii
      (fun c => match FormUrlencoded.utf8 c with [] => false | _ => true end)
      ltac:(by vm_compute) c) as H. cbn beta in H. by destruct (FormUrlencoded.utf8 c). }
  destruct (FormUrlencoded.utf8 c) as [|b bs]; [done|]. cbn [fold_right].
  unfold FormUrlencoded.percentByte. by rewrite append_cons.
Qed.

Lemma percentEncode_nonempty (inSet : nat -> bool) (s : string) :
  s <> "" -> WhatwgURL.percentEncode inSet s <> "".
Proof.
  destruct s as [|c s]; [done|]. intros _. cbn [WhatwgURL.percentEncode].
  pose proof (escape_nonempty inSet c) as H.
  destruct (WhatwgURL.percentEncodeChar inSet c); [done|]. by rewrite append_cons.
Qed.

(** A parsed opaque host is read back as itself. *)
Lemma parseOpaqueHost_fixed (h d : string) :
  WhatwgURL.parseOpaqueHost h = WhatwgURL.HostOk d ->
  WhatwgURL.parseOpaqueHost d = WhatwgURL.HostOk d
  /\ (h <> "" -> d <> "")
  /\ everyChar isHostChar d = true.
Proof.
  unfold WhatwgURL.parseOpaqueHost at 1.
  destruct (startsWith h "["); [done|].
  destruct (negb (WhatwgURL.forallS
                    (fun c => negb (WhatwgURL.forbiddenHostCodePoint c)) h)) eqn:E; [done|].
  intros [= <-]. apply negb_false_iff in E. rewrite forallS_everyChar in E.
  assert (everyChar isHostChar
            (WhatwgURL.percentEncode WhatwgURL.c0ControlSet h) = true) as Hd.
  { apply (percentEncode_every _ (fun c => negb (WhatwgURL.forbiddenHostCodePoint c)));
      [apply hostChar_escape|done]. }
  split; [|split; [apply percentEncode_nonempty|done]].
  set (d := WhatwgURL.percentEncode WhatwgURL.c0ControlSet h) in *.
  unfold WhatwgURL.parseOpaqueHost.
  assert (startsWith d "[" = false) as ->.
  { destruct d as [|c d']; [done|]. rewrite startsWith_one.
    cbn [everyChar] in Hd. apply andb_true_iff in Hd as [Hc _].
    by apply hostChar_no_bracket. }
  rewrite forallS_everyChar.
  rewrite (everyChar_impl isHostChar _ d hostChar_allowed Hd). cbn [negb].
  rewrite percentEncode_clean; [done|].
  by apply (everyChar_impl isHostChar _ d hostChar_clean).
Qed.

Lemma host_fixed (special : bool) (h d : string) :
  (if special then WhatwgURL.parseDomain h else WhatwgURL.parseOpaqueHost h)
  = WhatwgURL.HostOk d ->
  (if special then WhatwgURL.parseDomain d else WhatwgURL.parseOpaqueHost d)
  = WhatwgURL.HostOk d
  /\ (special = true \/ h <> "" -> d <> "")
  /\ everyChar isHostChar d = true.
Proof.
  destruct special; intros H.
  - apply parseDomain_fixed in H as (H1 & H2 & H3). split; [done|]. split; [done|].
    by apply (everyChar_impl isDomainChar _ d domainChar_hostChar).
  - apply parseOpaqueHost_fixed in H as (H1 & H2 & H3). split; [done|]. split; [|done].
    intros [|]; [done|auto].
Qed.

Lemma breakS_free (p : ascii -> bool) (a : string) :
  everyChar (fun c => negb (p c)) a = true -> WhatwgURL.breakS p a = (a, "").
Proof. intros H. rewrite <- (append_nil_r a) at 1. by apply breakS_app. Qed.

Lemma afterCredentials_free (a : string) :
  everyChar (fun c => negb (WhatwgURL.isChar "@" c)) a = true ->
  WhatwgURL.afterCredentials a = a.
Proof. intros H. unfold WhatwgURL.afterCredentials. by rewrite splitOn_single. Qed.

Lemma authorityChar_no_at (h : string) :
  everyChar isAuthorityChar h = true ->
  everyChar (fun c => negb (WhatwgURL.isChar "@" c)) h = true.
Proof.
  apply everyChar_impl. intros c Hc. apply authorityChar_facts in Hc as [_ Hc].
  cbn [existsb] in Hc. apply negb_true_iff.
  repeat (apply orb_false_iff in Hc as [? Hc]); done.
Qed.

(** A parsed host with its port is read back as itself. *)
Lemma parseAuthority_fixed (special : bool) (scheme authority h : string) :
  WhatwgURL.parseAuthority special scheme authority = Some h ->
  WhatwgURL.parseAuthority special scheme h = Some h
  /\ (special = true -> h <> "")
  /\ everyChar isAuthorityChar h = true.
Proof.
  unfold WhatwgURL.parseAuthority at 1. cbv zeta.
  destruct (WhatwgURL.breakS (WhatwgURL.isChar ":") (WhatwgURL.afterCredentials authority))
    as [hh portPart].
  destruct (String.eqb hh "" && _) eqn:Hm; [done|].
  destruct (if special then WhatwgURL.parseDomain hh else WhatwgURL.parseOpaqueHost hh)
    as [d| |] eqn:Hhost; [|done..].
  apply host_fixed in Hhost as (Hd & Hne & Hchars).
  assert (everyChar isAuthorityChar d = true) as Hd'.
  { by apply (everyChar_impl isHostChar _ d hostChar_authorityChar). }
  assert (everyChar (fun c => negb (WhatwgURL.isChar ":" c)) d = true) as Hcolon.
  { apply (everyChar_impl isHostChar); [|done].
    intros c Hc. apply negb_true_iff. by apply hostChar_no_colon. }
  destruct portPart as [|colon p].
  - intros [= <-]. split; [|split; [intros ->; apply Hne; by left|done]].
    unfold WhatwgURL.parseAuthority. cbv zeta.
    rewrite afterCredentials_free by by apply authorityChar_no_at.
    rewrite breakS_free by done. rewrite Hd.
    rewrite !String.eqb_refl. cbn [negb orb]. by rewrite andb_false_r.
  - destruct (WhatwgURL.parsePort scheme p) as [[n|]|] eqn:Hport; [| |done].
    + intros [= <-].
      assert (hh <> "") as Hhh.
      { intros ->. by rewrite String.eqb_refl in Hm. }
      assert (d <> "") as Hdne by (apply Hne; by right).
      destruct (natToString_digits n) as [Hdigits _].
      assert (everyChar isAuthorityChar (d +:+ ":" +:+ WhatwgURL.natToString n) = true)
        as Hall.
      { rewrite !everyChar_app, Hd'. cbn [andb].
        apply (everyChar_impl WhatwgURL.isAsciiDigit); [|done].
        intros c Hc. by apply hostChar_authorityChar, digit_hostChar. }
      split; [|split; [by destruct d|done]].
      unfold WhatwgURL.parseAuthority. cbv zeta.
      rewrite afterCredentials_free by by apply authorityChar_no_at.
      rewrite append_cons, append_nil, breakS_app by done.
      rewrite (parsePort_fixed scheme p n Hport), Hd.
      apply String.eqb_neq in Hdne. by rewrite Hdne.
    + intros [= <-]. split; [|split; [intros ->; apply Hne; by left|done]].
      unfold WhatwgURL.parseAuthority. cbv zeta.
      rewrite afterCredentials_free by by apply authorityChar_no_at.
      rewrite breakS_free by done. rewrite Hd.
      rewrite !String.eqb_refl. cbn [negb orb]. by rewrite andb_false_r.
Qed.

(** ** Paths read back *)

Lemma escape_is_no_dot (c : ascii) :
  WhatwgURL.pathSet (code c) = true -> escapesNoDot c = true.
Proof.
  pose proof (forall_ascii
    (fun c => implb (WhatwgURL.pathSet (code c)) (escapesNoDot c))
    ltac:(by vm_compute) c) as H.
  cbn beta in H. intros Hc. by rewrite Hc in H.
Qed.

Lemma dotTail_encoded (s : string) :
  forall T, In T dotTails ->
    WhatwgURL.mapS WhatwgURL.asciiLower (WhatwgURL.percentEncode WhatwgURL.pathSet s) = T ->
    WhatwgURL.mapS WhatwgURL.asciiLower s = T.
Proof.
  induction s as [|c s IH]; intros T HT; [done|].
  cbn [WhatwgURL.percentEncode]. rewrite mapS_app.
  destruct (WhatwgURL.pathSet (code c)) eqn:E.
  - apply escape_is_no_dot in E. unfold escapesNoDot in E.
    destruct (WhatwgURL.mapS WhatwgURL.asciiLower
                (WhatwgURL.percentEncodeChar WhatwgURL.pathSet c))
      as [|p [|a [|b r]]]; [done..|].
    rewrite !append_cons. intros H. exfalso.
    cbn in HT. repeat (destruct HT as [<-|HT]); try done; try discriminate H;
      injection H as -> -> -> _; discriminate E.
  - unfold WhatwgURL.percentEncodeChar. rewrite E.
    cbn [WhatwgURL.mapS]. rewrite append_cons, append_nil.
    intros H. cbn in HT.
    repeat (destruct HT as [<-|HT]); try done; try discriminate H;
      injection H as Hc HM; rewrite Hc; f_equal;
      (apply IH; [cbn; auto 20|done]).
Qed.

Lemma dots_encoded (dots : list string) (seg : string) :
  (forall T, In T dots -> In T dotTails) ->
  existsb (String.eqb (WhatwgURL.mapS WhatwgURL.asciiLower
                         (WhatwgURL.percentEncode WhatwgURL.pathSet seg))) dots = true ->
  existsb (String.eqb (WhatwgURL.mapS WhatwgURL.asciiLower seg)) dots = true.
Proof.
  intros Hsub H. apply existsb_exists in H as (T & HT & H).
  apply String.eqb_eq in H. apply existsb_exists. exists T. split; [done|].
  apply String.eqb_eq. by apply dotTail_encoded; [apply Hsub|].
Qed.

Lemma pathChar_escape (special : bool) (c : ascii) :
  negb (pathSlash special c) = true ->
  everyChar (isPathChar special)
            (WhatwgURL.percentEncodeChar WhatwgURL.pathSet c) = true.
Proof. destruct special; revert c; apply ascii_implies; by vm_compute. Qed.

(** The encoded form of a segment that is no dot segment is kept as it
    is. *)
Lemma encoded_segment (special : bool) (seg : string) :
  everyChar (fun c => negb (pathSlash special c)) seg = true ->
  WhatwgURL.isSingleDot seg = false ->
  WhatwgURL.isDoubleDot seg = false ->
  goodSegment special (WhatwgURL.percentEncode WhatwgURL.pathSet seg) = true.
Proof.
  intros Hs H1 H2. unfold goodSegment.
  rewrite (percentEncode_every _ (fun c => negb (pathSlash special c))
             (isPathChar special)); [|apply pathChar_escape|done].
  cbn [andb]. apply andb_true_iff. split; apply negb_true_iff, not_true_iff_false.
  - intros H. apply dots_encoded in H; [unfold WhatwgURL.isSingleDot in H1; congruence|].
    cbn. intuition auto 20.
  - intros H. apply dots_encoded in H; [unfold WhatwgURL.isDoubleDot in H2; congruence|].
    cbn. intuition auto 20.
Qed.

Lemma Forall_removelast {A : Type} (P : A -> Prop) (l : list A) :
  List.Forall P l -> List.Forall P (removelast l).
Proof.
  induction 1 as [|x l Hx Hl IH]; [constructor|].
  cbn [removelast]. destruct l; [constructor|]. by constructor.
Qed.

Lemma pathSegments_good (special : bool) (segs : list string) :
  forall path,
    List.Forall (fun seg => everyChar (fun c => negb (pathSlash special c)) seg = true)
                segs ->
    List.Forall (fun g => goodSegment special g = true) path ->
    List.Forall (fun g => goodSegment special g = true)
                (WhatwgURL.pathSegments segs path).
Proof.
  induction segs as [|seg rest IH]; intros path Hsegs Hpath; [done|].
  inversion Hsegs as [|? ? Hseg Hrest]; subst.
  cbn [WhatwgURL.pathSegments]. apply IH; [done|].
  destruct (WhatwgURL.isDoubleDot seg) eqn:E2.
  { destruct rest; [apply Forall_app; split|]; try by apply Forall_removelast.
    constructor; [by destruct special|done]. }
  destruct (WhatwgURL.isSingleDot seg) eqn:E1.
  { destruct rest; [apply Forall_app; split|]; try done.
    constructor; [by destruct special|done]. }
  apply Forall_app. split; [done|]. constructor; [|done]. by apply encoded_segment.
Qed.

Lemma pathSegments_nonempty (segs : list string) :
  forall path, segs <> [] -> WhatwgURL.pathSegments segs path <> [].
Proof.
  induction segs as [|seg rest IH]; intros path Hne; [done|].
  cbn [WhatwgURL.pathSegments]. destruct rest as [|seg' rest]; [|by apply IH].
  cbn [WhatwgURL.pathSegments].
  destruct (WhatwgURL.isDoubleDot seg); [by destruct (removelast path)|].
  destruct (WhatwgURL.isSingleDot seg); by destruct path.
Qed.

Lemma splitOn_free (p : ascii -> bool) (s : string) :
  List.Forall (fun seg => everyChar (fun c => negb (p c)) seg = true)
              (WhatwgURL.splitOn p s).
Proof.
  induction s as [|c s IH]; [by repeat constructor|].
  cbn [WhatwgURL.splitOn]. destruct (p c) eqn:E; [by constructor|].
  destruct (WhatwgURL.splitOn p s) as [|x xs];
    [repeat constructor; cbn [everyChar]; by rewrite E|].
  inversion IH as [|? ? Hx Hxs]; subst. constructor; [|done].
  cbn [everyChar]. by rewrite E, Hx.
Qed.

Lemma goodSegment_facts (special : bool) (g : string) :
  goodSegment special g = true ->
  everyChar (isPathChar special) g = true
  /\ WhatwgURL.isSingleDot g = false /\ WhatwgURL.isDoubleDot g = false.
Proof.
  unfold goodSegment. intros H.
  apply andb_true_iff in H as [H H3]. apply andb_true_iff in H as [H1 H2].
  by apply negb_true_iff in H2, H3.
Qed.

Lemma pathSegments_fixed (special : bool) (gs : list string) :
  forall path,
    List.Forall (fun g => goodSegment special g = true) gs ->
    WhatwgURL.pathSegments gs path = (path ++ gs)%list.
Proof.
  induction gs as [|g gs IH]; intros path Hgs; [by rewrite app_nil_r|].
  inversion Hgs as [|? ? Hg Hrest]; subst.
  apply goodSegment_facts in Hg as (Hc & H1 & H2).
  cbn [WhatwgURL.pathSegments]. rewrite H1, H2, IH by done.
  rewrite percentEncode_clean.
  - by rewrite <- app_assoc.
  - apply (everyChar_impl (isPathChar special)); [|done].
    intros c H. unfold isPathChar in H. by apply andb_true_iff in H as [H _].
Qed.

Lemma splitOn_serializePath (p : ascii -> bool) (gs : list string) :
  forall g,
    p "/"%char = true ->
    List.Forall (fun g => everyChar (fun c => negb (p c)) g = true) (g :: gs) ->
    WhatwgURL.splitOn p (g +:+ WhatwgURL.serializePath gs) = g :: gs.
Proof.
  induction gs as [|g' gs IH]; intros g Hp Hgs;
    inversion Hgs as [|? ? Hg Hrest]; subst; cbn [WhatwgURL.serializePath fold_right].
  - rewrite append_nil_r. by apply splitOn_single.
  - rewrite append_cons, append_nil, splitOn_app by done.
    f_equal. by apply IH.
Qed.

Lemma goodSegment_free (special : bool) (g : string) :
  goodSegment special g = true ->
  everyChar (fun c => negb (pathSlash special c)) g = true.
Proof.
  intros H. apply goodSegment_facts in H as (H & _).
  apply (everyChar_impl (isPathChar special)); [|done].
  intros c Hc. unfold isPathChar in Hc. by apply andb_true_iff in Hc as [_ Hc].
Qed.

(** A path that the parser wrote is read back as itself. *)
Lemma parsePath_fixed (special : bool) (gs : list string) :
  (special = true -> gs <> []) ->
  List.Forall (fun g => goodSegment special g = true) gs ->
  WhatwgURL.parsePath special (WhatwgURL.serializePath gs) = WhatwgURL.serializePath gs.
Proof.
  intros Hne Hgs. destruct gs as [|g gs].
  { destruct special; [by destruct Hne|done]. }
  cbn [WhatwgURL.serializePath fold_right]. rewrite append_cons, append_nil.
  unfold WhatwgURL.parsePath.
  change (fun c => WhatwgURL.isChar "/" c || (special && WhatwgURL.isChar "\" c))
    with (pathSlash special).
  fold (WhatwgURL.serializePath gs).
  rewrite splitOn_serializePath.
  - rewrite (pathSegments_fixed special) by done.
    cbn [app WhatwgURL.serializePath fold_right].
    by rewrite append_cons, append_nil.
  - done.
  - eapply List.Forall_impl; [|exact Hgs]. apply goodSegment_free.
Qed.

Lemma parsePath_shape (special : bool) (pathText : string) :
  exists gs, (special = true \/ pathText <> "" -> gs <> [])
    /\ List.Forall (fun g => goodSegment special g = true) gs
    /\ WhatwgURL.parsePath special pathText = WhatwgURL.serializePath gs.
Proof.
  destruct pathText as [|c afterSlash].
  - destruct special.
    + exists [""]. by repeat constructor.
    + exists []. split; [by intros [|]|]. by split.
  - exists (WhatwgURL.pathSegments (WhatwgURL.splitOn (pathSlash special) afterSlash) []).
    split; [intros _; apply pathSegments_nonempty, splitOn_nonempty|].
    split; [|done]. apply pathSegments_good; [apply splitOn_free|constructor].
Qed.

Lemma pathChar_facts (special : bool) (c : ascii) :
  isPathChar special c || WhatwgURL.isChar "/" c = true ->
  isVisible c = true
  /\ WhatwgURL.isChar "?" c || WhatwgURL.isChar "#" c = false.
Proof.
  intros H. split.
  - destruct special; revert c H; apply ascii_implies; by vm_compute.
  - apply negb_true_iff. destruct special; revert c H; apply ascii_implies; by vm_compute.
Qed.

Lemma serializePath_chars (special : bool) (gs : list string) :
  List.Forall (fun g => goodSegment special g = true) gs ->
  everyChar (fun c => isPathChar special c || WhatwgURL.isChar "/" c)
            (WhatwgURL.serializePath gs) = true.
Proof.
  induction 1 as [|g gs Hg Hgs IH]; [done|].
  cbn [WhatwgURL.serializePath fold_right]. fold (WhatwgURL.serializePath gs).
  rewrite append_cons, append_nil. cbn [everyChar].
  rewrite everyChar_app, IH, andb_true_r.
  apply goodSegment_facts in Hg as (Hg & _).
  replace (isPathChar special "/" || WhatwgURL.isChar "/" "/") with true
    by by destruct special.
  apply (everyChar_impl (isPathChar special)); [|done]. by intros c ->.
Qed.

Lemma serializePath_starts (gs : list string) (rest : string) :
  gs <> [] ->
  exists t, WhatwgURL.serializePath gs +:+ rest = String "/" t.
Proof.
  destruct gs as [|g gs]; [done|]. intros _.
  cbn [WhatwgURL.serializePath fold_right]. rewrite !append_cons, append_nil. eauto.
Qed.

(** ** URLs read back *)

Lemma schemeChar_lower (c : ascii) :
  negb (WhatwgURL.isChar ":" c) && WhatwgURL.isSchemeChar c = true ->
  isLowerSchemeChar (WhatwgURL.asciiLower c) = true.
Proof. revert c. apply ascii_implies. by vm_compute. Qed.

Lemma lowerSchemeChar_visible (c : ascii) : isLowerSchemeChar c = true -> isVisible c = true.
Proof. revert c. apply ascii_implies. by vm_compute. Qed.

Lemma alpha_lower (c : ascii) :
  WhatwgURL.isAsciiAlpha c = true ->
  WhatwgURL.isAsciiAlpha (WhatwgURL.asciiLower c)
  && negb (WhatwgURL.isChar ":" c) && WhatwgURL.isSchemeChar c = true.
Proof. revert c. apply ascii_implies. by vm_compute. Qed.

Lemma schemeRest_fixed (s : string) :
  forall scheme rest,
    WhatwgURL.schemeRest s = Some (scheme, rest) ->
    everyChar isLowerSchemeChar scheme = true
    /\ forall r, WhatwgURL.schemeRest (scheme +:+ ":" +:+ r) = Some (scheme, r).
Proof.
  induction s as [|c s IH]; intros scheme rest; [done|].
  cbn [WhatwgURL.schemeRest].
  destruct (WhatwgURL.isChar ":" c) eqn:E1; [by intros [= <- <-]|].
  destruct (WhatwgURL.isSchemeChar c) eqn:E2; [|done].
  destruct (WhatwgURL.schemeRest s) as [[scheme' rest']|]; [|done].
  intros [= <- <-]. destruct (IH scheme' rest' eq_refl) as [Hs Hr].
  pose proof (schemeChar_lower c) as Hc. rewrite E1, E2 in Hc. specialize (Hc eq_refl).
  split; [cbn [everyChar]; by rewrite Hc, Hs|].
  intros r. rewrite append_cons. cbn [WhatwgURL.schemeRest].
  unfold isLowerSchemeChar in Hc.
  apply andb_true_iff in Hc as [Hc H3]. apply andb_true_iff in Hc as [H1 H2].
  apply negb_true_iff in H2. apply Ascii.eqb_eq in H3.
  by rewrite H2, H1, Hr, H3.
Qed.

(** A parsed scheme is read back as itself. *)
Lemma parseScheme_fixed (s scheme rest : string) :
  WhatwgURL.parseScheme s = Some (scheme, rest) ->
  everyChar isLowerSchemeChar scheme = true
  /\ (exists c t, scheme = String c t)
  /\ forall r, WhatwgURL.parseScheme (scheme +:+ ":" +:+ r) = Some (scheme, r).
Proof.
  destruct s as [|c s]; [done|]. unfold WhatwgURL.parseScheme.
  destruct (WhatwgURL.isAsciiAlpha c) eqn:E; [|done]. intros H.
  destruct (schemeRest_fixed _ _ _ H) as [Hs Hr]. split; [done|].
  apply alpha_lower in E.
  apply andb_true_iff in E as [E E3]. apply andb_true_iff in E as [E1 E2].
  apply negb_true_iff in E2.
  cbn [WhatwgURL.schemeRest] in H. rewrite E2, E3 in H.
  destruct (WhatwgURL.schemeRest s) as [[scheme' rest']|]; [|done].
  injection H as <- <-. split; [eauto|].
  intros r. specialize (Hr r). rewrite append_cons in *. by rewrite E1.
Qed.

(** *** Visible text passes the preprocessing unchanged *)

Lemma visible_facts (c : ascii) :
  isVisible c = true ->
  isWhiteSpace c = false /\ WhatwgURL.isC0ControlOrSpace c = false
  /\ WhatwgURL.isTabOrNewline c = false.
Proof.
  intros H. repeat split; apply negb_true_iff; revert c H; apply ascii_implies;
    by vm_compute.
Qed.

Lemma dropWhileEndS_fixed (p : ascii -> bool) (s : string) :
  everyChar (fun c => negb (p c)) s = true -> WhatwgURL.dropWhileEndS p s = s.
Proof.
  induction s as [|c s IH]; [done|]. cbn [everyChar]. intros H.
  apply andb_true_iff in H as [Hc Hs]. apply negb_true_iff in Hc.
  cbn [WhatwgURL.dropWhileEndS]. rewrite IH, Hc by done. by destruct s.
Qed.

Lemma trimEnd_fixed (s : string) :
  everyChar (fun c => negb (isWhiteSpace c)) s = true -> trimEnd s = s.
Proof.
  induction s as [|c s IH]; [done|]. cbn [everyChar]. intros H.
  apply andb_true_iff in H as [Hc Hs]. apply negb_true_iff in Hc.
  cbn [trimEnd]. rewrite IH, Hc by done. by destruct s.
Qed.

Lemma filterS_fixed (p : ascii -> bool) (s : string) :
  everyChar p s = true -> WhatwgURL.filterS p s = s.
Proof.
  induction s as [|c s IH]; [done|]. cbn [everyChar]. intros H.
  apply andb_true_iff in H as [Hc Hs]. cbn [WhatwgURL.filterS]. by rewrite Hc, IH.
Qed.

Lemma dropWhileS_stop (p : ascii -> bool) (s : string) :
  match s with String c _ => p c | EmptyString => false end = false ->
  WhatwgURL.dropWhileS p s = s.
Proof. destruct s as [|c s]; [done|]. cbn [WhatwgURL.dropWhileS]. by intros ->. Qed.

Lemma trimStart_stop (s : string) :
  match s with String c _ => isWhiteSpace c | EmptyString => false end = false ->
  trimStart s = s.
Proof. destruct s as [|c s]; [done|]. cbn [trimStart]. by intros ->. Qed.

Lemma visible_head (p : ascii -> bool) (s : string) :
  (forall c, isVisible c = true -> p c = false) ->
  everyChar isVisible s = true ->
  match s with String c _ => p c | EmptyString => false end = false.
Proof.
  intros Hp. destruct s as [|c s]; [done|]. cbn [everyChar]. intros H.
  apply andb_true_iff in H as [Hc _]. by apply Hp.
Qed.

Lemma visible_unchanged (y : string) :
  everyChar isVisible y = true ->
  trim y = y
  /\ WhatwgURL.filterS (fun c => negb (WhatwgURL.isTabOrNewline c))
       (WhatwgURL.dropWhileEndS WhatwgURL.isC0ControlOrSpace
          (WhatwgURL.dropWhileS WhatwgURL.isC0ControlOrSpace y)) = y.
Proof.
  intros H. split.
  - unfold trim. rewrite trimStart_stop.
    + apply trimEnd_fixed. apply (everyChar_impl isVisible); [|done].
      intros c Hc. apply negb_true_iff. by apply visible_facts.
    + apply visible_head; [|done]. intros c Hc. by apply visible_facts.
  - rewrite dropWhileS_stop.
    + rewrite dropWhileEndS_fixed.
      * apply filterS_fixed. apply (everyChar_impl isVisible); [|done].
        intros c Hc. apply negb_true_iff. by apply visible_facts.
      * apply (everyChar_impl isVisible); [|done].
        intros c Hc. apply negb_true_iff. by apply visible_facts.
    + apply visible_head; [|done]. intros c Hc. by apply visible_facts.
Qed.

(** *** The authority, the path and the query together *)

Lemma querySuffix_starts (ps : list (string * string)) :
  querySuffix ps = ""
  \/ exists t, querySuffix ps = String "?" t.
Proof. destruct ps as [|kv ps]; [by left|right]. unfold querySuffix. rewrite append_cons, append_nil. eauto. Qed.

Lemma querySuffix_visible (ps : list (string * string)) :
  everyChar isVisible (querySuffix ps) = true.
Proof.
  destruct ps as [|kv ps]; [done|]. unfold querySuffix.
  rewrite append_cons, append_nil. cbn [everyChar].
  change (isVisible "?") with true. cbn [andb].
  apply (everyChar_impl isQueryChar); [|apply serialize_queryChar].
  intros c Hc. by apply queryChar_facts.
Qed.

Lemma hierarchical_built (special : bool) (scheme h : string) (gs : list string)
      (ps : list (string * string)) :
  WhatwgURL.parseAuthority special scheme h = Some h ->
  everyChar isAuthorityChar h = true ->
  List.Forall (fun g => goodSegment special g = true) gs ->
  (special = true -> gs <> []) ->
  WhatwgURL.hierarchical special scheme
    (h +:+ WhatwgURL.serializePath gs +:+ querySuffix ps)
  = Some (mkURL (scheme +:+ ":") h (WhatwgURL.serializePath gs) ps "").
Proof.
  intros Hh Hchars Hgs Hne. unfold WhatwgURL.hierarchical.
  pose proof (serializePath_chars special gs Hgs) as Hpath.
  rewrite breakS_app; cycle 1.
  { apply (everyChar_impl isAuthorityChar); [|done].
    intros c Hc. apply authorityChar_facts in Hc as [_ Hc]. cbn [existsb] in Hc.
    repeat (apply orb_false_iff in Hc as [? Hc]).
    apply negb_true_iff. repeat (apply orb_false_iff; split); try done.
    by destruct special. }
  { destruct gs as [|g gs].
    - cbn [WhatwgURL.serializePath fold_right]. rewrite append_nil.
      by destruct (querySuffix_starts ps) as [->|[t ->]].
    - destruct (serializePath_starts (g :: gs) (querySuffix ps)) as [t ->]; done. }
  rewrite breakS_app; cycle 1.
  { apply (everyChar_impl (fun c => isPathChar special c || WhatwgURL.isChar "/" c));
      [|done].
    intros c Hc. apply negb_true_iff. by destruct (pathChar_facts _ _ Hc) as [_ ?]. }
  { by destruct (querySuffix_starts ps) as [->|[t ->]]. }
  by rewrite Hh, parseQueryAndFragment_suffix, parsePath_fixed.
Qed.

Lemma hierarchical_shape (special : bool) (scheme afterSlashes : string) (u : URL) :
  WhatwgURL.hierarchical special scheme afterSlashes = Some u ->
  exists gs,
    protocol u = scheme +:+ ":"
    /\ WhatwgURL.parseAuthority special scheme (host u) = Some (host u)
    /\ (special = true -> host u <> "")
    /\ everyChar isAuthorityChar (host u) = true
    /\ List.Forall (fun g => goodSegment special g = true) gs
    /\ (special = true -> gs <> [])
    /\ pathname u = WhatwgURL.serializePath gs.
Proof.
  unfold WhatwgURL.hierarchical.
  destruct (WhatwgURL.breakS _ afterSlashes) as [authority rest].
  destruct (WhatwgURL.breakS _ rest) as [pathText tail].
  destruct (WhatwgURL.parseAuthority special scheme authority) as [h|] eqn:Hh; [|done].
  destruct (WhatwgURL.parseQueryAndFragment special tail) as [[params frag]|]; [|done].
  intros [= <-]. cbn [protocol host pathname].
  apply parseAuthority_fixed in Hh as (Hh & Hne & Hchars).
  destruct (parsePath_shape special pathText) as (gs & Hgs1 & Hgs2 & Hgs3).
  exists gs. repeat split; try done. intros ->. apply Hgs1. by left.
Qed.

Lemma opaque_head (c : ascii) :
  negb (Ascii.eqb "/" c) = true ->
  match WhatwgURL.percentEncodeChar WhatwgURL.c0ControlSet c with
  | String d _ => negb (Ascii.eqb "/" d)
  | EmptyString => false
  end = true.
Proof. revert c. apply ascii_implies. by vm_compute. Qed.

Lemma breakS_head (p : ascii -> bool) (s : string) (c : ascii) (t tail : string) :
  WhatwgURL.breakS p s = (String c t, tail) -> exists s', s = String c s'.
Proof.
  destruct s as [|d s]; [done|]. cbn [WhatwgURL.breakS].
  destruct (p d); [done|]. destruct (WhatwgURL.breakS p s). intros [= -> _ _]. eauto.
Qed.

Lemma noAuthority_shape (scheme rest : string) (opaque : bool) (u : URL) :
  WhatwgURL.noAuthority scheme rest opaque = Some u ->
  (opaque = true -> startsWith rest "/" = false) ->
  hasOpaquePath u = false ->
  exists gs,
    protocol u = scheme +:+ ":"
    /\ host u = ""
    /\ List.Forall (fun g => goodSegment false g = true) gs
    /\ pathname u = WhatwgURL.serializePath gs.
Proof.
  unfold WhatwgURL.noAuthority.
  destruct (WhatwgURL.breakS _ rest) as [pathText tail] eqn:Hb.
  destruct (WhatwgURL.parseQueryAndFragment false tail) as [[params frag]|]; [|done].
  intros [= <-] Hrest. unfold hasOpaquePath. cbn [protocol host pathname].
  destruct opaque.
  - intros Hu. exists []. repeat split; try done.
    destruct pathText as [|c t]; [done|]. exfalso.
    apply breakS_head in Hb as [s' ->]. specialize (Hrest eq_refl).
    rewrite startsWith_one in Hrest.
    pose proof (opaque_head c) as Hc. rewrite Hrest in Hc. specialize (Hc eq_refl).
    cbn [WhatwgURL.percentEncode] in Hu.
    destruct (WhatwgURL.percentEncodeChar WhatwgURL.c0ControlSet c) as [|d r]; [done|].
    rewrite append_cons, startsWith_one in Hu. apply negb_true_iff in Hc.
    by rewrite Hc in Hu.
  - intros _. destruct (parsePath_shape false pathText) as (gs & _ & Hgs & Hp).
    exists gs. by repeat split.
Qed.

Lemma parse_shape (input : string) (u : URL) :
  WhatwgURL.parse input = Some u ->
  hasOpaquePath u = false ->
  exists special scheme gs,
    protocol u = scheme +:+ ":"
    /\ everyChar isLowerSchemeChar scheme = true
    /\ (forall r, WhatwgURL.parseScheme (scheme +:+ ":" +:+ r) = Some (scheme, r))
    /\ String.eqb scheme "file" = false
    /\ WhatwgURL.isSpecial scheme = special
    /\ WhatwgURL.parseAuthority special scheme (host u) = Some (host u)
    /\ (special = true -> host u <> "")
    /\ everyChar isAuthorityChar (host u) = true
    /\ List.Forall (fun g => goodSegment special g = true) gs
    /\ (special = true -> gs <> [])
    /\ pathname u = WhatwgURL.serializePath gs.
Proof.
  unfold WhatwgURL.parse. cbv zeta.
  destruct (WhatwgURL.parseScheme _) as [[scheme rest]|] eqn:Hs; [|done].
  apply parseScheme_fixed in Hs as (Hs1 & _ & Hs2).
  destruct (String.eqb scheme "file") eqn:Hfile; [done|].
  destruct (WhatwgURL.isSpecial scheme) eqn:Hsp.
  { intros H _. apply hierarchical_shape in H as (gs & H).
    exists true, scheme, gs. intuition. }
  destruct (startsWith rest "//").
  { intros H _. apply hierarchical_shape in H as (gs & H).
    exists false, scheme, gs. intuition. }
  destruct (startsWith rest "/") eqn:Hslash.
  - intros H Hu. apply noAuthority_shape in H as (gs & H1 & H2 & H3 & H4); [|done..].
    exists false, scheme, gs. rewrite H2. by repeat split.
  - intros H Hu. apply noAuthority_shape in H as (gs & H1 & H2 & H3 & H4); [|done..].
    exists false, scheme, gs. rewrite H2. by repeat split.
Qed.

Lemma dropWhileS_slashes (rest : string) :
  match rest with
  | String c _ => WhatwgURL.isChar "/" c || WhatwgURL.isChar "\" c
  | EmptyString => false
  end = false ->
  WhatwgURL.dropWhileS (fun c => WhatwgURL.isChar "/" c || WhatwgURL.isChar "\" c)
                       ("//" +:+ rest) = rest.
Proof.
  intros H. rewrite !append_cons, append_nil. cbn [WhatwgURL.dropWhileS].
  change (WhatwgURL.isChar "/" "/" || WhatwgURL.isChar "\" "/") with true. cbv iota.
  by apply dropWhileS_stop.
Qed.

Lemma substring_all (s : string) :
  forall m, String.length s <= m -> String.substring 0 m s = s.
Proof.
  induction s as [|c s IH]; intros [|m] H; try done; cbn in *; [lia|].
  rewrite IH; [done|lia].
Qed.

Lemma substring_slashes (rest : string) :
  String.substring 2 (String.length ("//" +:+ rest)) ("//" +:+ rest) = rest.
Proof.
  rewrite !append_cons, append_nil. cbn [String.length String.substring].
  apply substring_all. lia.
Qed.

(** A text put together from a scheme, a host and a path that the parser
    wrote, and serialised parameters, is left as it is by [trim] and is
    parsed into these parts. *)
Lemma built_parse (special : bool) (scheme h : string) (gs : list string)
      (ps : list (string * string)) :
  everyChar isLowerSchemeChar scheme = true ->
  (forall r, WhatwgURL.parseScheme (scheme +:+ ":" +:+ r) = Some (scheme, r)) ->
  String.eqb scheme "file" = false ->
  WhatwgURL.isSpecial scheme = special ->
  WhatwgURL.parseAuthority special scheme h = Some h ->
  (special = true -> h <> "") ->
  everyChar isAuthorityChar h = true ->
  List.Forall (fun g => goodSegment special g = true) gs ->
  (special = true -> gs <> []) ->
  trim ((scheme +:+ ":") +:+ "//" +:+ h +:+ WhatwgURL.serializePath gs +:+ querySuffix ps)
  = (scheme +:+ ":") +:+ "//" +:+ h +:+ WhatwgURL.serializePath gs +:+ querySuffix ps
  /\ WhatwgURL.parse
       ((scheme +:+ ":") +:+ "//" +:+ h +:+ WhatwgURL.serializePath gs +:+ querySuffix ps)
     = Some (mkURL (scheme +:+ ":") h (WhatwgURL.serializePath gs) ps "").
Proof.
  intros Hscheme Hread Hfile Hsp Hauth Hhost Hchars Hgs Hne.
  rewrite append_assoc.
  set (rest := h +:+ WhatwgURL.serializePath gs +:+ querySuffix ps).
  assert (everyChar isVisible rest = true) as Hrest.
  { unfold rest. rewrite !everyChar_app, querySuffix_visible, andb_true_r.
    apply andb_true_iff. split.
    - apply (everyChar_impl isAuthorityChar); [|done].
      intros c Hc. by apply authorityChar_facts in Hc as [Hc _].
    - apply (everyChar_impl (fun c => isPathChar special c || WhatwgURL.isChar "/" c));
        [|by apply serializePath_chars].
      intros c Hc. by destruct (pathChar_facts _ _ Hc) as [? _]. }
  assert (everyChar isVisible (scheme +:+ ":" +:+ "//" +:+ rest) = true) as Hall.
  { rewrite !everyChar_app, Hrest, andb_true_r.
    rewrite (everyChar_impl isLowerSchemeChar _ scheme lowerSchemeChar_visible Hscheme).
    done. }
  destruct (visible_unchanged _ Hall) as [Htrim Hpre]. split; [done|].
  unfold WhatwgURL.parse. cbv zeta. rewrite Hpre, Hread, Hfile, Hsp.
  destruct special.
  - rewrite dropWhileS_slashes; [by apply hierarchical_built|].
    unfold rest. destruct h as [|c h]; [by destruct Hhost|].
    rewrite append_cons. cbn [everyChar] in Hchars.
    apply andb_true_iff in Hchars as [Hc _].
    apply authorityChar_facts in Hc as [_ Hc]. cbn [existsb] in Hc.
    repeat (apply orb_false_iff in Hc as [? Hc]). by apply orb_false_iff.
  - assert (startsWith ("//" +:+ rest) "//" = true) as ->.
    { rewrite !append_cons, append_nil. cbn [startsWith].
      by rewrite startsWith_empty. }
    rewrite substring_slashes. by apply hierarchical_built.
Qed.

(** The text that [sanitize] builds from a parsed URL without an opaque
    path is left as it is by [trim] and is parsed into that URL again,
    with the parameters written into it and without a fragment. *)
Lemma read_back (input : string) (u : URL) (ps : list (string * string)) :
  WhatwgURL.parse input = Some u ->
  hasOpaquePath u = false ->
  trim (protocol u +:+ "//" +:+ host u +:+ pathname u +:+ querySuffix ps)
  = protocol u +:+ "//" +:+ host u +:+ pathname u +:+ querySuffix ps
  /\ WhatwgURL.parse (protocol u +:+ "//" +:+ host u +:+ pathname u +:+ querySuffix ps)
     = Some (mkURL (protocol u) (host u) (pathname u) ps "").
Proof.
  intros Hparse Hu.
  destruct (parse_shape input u Hparse Hu)
    as (special & scheme & gs & Hproto & Hscheme & Hread & Hfile & Hsp & Hauth & Hhost
        & Hchars & Hgs & Hne & Hpath).
  rewrite Hproto, Hpath. by apply (built_parse special).
Qed.

Lemma noAuthority_parts (scheme rest : string) (opaque : bool) (u : URL) :
  WhatwgURL.noAuthority scheme rest opaque = Some u ->
  protocol u = scheme +:+ ":" /\ host u = "".
Proof.
  unfold WhatwgURL.noAuthority. destruct (WhatwgURL.breakS _ rest) as [pathText tail].
  destruct (WhatwgURL.parseQueryAndFragment false tail) as [[params frag]|]; [|done].
  by intros [= <-].
Qed.

Lemma parse_scheme (input : string) (u : URL) :
  WhatwgURL.parse input = Some u ->
  exists scheme,
    protocol u = scheme +:+ ":"
    /\ everyChar isLowerSchemeChar scheme = true
    /\ (forall r, WhatwgURL.parseScheme (scheme +:+ ":" +:+ r) = Some (scheme, r))
    /\ String.eqb scheme "file" = false
    /\ (WhatwgURL.isSpecial scheme = true -> host u <> "").
Proof.
  unfold WhatwgURL.parse. cbv zeta.
  destruct (WhatwgURL.parseScheme _) as [[scheme rest]|] eqn:Hs; [|done].
  apply parseScheme_fixed in Hs as (Hs1 & _ & Hs2).
  destruct (String.eqb scheme "file") eqn:Hfile; [done|].
  destruct (WhatwgURL.isSpecial scheme) eqn:Hsp.
  { intros H. apply hierarchical_shape in H as (gs & H). exists scheme. intuition. }
  intros H. exists scheme.
  assert (protocol u = scheme +:+ ":") as Hp;
    [|repeat split; try done; by rewrite Hsp].
  destruct (startsWith rest "//").
  { by apply hierarchical_shape in H as (gs & H & _). }
  destruct (startsWith rest "/"); by apply noAuthority_parts in H as [H _].
Qed.

Lemma parseOpaqueHost_plain (h : string) :
  everyChar isHostChar h = true -> WhatwgURL.parseOpaqueHost h = WhatwgURL.HostOk h.
Proof.
  intros Hd. unfold WhatwgURL.parseOpaqueHost.
  assert (startsWith h "[" = false) as ->.
  { destruct h as [|c h']; [done|]. rewrite startsWith_one.
    cbn [everyChar] in Hd. apply andb_true_iff in Hd as [Hc _].
    by apply hostChar_no_bracket. }
  rewrite forallS_everyChar.
  rewrite (everyChar_impl isHostChar _ h hostChar_allowed Hd). cbn [negb].
  rewrite percentEncode_clean; [done|].
  by apply (everyChar_impl isHostChar _ h hostChar_clean).
Qed.

Lemma parseAuthority_plain (scheme h : string) :
  everyChar isHostChar h = true ->
  WhatwgURL.parseAuthority false scheme h = Some h.
Proof.
  intros Hd. unfold WhatwgURL.parseAuthority. cbv zeta.
  rewrite afterCredentials_free; cycle 1.
  { apply authorityChar_no_at.
    by apply (everyChar_impl isHostChar _ h hostChar_authorityChar). }
  rewrite breakS_free; cycle 1.
  { apply (everyChar_impl isHostChar); [|done].
    intros c Hc. apply negb_true_iff. by apply hostChar_no_colon. }
  rewrite parseOpaqueHost_plain by done.
  rewrite !String.eqb_refl. cbn [negb orb]. by rewrite andb_false_r.
Qed.

(** The text that [sanitize] builds from a parsed URL without a host,
    whose path is made of host characters, is parsed into a URL with that
    path as its host. *)
Lemma read_back_as_host (input : string) (u : URL) (ps : list (string * string)) :
  WhatwgURL.parse input = Some u ->
  host u = "" ->
  everyChar isHostChar (pathname u) = true ->
  trim (protocol u +:+ "//" +:+ host u +:+ pathname u +:+ querySuffix ps)
  = protocol u +:+ "//" +:+ host u +:+ pathname u +:+ querySuffix ps
  /\ WhatwgURL.parse (protocol u +:+ "//" +:+ host u +:+ pathname u +:+ querySuffix ps)
     = Some (mkURL (protocol u) (pathname u) "" ps "").
Proof.
  intros Hparse Hhost Hpath.
  destruct (parse_scheme input u Hparse)
    as (scheme & Hproto & Hscheme & Hread & Hfile & Hsp).
  rewrite Hproto, Hhost, append_nil.
  assert (WhatwgURL.isSpecial scheme = false) as Hns.
  { destruct (WhatwgURL.isSpecial scheme); [by destruct Hsp|done]. }
  pose proof (built_parse false scheme (pathname u) [] ps Hscheme Hread Hfile Hns
                (parseAuthority_plain scheme _ Hpath)) as H.
  cbn [WhatwgURL.serializePath fold_right] in H. rewrite append_nil in H.
  apply H; try done.
  by apply (everyChar_impl isHostChar _ _ hostChar_authorityChar).
Qed.

(** *** The text that [sanitize] builds never has an opaque path *)

Lemma dropWhileEndS_app (p : ascii -> bool) (a b : string) :
  a <> "" ->
  everyChar (fun c => negb (p c)) a = true ->
  WhatwgURL.dropWhileEndS p (a +:+ b) = a +:+ WhatwgURL.dropWhileEndS p b.
Proof.
  induction a as [|c a IH]; [done|]. intros _. cbn [everyChar]. intros H.
  apply andb_true_iff in H as [Hc Ha]. apply negb_true_iff in Hc.
  rewrite !append_cons. cbn [WhatwgURL.dropWhileEndS].
  destruct a as [|d a].
  - rewrite !append_nil. rewrite Hc. by destruct (WhatwgURL.dropWhileEndS p b).
  - rewrite IH by done. by rewrite append_cons.
Qed.

Lemma filterS_app (p : ascii -> bool) (a b : string) :
  WhatwgURL.filterS p (a +:+ b) = WhatwgURL.filterS p a +:+ WhatwgURL.filterS p b.
Proof.
  induction a as [|c a IH]; [by rewrite !append_nil|].
  rewrite append_cons. cbn [WhatwgURL.filterS]. rewrite IH.
  destruct (p c); [by rewrite append_cons|done].
Qed.

Lemma serializePath_shape (gs : list string) :
  WhatwgURL.serializePath gs = "" \/ startsWith (WhatwgURL.serializePath gs) "/" = true.
Proof.
  destruct gs as [|g gs]; [by left|right].
  cbn [WhatwgURL.serializePath fold_right]. rewrite append_cons, append_nil.
  by rewrite startsWith_one.
Qed.

Lemma hierarchical_no_opaque_path (special : bool) (scheme afterSlashes : string) (u : URL) :
  WhatwgURL.hierarchical special scheme afterSlashes = Some u ->
  hasOpaquePath u = false.
Proof.
  intros H. apply hierarchical_shape in H as (gs & _ & _ & _ & _ & _ & _ & Hp).
  unfold hasOpaquePath. rewrite Hp.
  destruct (serializePath_shape gs) as [-> | ->]; [|by rewrite andb_false_r].
  cbn [String.eqb negb]. by rewrite andb_false_r.
Qed.

(** Whatever the URL, the text that [sanitize] builds from it is not
    parsed into a URL with an opaque path. *)
Lemma rebuilt_no_opaque_path (input : string) (u u' : URL) (ps : list (string * string)) :
  WhatwgURL.parse input = Some u ->
  WhatwgURL.parse (protocol u +:+ "//" +:+ host u +:+ pathname u +:+ querySuffix ps)
  = Some u' ->
  hasOpaquePath u' = false.
Proof.
  intros Hparse.
  destruct (parse_scheme input u Hparse)
    as (scheme & Hproto & Hscheme & Hread & Hfile & Hsp).
  destruct (parseScheme_fixed _ _ _ (Hread "")) as (_ & (c & t & Hct) & _).
  rewrite Hproto, append_assoc.
  set (rest := host u +:+ pathname u +:+ querySuffix ps).
  assert (everyChar isVisible (scheme +:+ ":" +:+ "//") = true) as Hvis.
  { rewrite everyChar_app.
    by rewrite (everyChar_impl isLowerSchemeChar _ scheme lowerSchemeChar_visible Hscheme). }
  unfold WhatwgURL.parse. cbv zeta.
  replace (scheme +:+ ":" +:+ "//" +:+ rest) with ((scheme +:+ ":" +:+ "//") +:+ rest)
    by by rewrite !append_assoc.
  rewrite dropWhileS_stop; cycle 1.
  { rewrite Hct, !append_cons. rewrite Hct in Hvis. rewrite !append_cons in Hvis.
    cbn [everyChar] in Hvis. apply andb_true_iff in Hvis as [Hc _].
    by apply visible_facts in Hc as (_ & Hc & _). }
  rewrite dropWhileEndS_app; cycle 1.
  { rewrite Hct. by rewrite append_cons. }
  { apply (everyChar_impl isVisible); [|done].
    intros d Hd. apply negb_true_iff. by apply visible_facts in Hd as (_ & Hd & _). }
  rewrite filterS_app, filterS_fixed; cycle 1.
  { apply (everyChar_impl isVisible); [|done].
    intros d Hd. apply negb_true_iff. by apply visible_facts in Hd as (_ & _ & Hd). }
  rewrite !append_assoc, Hread, Hfile.
  destruct (WhatwgURL.isSpecial scheme); [apply hierarchical_no_opaque_path|].
  assert (forall r, startsWith ("//" +:+ r) "//" = true) as ->.
  { intros r. rewrite !append_cons, append_nil. cbn [startsWith].
    by rewrite startsWith_empty. }
  apply hierarchical_no_opaque_path.
Qed.

(** ** Sanitisation: the sanitised URL read back, and sanitised again *)

Lemma rebuilt_read_back (input : string) (u : URL) :
  node_URL input = Some u ->
  hasOpaquePath u = false ->
  trim (rebuilt u) = rebuilt u
  /\ node_URL (rebuilt u)
     = Some (mkURL (protocol u) (host u) (pathname u)
                   (List.filter keepsParam (searchParams u)) "").
Proof. intros H Hu. unfold rebuilt. by apply (read_back input). Qed.

Lemma rebuilt_fixed (input : string) (u : URL) :
  node_URL input = Some u ->
  readsBack u = true ->
  trim (rebuilt u) = rebuilt u
  /\ exists u', node_URL (rebuilt u) = Some u' /\ rebuilt u' = rebuilt u.
Proof.
  intros H Hu. destruct (hasOpaquePath u) eqn:Ho.
  - unfold readsBack in Hu. rewrite Ho in Hu. cbn [negb orb] in Hu.
    assert (host u = "") as Hhost.
    { unfold hasOpaquePath in Ho. apply andb_true_iff in Ho as [Ho _].
      apply andb_true_iff in Ho as [Ho _]. by apply String.eqb_eq. }
    destruct (read_back_as_host input u (List.filter keepsParam (searchParams u))
                H Hhost Hu) as [Ht Hp].
    split; [done|]. eexists. split; [exact Hp|].
    unfold rebuilt. cbn [protocol host pathname searchParams].
    by rewrite Hhost, !append_nil, filter_keepsParam_idempotent.
  - destruct (rebuilt_read_back input u H Ho) as [Ht Hp].
    split; [done|]. eexists. split; [exact Hp|].
    unfold rebuilt. cbn [protocol host pathname searchParams].
    by rewrite filter_keepsParam_idempotent.
Qed.

(** [sanitize] on its own output, for a URL that reads back. *)
Lemma sanitize_again (x y : string) (u : URL) :
  node_URL (trim x) = Some u ->
  readsBack u = true ->
  sanitize node_URL x = Return y ->
  sanitize node_URL y
  = if startsWithDangerousProtocol y then Throw dangerousProtocolError
    else if hasXssMarker y then Throw xssError
    else Return y.
Proof.
  intros Hu Hr Hx. apply sanitize_returns in Hx as (_ & _ & u0 & Hu0 & ->).
  rewrite Hu in Hu0. injection Hu0 as <-.
  destruct (rebuilt_fixed _ u Hu Hr) as (Ht & u' & Hp & Hfix).
  destruct (startsWithDangerousProtocol (rebuilt u)) eqn:Hd;
    [by apply sanitize_dangerous|].
  destruct (hasXssMarker (rebuilt u)) eqn:Hxss; [by apply sanitize_xss|].
  rewrite (sanitize_parsed _ _ u'); [by rewrite Hfix|done|done|by rewrite Ht].
Qed.

Lemma append_colon_inj (s : string) :
  forall t, s +:+ ":" = t +:+ ":" -> s = t.
Proof.
  induction s as [|c s IH]; intros [|d t]; rewrite ?append_cons, ?append_nil;
    intros H; try done.
  - injection H as _ H. by destruct t.
  - injection H as _ H. by destruct s.
  - injection H as -> H. f_equal. by apply IH.
Qed.

(** An http or https URL has a host, and its sanitised text does not
    start with a dangerous protocol. *)
Lemma http_reads_back (input : string) (u : URL) :
  node_URL input = Some u ->
  arrayIncludes ["http:"; "https:"] (protocol u) = true ->
  hasOpaquePath u = false
  /\ startsWithDangerousProtocol (rebuilt u) = false.
Proof.
  intros H Hp.
  destruct (parse_scheme input u H) as (scheme & Hproto & _ & _ & _ & Hsp).
  assert (scheme = "http" \/ scheme = "https") as Hscheme.
  { apply arrayIncludes_In in Hp. cbn in Hp. rewrite Hproto in Hp.
    destruct Hp as [Hp|[Hp|[]]]; [left|right]; by apply append_colon_inj. }
  assert (hasOpaquePath u = false) as Ho.
  { unfold hasOpaquePath.
    assert (host u <> "") as Hh by (apply Hsp; by destruct Hscheme as [->| ->]).
    apply String.eqb_neq in Hh. by rewrite Hh. }
  split; [done|].
  destruct (rebuilt_read_back input u H Ho) as [Ht _].
  unfold startsWithDangerousProtocol. rewrite Ht. unfold rebuilt. rewrite Hproto.
  by destruct Hscheme as [->| ->].
Qed.

(** C5, as amended.  For every input past the two security checks that
    the URL constructor accepts, [sanitize] returns the scheme, [//], the
    host and the path of the parsed URL, followed, when some survive, by
    [?] and the serialised parameters that survive; the survivors are the
    parameters whose key in lower case is not on the denylist, in their
    original order, and the serialised parameters are parsed back into
    themselves.  When the parsed URL has no opaque path, as is the case for
    every http and https URL, the text returned is a URL with the scheme,
    the host and the path of the input, exactly the surviving parameters
    and no fragment; and only then is it a URL with the host and the path
    of the input.  The two URLs of the specification come out as it says,
    and a fragment is dropped. *)
Theorem sanitize_rebuilds_url :
  (forall (new_URL : string -> option URL) (x : string) (u : URL),
      startsWithDangerousProtocol x = false ->
      hasXssMarker x = false ->
      new_URL (trim x) = Some u ->
      sanitize new_URL x
      = Return (protocol u +:+ "//" +:+ host u +:+ pathname u
                +:+ querySuffix (List.filter keepsParam (searchParams u))))
  /\ (forall params, safeParamsOf params = List.filter keepsParam params)
  /\ (forall key value,
         keepsParam (key, value) = true <-> ~ In (toLowerCase key) dangerousParams)
  /\ (forall params,
         WhatwgURL.parseQuery (FormUrlencoded.serialize params) = Some params)
  /\ (forall (x : string) (u : URL),
         startsWithDangerousProtocol x = false ->
         hasXssMarker x = false ->
         node_URL (trim x) = Some u ->
         hasOpaquePath u = false ->
         exists y,
           sanitize node_URL x = Return y
           /\ node_URL y
              = Some (mkURL (protocol u) (host u) (pathname u)
                            (List.filter keepsParam (searchParams u)) ""))
  /\ (forall (x y : string) (u u' : URL),
         node_URL (trim x) = Some u ->
         sanitize node_URL x = Return y ->
         node_URL y = Some u' ->
         (host u' = host u /\ pathname u' = pathname u <-> hasOpaquePath u = false))
  /\ (forall (x : string) (u : URL),
         node_URL x = Some u ->
         arrayIncludes ["http:"; "https:"] (protocol u) = true ->
         hasOpaquePath u = false)
  /\ sanitize node_URL "https://instagram.com/p/ABC123?callback=evil"
     = Return "https://instagram.com/p/ABC123"
  /\ sanitize node_URL "https://example.com?url=bad&safe=ok"
     = Return "https://example.com/?safe=ok"
  /\ sanitize node_URL "https://example.com/a?Next=1&b=2&URL=x&c=3#top"
     = Return "https://example.com/a?b=2&c=3".
Proof.
  split; [|split; [|split; [|split; [|split; [|split; [|split]]]]]].
  - intros new_URL x u. apply sanitize_parsed.
  - apply safeParamsOf_filter.
  - intros key value. unfold keepsParam. cbn [fst].
    rewrite negb_true_iff, <- not_true_iff_false. by rewrite arrayIncludes_In.
  - apply parseQuery_serialize.
  - intros x u Hd Hxss Hu Ho. exists (rebuilt u). split; [by apply sanitize_parsed|].
    by destruct (rebuilt_read_back _ u Hu Ho).
  - intros x y u u' Hu Hx Hy.
    apply sanitize_returns in Hx as (_ & _ & u0 & Hu0 & ->).
    rewrite Hu in Hu0. injection Hu0 as <-. split.
    + intros [Hh Hp].
      pose proof (rebuilt_no_opaque_path _ u u' _ Hu Hy) as Ho.
      unfold hasOpaquePath in *. by rewrite <- Hh, <- Hp.
    + intros Ho. destruct (rebuilt_read_back _ u Hu Ho) as [_ Hr].
      rewrite Hr in Hy. by injection Hy as <-.
  - intros x u Hu Hp. by destruct (http_reads_back x u Hu Hp).
  - repeat split; vm_compute; reflexivity.
Qed.

Lemma sanitize_rebuilds_url_witness :
  exists y,
    sanitize node_URL "  https://twitter.com/user/status/123?s=20&src=x  " = Return y
    /\ node_URL y
       = Some (mkURL "https:" "twitter.com" "/user/status/123" [("s", "20")] "").
Proof.
  apply (proj1 (proj2 (proj2 (proj2 (proj2 sanitize_rebuilds_url))))
           "  https://twitter.com/user/status/123?s=20&src=x  "
           (mkURL "https:" "twitter.com" "/user/status/123" [("s", "20"); ("src", "x")] ""));
    vm_compute; reflexivity.
Defined.

(** C5 as stated fails for a URL with an opaque path: [sanitize] puts
    [//] before the path, and what it returns is a URL with another host
    and another path. *)
Lemma opaque_path_becomes_host :
  startsWithDangerousProtocol "mailto:user@example.com" = false
  /\ hasXssMarker "mailto:user@example.com" = false
  /\ node_URL "mailto:user@example.com"
     = Some (mkURL "mailto:" "" "user@example.com" [] "")
  /\ sanitize node_URL "mailto:user@example.com" = Return "mailto://user@example.com"
  /\ node_URL "mailto://user@example.com"
     = Some (mkURL "mailto:" "example.com" "" [] "").
Proof. repeat split; vm_compute; reflexivity. Qed.

(** C6, as amended.  When [sanitize] succeeds on [x] with output [y] and
    the URL parsed from [x] has no opaque path, or an opaque path made of
    host characters only, then [sanitize] on [y] returns [y], unless [y]
    starts with a dangerous protocol or holds an XSS pattern: then it
    throws the error of that check.  For an http or https URL the output
    never starts with a dangerous protocol, so that [sanitize] returns [y]
    on [y] exactly when [y] holds no XSS pattern.  For any URL constructor,
    [sanitize] returns a text unchanged exactly when the text passes the
    two checks and is the text rebuilt from its own parse. *)
Theorem sanitize_twice :
  (forall (x y : string) (u : URL),
      node_URL (trim x) = Some u ->
      readsBack u = true ->
      sanitize node_URL x = Return y ->
      sanitize node_URL y
      = if startsWithDangerousProtocol y then Throw dangerousProtocolError
        else if hasXssMarker y then Throw xssError
        else Return y)
  /\ (forall (x y : string) (u : URL),
         node_URL (trim x) = Some u ->
         arrayIncludes ["http:"; "https:"] (protocol u) = true ->
         sanitize node_URL x = Return y ->
         readsBack u = true
         /\ startsWithDangerousProtocol y = false
         /\ (sanitize node_URL y = Return y <-> hasXssMarker y = false))
  /\ (forall (new_URL : string -> option URL) (y : string),
         sanitize new_URL y = Return y
         <-> startsWithDangerousProtocol y = false
             /\ hasXssMarker y = false
             /\ exists u', new_URL (trim y) = Some u' /\ rebuilt u' = y)
  /\ sanitize node_URL "tel:+15551234" = Return "tel://+15551234"
  /\ sanitize node_URL "tel://+15551234" = Return "tel://+15551234"
  /\ sanitize node_URL "foo:bar" = Return "foo://bar"
  /\ sanitize node_URL "foo://bar" = Return "foo://bar".
Proof.
  split; [|split; [|split]].
  - intros x y u. apply sanitize_again.
  - intros x y u Hu Hp Hx.
    destruct (http_reads_back _ u Hu Hp) as [Ho Hd].
    assert (readsBack u = true) as Hr by (unfold readsBack; by rewrite Ho).
    pose proof (sanitize_again x y u Hu Hr Hx) as Hy.
    apply sanitize_returns in Hx as (_ & _ & u0 & Hu0 & ->).
    rewrite Hu in Hu0. injection Hu0 as <-.
    rewrite Hd in Hy. split; [done|]. split; [done|].
    rewrite Hy. by destruct (hasXssMarker (rebuilt u)).
  - intros new_URL y. split.
    + intros H. apply sanitize_returns in H as (Hd & Hxss & u' & Hu' & Hy). eauto.
    + intros (Hd & Hxss & u' & Hu' & Hy).
      rewrite (sanitize_parsed _ _ u') by done. by rewrite Hy.
  - repeat split; vm_compute; reflexivity.
Qed.

Lemma sanitize_twice_witness :
  sanitize node_URL "https://example.com/?safe=ok" = Return "https://example.com/?safe=ok".
Proof.
  exact (proj1 sanitize_twice
           "https://example.com?url=bad&safe=ok" "https://example.com/?safe=ok"
           (mkURL "https:" "example.com" "/" [("url", "bad"); ("safe", "ok")] "")
           ltac:(vm_compute; reflexivity) ltac:(vm_compute; reflexivity)
           ltac:(vm_compute; reflexivity)).
Defined.

(** C6 as stated fails.  [sanitize] accepts a URL with the bare query key
    [onclick] and serialises it as [onclick=], which [sanitize] rejects as
    an XSS pattern; and it turns [mailto:foo@bar.com] into
    [mailto://foo@bar.com], which it turns into [mailto://bar.com]. *)
Lemma sanitize_is_not_idempotent :
  sanitize node_URL "https://example.com/?onclick"
  = Return "https://example.com/?onclick="
  /\ sanitize node_URL "https://example.com/?onclick=" = Throw xssError
  /\ sanitize node_URL "mailto:foo@bar.com" = Return "mailto://foo@bar.com"
  /\ sanitize node_URL "mailto://foo@bar.com" = Return "mailto://bar.com".
Proof. repeat split; vm_compute; reflexivity. Qed.
